(** * spotify_web/spotify.py: identifier codec, availability resolver and
      session engine, embedded in Rocq.

    The development follows the layout of the Python module:
    - [Py]          the Python 2 primitives the module relies on
                    (exceptions, [int]/[long], [str] methods, [hex]);
    - [SpotifyUtil] the static identifier codec (lines 74-137);
    - [Aplus]       the promise cells of the [aplus] package, kept in a
                    shared store because the pending table and the caller
                    alias the same promise object;
    - [SpotifyAPI]  the session object (lines 140-1202): connection state
                    machine, command dispatcher, availability resolver.

    Effects are written in state-passing style over a [World] that holds the
    session object, the promise store and the web sockets. *)

From Stdlib Require Import ZArith List String Ascii Bool Lia.
From stdpp Require Import base option list gmap strings pretty.

Local Open Scope string_scope.
Local Open Scope Z_scope.
Local Open Scope list_scope.

(* ===================================================================== *)
(** ** Python 2 primitives *)
(* ===================================================================== *)

Module Py.

(** Exceptions that can travel through the modelled code.  All of them derive
    from [Exception], so a bare [except Exception] catches every one. *)
Inductive Exn : Type :=
  | SpotifyDisconnectedError
  | SpotifyCommandError (major minor : Z) (msg : string)
  | SpotifyTimeoutError
  | SSLError
  | StreamClosed
  | AssertionError
  | ValueError
  | IndexError
  | KeyError
  | OtherError (name : string).

(** Outcome of a call: a returned value or a raised exception. *)
Inductive Result (A : Type) : Type :=
  | Return (a : A)
  | Raise (e : Exn).
Arguments Return {A} a.
Arguments Raise {A} e.

Definition bind {A B} (r : Result A) (k : A -> Result B) : Result B :=
  match r with
  | Return a => k a
  | Raise e => Raise e
  end.

Definition of_option {A} (e : Exn) (o : option A) : Result A :=
  match o with
  | Some a => Return a
  | None => Raise e
  end.

(** [isinstance(e, SpotifyDisconnectedError)] and
    [isinstance(e, SpotifyCommandError)]. *)
Definition is_disconnected (e : Exn) : bool :=
  match e with SpotifyDisconnectedError => true | _ => false end.

Definition is_command_error (e : Exn) : bool :=
  match e with SpotifyCommandError _ _ _ => true | _ => false end.

(** *** [int] and [long]

    Python 2 keeps two integer types.  Arithmetic on two [int]s yields an
    [int] when the result fits the machine word ([-maxint-1 .. maxint]) and a
    [long] otherwise; as soon as one operand is a [long] the result is a
    [long].  [hex] prints a trailing [L] for a [long] only. *)
Inductive py_int : Type :=
  | PyInt (z : Z)
  | PyLong (z : Z).

Definition py_val (v : py_int) : Z :=
  match v with PyInt z | PyLong z => z end.

Definition py_is_long (v : py_int) : bool :=
  match v with PyInt _ => false | PyLong _ => true end.

Definition int_result (maxint z : Z) : py_int :=
  if (- maxint - 1 <=? z) && (z <=? maxint) then PyInt z else PyLong z.

Definition py_arith (maxint : Z) (op : Z -> Z -> Z) (a b : py_int) : py_int :=
  match a, b with
  | PyInt x, PyInt y => int_result maxint (op x y)
  | _, _ => PyLong (op (py_val a) (py_val b))
  end.

Definition py_mul (maxint : Z) := py_arith maxint Z.mul.
Definition py_add (maxint : Z) := py_arith maxint Z.add.

(** [sys.maxint] of CPython 2 on LP64 and on 32-bit platforms. *)
Definition maxint64 : Z := 2 ^ 63 - 1.
Definition maxint32 : Z := 2 ^ 31 - 1.

(** *** [str] methods *)

Fixpoint replicate_char (n : nat) (c : ascii) : string :=
  match n with
  | O => EmptyString
  | S n' => String c (replicate_char n' c)
  end.

(** [s.rjust(width, fill)]: pads on the left, never truncates. *)
Definition rjust (width : nat) (fill : ascii) (s : string) : string :=
  replicate_char (width - String.length s) fill +:+ s.

(** [s.split(sep)] for a one-character separator: always at least one
    field, empty fields are kept. *)
Fixpoint split (sep : ascii) (s : string) : list string :=
  match s with
  | EmptyString => [EmptyString]
  | String c s' =>
      if Ascii.eqb c sep then EmptyString :: split sep s'
      else match split sep s' with
           | [] => [String c EmptyString]
           | p :: ps => String c p :: ps
           end
  end.

(** [s.index(c)]: position of the first occurrence, [ValueError] if none. *)
Fixpoint index_from (i : nat) (c : ascii) (s : string) : option nat :=
  match s with
  | EmptyString => None
  | String d s' => if Ascii.eqb c d then Some i else index_from (S i) c s'
  end.

Definition index (c : ascii) (s : string) : Result nat :=
  of_option ValueError (index_from 0%nat c s).

(** [l[i]] on a list, [IndexError] out of range (non-negative [i]). *)
Definition getitem {A} (l : list A) (i : nat) : Result A :=
  of_option IndexError (nth_error l i).

(** [s[2:-1]]: from the third character up to, excluding, the last one. *)
Definition slice_2_m1 (s : string) : string :=
  String.substring 2 (String.length s - 3) s.

(** [[s[i:i+2] for i in range(0, len(s), 2)]]: consecutive two-character
    pieces, the last one shorter when the length is odd. *)
Fixpoint pairs_of (fuel : nat) (s : string) : list string :=
  match fuel with
  | O => []
  | S fuel' =>
      match s with
      | EmptyString => []
      | String a EmptyString => [String a EmptyString]
      | String a (String b s') => String a (String b EmptyString) :: pairs_of fuel' s'
      end
  end.

Definition two_char_chunks (s : string) : list string :=
  pairs_of (String.length s) s.

(** *** Positional notation *)

(** The loop
    [while v > 0: res = [v % b] + res; v /= b]
    ([/] is floor division on Python 2 integers).  [fuel] bounds the number
    of iterations; [digits_fuel] gives enough of it for every [v]. *)
Fixpoint radix_loop (b : Z) (fuel : nat) (v : Z) (res : list Z) : list Z :=
  match fuel with
  | O => res
  | S fuel' =>
      if v >? 0 then radix_loop b fuel' (v / b) (v mod b :: res) else res
  end.

Definition digits_fuel (v : Z) : nat := S (Z.to_nat (Z.log2 v)).

Definition radix_digits (b v : Z) : list Z :=
  radix_loop b (digits_fuel v) v [].

Definition hexdigits : string := "0123456789abcdef".

Definition digit_char (alphabet : string) (i : Z) : ascii :=
  match String.get (Z.to_nat i) alphabet with
  | Some c => c
  | None => "?"%char
  end.

Definition digits_string (alphabet : string) (ds : list Z) : string :=
  string_of_list_ascii (map (digit_char alphabet) ds).

(** [hex(v)]: ['0x'] and the lower-case digits, ['0x0'] for zero, a leading
    minus sign for negatives, and a trailing ['L'] exactly for a [long]. *)
Definition hex (v : py_int) : string :=
  let z := py_val v in
  let body := if Z.abs z =? 0 then "0"
              else digits_string hexdigits (radix_digits 16 (Z.abs z)) in
  (if z <? 0 then "-" else "") +:+ "0x" +:+ body +:+
  (if py_is_long v then "L" else "").

(** Value of one hexadecimal digit, either case, as [int(_, 16)] reads it. *)
Definition hex_digit_value (c : ascii) : option Z :=
  let n := Z.of_nat (nat_of_ascii c) in
  if (48 <=? n) && (n <=? 57) then Some (n - 48)
  else if (97 <=? n) && (n <=? 102) then Some (n - 87)
  else if (65 <=? n) && (n <=? 70) then Some (n - 55)
  else None.

Fixpoint int16_from (acc : Z) (s : string) : option Z :=
  match s with
  | EmptyString => Some acc
  | String c s' =>
      match hex_digit_value c with
      | Some d => int16_from (acc * 16 + d) s'
      | None => None
      end
  end.

(** [int(s, 16)] on a string of hexadecimal digits; [ValueError] on the empty
    string and on any other character.  (Signs, a ['0x'] prefix and
    surrounding blanks, which [int] also accepts, are not identifiers and are
    left out.) *)
Definition int16 (s : string) : Result Z :=
  match s with
  | EmptyString => Raise ValueError
  | _ => of_option ValueError (int16_from 0 s)
  end.

(** *** More [str] methods and [binascii] *)

(** [binascii.hexlify(data)]: two lower-case hexadecimal digits per byte. *)
Fixpoint hexlify (data : string) : string :=
  match data with
  | EmptyString => EmptyString
  | String c rest =>
      let n := Z.of_nat (nat_of_ascii c) in
      String (digit_char hexdigits (n / 16))
        (String (digit_char hexdigits (n mod 16)) (hexlify rest))
  end.

(** [s.startswith(p)]. *)
Definition startswith (p s : string) : bool := String.prefix p s.

(** The scan behind [s.replace(old, new)] for a non-empty [old]: left to
    right, occurrences do not overlap.  [skip] counts the characters of an
    occurrence that are still to be passed over. *)
Fixpoint replace_go (old new : string) (skip : nat) (s : string) : string :=
  match s with
  | EmptyString => EmptyString
  | String c s' =>
      match skip with
      | S k => replace_go old new k s'
      | O =>
          if String.prefix old s
          then new +:+ replace_go old new (String.length old - 1) s'
          else String c (replace_go old new 0 s')
      end
  end.

(** [s.replace("", new)]: [new] before every character and at the end. *)
Fixpoint replace_empty (new : string) (s : string) : string :=
  match s with
  | EmptyString => new
  | String c s' => new +:+ String c (replace_empty new s')
  end.

(** [s.replace(old, new)]. *)
Definition replace (old new : string) (s : string) : string :=
  match old with
  | EmptyString => replace_empty new s
  | _ => replace_go old new 0 s
  end.

(** [s[n:]] for a non-negative [n]. *)
Fixpoint str_drop (n : nat) (s : string) : string :=
  match n, s with
  | O, _ => s
  | S n', String _ s' => str_drop n' s'
  | S _, EmptyString => EmptyString
  end.

(** *** [base64] *)

Definition b64alphabet : string :=
  "ABCDEFGHIJKLMNOPQRSTUVWXYZabcdefghijklmnopqrstuvwxyz0123456789+/".

Definition ord (c : ascii) : Z := Z.of_nat (nat_of_ascii c).

(** [base64.b64encode(s)]: three bytes become four characters of the
    alphabet, a tail of one or two bytes is padded with ['=']. *)
Fixpoint b64encode (s : string) : string :=
  match s with
  | EmptyString => EmptyString
  | String a EmptyString =>
      String (digit_char b64alphabet (ord a / 4))
        (String (digit_char b64alphabet (ord a mod 4 * 16)) "==")
  | String a (String b EmptyString) =>
      String (digit_char b64alphabet (ord a / 4))
        (String (digit_char b64alphabet (ord a mod 4 * 16 + ord b / 16))
           (String (digit_char b64alphabet (ord b mod 16 * 4)) "="))
  | String a (String b (String c rest)) =>
      String (digit_char b64alphabet (ord a / 4))
        (String (digit_char b64alphabet (ord a mod 4 * 16 + ord b / 16))
           (String (digit_char b64alphabet (ord b mod 16 * 4 + ord c / 64))
              (String (digit_char b64alphabet (ord c mod 64))
                 (b64encode rest))))
  end.

(** *** Decimal integers *)

Definition is_space (c : ascii) : bool :=
  let n := nat_of_ascii c in
  ((9 <=? n) && (n <=? 13) || (n =? 32))%nat.

Fixpoint lstrip_space (s : string) : string :=
  match s with
  | String c s' => if is_space c then lstrip_space s' else s
  | EmptyString => EmptyString
  end.

Definition rev_string (s : string) : string :=
  string_of_list_ascii (rev (list_ascii_of_string s)).

(** [s.strip()]. *)
Definition strip (s : string) : string :=
  rev_string (lstrip_space (rev_string (lstrip_space s))).

Definition digit_value (c : ascii) : option Z :=
  let n := Z.of_nat (nat_of_ascii c) in
  if (48 <=? n) && (n <=? 57) then Some (n - 48) else None.

Fixpoint int10_from (acc : Z) (s : string) : option Z :=
  match s with
  | EmptyString => Some acc
  | String c s' =>
      match digit_value c with
      | Some d => int10_from (acc * 10 + d) s'
      | None => None
      end
  end.

(** [int(s)] on a 7-bit string: blanks around the number are dropped, one
    sign is allowed, at least one digit is required; [ValueError]
    otherwise. *)
Definition int10 (s : string) : Result Z :=
  match strip s with
  | EmptyString => Raise ValueError
  | String c EmptyString => of_option ValueError (int10_from 0 (String c EmptyString))
  | String c r =>
      if Ascii.eqb c "-" then of_option ValueError (Z.opp <$> int10_from 0 r)
      else if Ascii.eqb c "+" then of_option ValueError (int10_from 0 r)
      else of_option ValueError (int10_from 0 (String c r))
  end.

(** [sep.join(parts)]. *)
Fixpoint join (sep : string) (parts : list string) : string :=
  match parts with
  | [] => EmptyString
  | [p] => p
  | p :: rest => p +:+ sep +:+ join sep rest
  end.

(** [l[i]] with Python's negative indices. *)
Definition getitem_z {A} (l : list A) (i : Z) : Result A :=
  let n := Z.of_nat (length l) in
  if (0 <=? i) && (i <? n) then of_option IndexError (nth_error l (Z.to_nat i))
  else if (- n <=? i) && (i <? 0) then of_option IndexError (nth_error l (Z.to_nat (n + i)))
  else Raise IndexError.

End Py.

(* ===================================================================== *)
(** ** SpotifyUtil: the identifier codec (lines 74-137) *)
(* ===================================================================== *)

Module SpotifyUtil.
Import Py.

Definition base62 : string :=
  "0123456789abcdefghijklmnopqrstuvwxyzABCDEFGHIJKLMNOPQRSTUVWXYZ".

(** Lines 79-87. *)
Definition id2uri (uritype : string) (v : string) : Result string :=
  bind (int16 v) (fun v =>
  let res := radix_digits 62 v in
  let id := digits_string base62 res in
  Return ("spotify:" +:+ uritype +:+ ":" +:+ rjust 22 "0" id)).

(** Lines 97-99: [v = 0; for c in s: v = v * 62 + base62.index(c)]. *)
Fixpoint uri2id_for (maxint : Z) (v : py_int) (s : string) : Result py_int :=
  match s with
  | EmptyString => Return v
  | String c s' =>
      bind (index c base62) (fun i =>
      uri2id_for maxint
        (py_add maxint (py_mul maxint v (PyInt 62)) (PyInt (Z.of_nat i))) s')
  end.

(** Lines 89-100. *)
Definition uri2id (maxint : Z) (uri : string) : Result string :=
  let parts := split ":" uri in
  bind (if (3 <? length parts)%nat
        then bind (getitem parts 3) (fun p3 =>
             if String.eqb p3 "playlist" then getitem parts 4
             else getitem parts 2)
        else getitem parts 2) (fun s =>
  bind (uri2id_for maxint (PyInt 0) s) (fun v =>
  Return (rjust 32 "0" (slice_2_m1 (hex v))))).

(** Lines 75-77. *)
Definition gid2id (gid : string) : string := rjust 32 "0" (hexlify gid).

(** Lines 102-106. *)
Definition gid2uri (uritype : string) (gid : string) : Result string :=
  let id := gid2id gid in
  id2uri uritype id.

(** [l[i] == x] behind a length test [len(l) >= i + 1]. *)
Definition field_is (parts : list string) (i : nat) (x : string) : bool :=
  match nth_error parts i with
  | Some p => String.eqb p x
  | None => false
  end.

(** Lines 108-121; [None] is the [False] of the last branch. *)
Definition get_uri_type (uri : string) : option string :=
  let uri_parts := split ":" uri in
  if (3 <=? length uri_parts)%nat && field_is uri_parts 1 "local" then Some "local"
  else if (5 <=? length uri_parts)%nat then nth_error uri_parts 3
  else if (4 <=? length uri_parts)%nat && field_is uri_parts 3 "starred"
       then Some "playlist"
  else if (3 <=? length uri_parts)%nat then nth_error uri_parts 1
  else None.

(** Lines 123-125. *)
Definition is_local (uri : string) : bool :=
  match get_uri_type uri with
  | Some t => String.eqb t "local"
  | None => false
  end.

(** Lines 127-137. *)
Definition url2uri (url : string) : option string :=
  if negb (startswith "http://open.spotify.com" url) then None
  else
    let url := replace "http://open.spotify.com/" "" url in
    let url := replace "/" ":" url in
    Some ("spotify:" +:+ url).

End SpotifyUtil.

(* ===================================================================== *)
(** ** Aplus: promise cells *)
(* ===================================================================== *)

Module Aplus.
Import Py.

(** JSON values carried by commands and replies. *)
#[warnings="-register-all"]
Inductive json : Type :=
  | JNull
  | JBool (b : bool)
  | JNum (z : Z)
  | JStr (s : string)
  | JArr (items : list json).

Inductive Settlement : Type :=
  | Pending
  | Fulfilled (value : json)
  | Rejected (reason : Exn).

(** A handler registered on a promise: a callable supplied by a caller (named
    by a handle, its body is not part of the module), or the link that [then]
    installs to settle the derived promise [target]. *)
Inductive Handler : Type :=
  | Call (f : nat)
  | Forward (target : nat) (transform : option (json -> Result json)).

Record Promise : Type := mkPromise {
  p_state : Settlement;
  p_callbacks : list Handler;
  p_errbacks : list Handler
}.

(** The store of all promise objects; a promise is named by its index, so two
    references to one promise see the same cell. *)
Abbreviation Store := (list Promise).

(** [Promise()]: a fresh pending cell. *)
Definition new_promise (st : Store) : Store * nat :=
  (st ++ [mkPromise Pending [] []], length st).

(** [Promise.rejected(reason)]: a static factory.  It builds a fresh promise,
    rejects it and returns it; no existing promise is touched, whatever
    object the attribute was looked up on. *)
Definition Promise_rejected (reason : Exn) (st : Store) : Store * nat :=
  (st ++ [mkPromise (Rejected reason) [] []], length st).

(** Outcome of running a [then]-transform on a fulfilment value. *)
Definition transformed (transform : option (json -> Result json)) (v : json)
  : Settlement :=
  match transform with
  | None => Fulfilled v
  | Some f => match f v with
              | Return v' => Fulfilled v'
              | Raise e => Rejected e
              end
  end.

(** [p.addCallback(f)] on a pending promise queues [f]; on a settled one the
    handler runs at once, which the caller of this function sees as the
    returned value to pass to [f]. *)
Definition addCallback (p : nat) (h : Handler) (st : Store)
  : Store * option json :=
  match st !! p with
  | Some c =>
      match p_state c with
      | Pending =>
          (<[p := mkPromise Pending (p_callbacks c ++ [h]) (p_errbacks c)]> st,
           None)
      | Fulfilled v => (st, Some v)
      | Rejected _ => (st, None)
      end
  | None => (st, None)
  end.

(** [p.then(transform)]: the derived promise follows [p]; it is settled
    immediately when [p] already is. *)
Definition then_ (transform : option (json -> Result json)) (p : nat)
    (st : Store) : Store * nat :=
  let ret := length st in
  match st !! p with
  | Some c =>
      match p_state c with
      | Pending =>
          let link := Forward ret transform in
          (<[p := mkPromise Pending (p_callbacks c ++ [link])
                            (p_errbacks c ++ [link])]> st
             ++ [mkPromise Pending [] []], ret)
      | Fulfilled v => (st ++ [mkPromise (transformed transform v) [] []], ret)
      | Rejected r => (st ++ [mkPromise (Rejected r) [] []], ret)
      end
  | None => (st ++ [mkPromise Pending [] []], ret)
  end.

Definition state_of (st : Store) (p : nat) : option Settlement :=
  p_state <$> st !! p.

(** [p.fulfill(v)] and [p.reject(r)], written as one function on the
    outcome [o].  A promise that is settled already is left alone.  A
    pending one takes the outcome, hands its handlers over and runs them in
    order: a caller's callable is run with the value, which is recorded in
    [log]; a link made by [then] settles the derived promise, with the
    transformed value on fulfilment and with the same reason on rejection.
    The module registers no callables for rejections.  [fuel] bounds the
    depth of chained promises. *)
Fixpoint settle (fuel : nat) (p : nat) (o : Settlement) (st : Store)
    (log : list (nat * json)) : Store * list (nat * json) :=
  match fuel with
  | O => (st, log)
  | S fuel' =>
      match st !! p with
      | Some c =>
          match p_state c, o with
          | Pending, Fulfilled v =>
              fold_left
                (fun acc h =>
                   match h with
                   | Call f => (fst acc, snd acc ++ [(f, v)])
                   | Forward target transform =>
                       settle fuel' target (transformed transform v) (fst acc) (snd acc)
                   end)
                (p_callbacks c) (<[p := mkPromise o [] []]> st, log)
          | Pending, Rejected r =>
              fold_left
                (fun acc h =>
                   match h with
                   | Call _ => acc
                   | Forward target _ =>
                       settle fuel' target (Rejected r) (fst acc) (snd acc)
                   end)
                (p_errbacks c) (<[p := mkPromise o [] []]> st, log)
          | _, _ => (st, log)
          end
      | None => (st, log)
      end
  end.

End Aplus.

(* ===================================================================== *)
(** ** SpotifyAPI: the session object *)
(* ===================================================================== *)

Module SpotifyAPI.
Import Py SpotifyUtil Aplus.

(** Lines 141-145. *)
Inductive State : Type :=
  | INIT
  | CONNECTING
  | CONNECTED
  | DISCONNECTING
  | DISCONNECTED.

Definition State_eqb (a b : State) : bool :=
  match a, b with
  | INIT, INIT | CONNECTING, CONNECTING | CONNECTED, CONNECTED
  | DISCONNECTING, DISCONNECTING | DISCONNECTED, DISCONNECTED => true
  | _, _ => false
  end.

(** The part of [self.settings] the session engine reads. *)
Record Settings : Type := mkSettings {
  wss : string;
  credentials : string
}.

(** The object built by [__init__] (lines 147-169).  [ws] names a socket of
    the world, [cmd_promises] maps a sequence number to a promise of the
    store, the two [Event]s are their flags. *)
Record Session : Type := mkSession {
  logged_in_marker : bool;
  heartbeat_marker : bool;
  userid : option string;
  username : option string;
  password : option string;
  account_type : option string;
  country : option string;
  settings : option Settings;
  state : State;
  ws : option nat;
  seq : nat;
  cmd_promises : gmap nat nat
}.

(** The wire message of [send_command], before [json.dumps]. *)
Record Msg : Type := mkMsg {
  msg_name : string;
  msg_id : string;
  msg_args : list json
}.

(** A [SpotifyClient] web socket as the session sees it: [sock_fault] is the
    exception a [send] raises at present ([None]: the write succeeds),
    [sock_sent] the frames written so far, [sock_closed] whether [close] was
    called. *)
Record Socket : Type := mkSocket {
  sock_url : string;
  sock_fault : option Exn;
  sock_sent : list Msg;
  sock_closed : bool
}.

Record World : Type := mkWorld {
  api : Session;
  store : list Promise;
  sockets : list Socket;
  calls : list (nat * json)
}.

(** What building and connecting a [SpotifyClient] can do (lines 197-200). *)
Inductive Dial : Type :=
  | DialOk
  | DialConstructorRaises
  | DialConnectRaises (fault : Exn).

(** Everything the session engine takes from outside: the HTTP login flow
    behind [auth], the socket library, and the other threads that run while
    the caller blocks on an [Event] or on a promise. *)
Record Env : Type := mkEnv {
  env_login : string -> string -> Result Settings;
  env_dial : string -> Dial;
  env_wait_login : Z -> World -> World * bool;
  env_get : nat -> Z -> World -> World * Result json
}.

(** *** Field updates *)

Definition with_api (f : Session -> Session) (w : World) : World :=
  mkWorld (f (api w)) (store w) (sockets w) (calls w).

Definition with_store (st : list Promise) (w : World) : World :=
  mkWorld (api w) st (sockets w) (calls w).

Definition with_sockets (ss : list Socket) (w : World) : World :=
  mkWorld (api w) (store w) ss (calls w).

Definition set_state (x : State) (a : Session) : Session :=
  mkSession (logged_in_marker a) (heartbeat_marker a) (userid a) (username a)
    (password a) (account_type a) (country a) (settings a) x (ws a) (seq a)
    (cmd_promises a).

Definition set_ws (x : option nat) (a : Session) : Session :=
  mkSession (logged_in_marker a) (heartbeat_marker a) (userid a) (username a)
    (password a) (account_type a) (country a) (settings a) (state a) x (seq a)
    (cmd_promises a).

Definition set_seq (x : nat) (a : Session) : Session :=
  mkSession (logged_in_marker a) (heartbeat_marker a) (userid a) (username a)
    (password a) (account_type a) (country a) (settings a) (state a) (ws a) x
    (cmd_promises a).

Definition set_cmd_promises (x : gmap nat nat) (a : Session) : Session :=
  mkSession (logged_in_marker a) (heartbeat_marker a) (userid a) (username a)
    (password a) (account_type a) (country a) (settings a) (state a) (ws a)
    (seq a) x.

Definition set_settings (x : option Settings) (a : Session) : Session :=
  mkSession (logged_in_marker a) (heartbeat_marker a) (userid a) (username a)
    (password a) (account_type a) (country a) x (state a) (ws a) (seq a)
    (cmd_promises a).

Definition set_logged_in_marker (x : bool) (a : Session) : Session :=
  mkSession x (heartbeat_marker a) (userid a) (username a)
    (password a) (account_type a) (country a) (settings a) (state a) (ws a)
    (seq a) (cmd_promises a).

Definition set_heartbeat_marker (x : bool) (a : Session) : Session :=
  mkSession (logged_in_marker a) x (userid a) (username a)
    (password a) (account_type a) (country a) (settings a) (state a) (ws a)
    (seq a) (cmd_promises a).

Definition set_credentials (u p : option string) (a : Session) : Session :=
  mkSession (logged_in_marker a) (heartbeat_marker a) (userid a) u p
    (account_type a) (country a) (settings a) (state a) (ws a) (seq a)
    (cmd_promises a).

(** Lines 147-169. *)
Definition init (settings : option Settings) : Session :=
  mkSession false false None None None None None settings INIT None 0 ∅.

(** Lines 171-173. *)
Definition is_logged_in (a : Session) : bool := State_eqb (state a) CONNECTED.

(** *** Socket operations *)

(** [ws.send(frame)]: raises the socket's current fault, else records the
    frame. *)
Definition ws_send (h : nat) (m : Msg) (w : World) : World * Result unit :=
  match sockets w !! h with
  | Some s =>
      match sock_fault s with
      | Some e => (w, Raise e)
      | None =>
          (with_sockets
             (<[h := mkSocket (sock_url s) None (sock_sent s ++ [m])
                              (sock_closed s)]> (sockets w)) w,
           Return tt)
      end
  | None => (w, Raise (OtherError "AttributeError"))
  end.

(** [ws.close()]. *)
Definition ws_close (h : nat) (w : World) : World :=
  match sockets w !! h with
  | Some s =>
      with_sockets
        (<[h := mkSocket (sock_url s) (sock_fault s) (sock_sent s) true]>
           (sockets w)) w
  | None => w
  end.

(** *** Connection life cycle *)

(** Lines 221-253.  [original_ws] is the socket whose [closed] handler asks
    for the teardown, when the call comes from one. *)
Definition disconnect (clear_settings : bool) (original_ws : option nat)
    (w : World) : World :=
  let self := api w in
  match ws self with
  | None => w
  | Some h =>
      if State_eqb (state self) INIT then w
      else if State_eqb (state self) DISCONNECTING
              || State_eqb (state self) DISCONNECTED then w
      else if match original_ws with
              | Some o => negb (Nat.eqb h o)
              | None => false
              end then w
      else
        let clear_settings :=
          if State_eqb (state self) CONNECTING then true else clear_settings in
        let w := with_api (set_state DISCONNECTING) w in
        let w := ws_close h w in
        let w := with_api (set_ws None) w in
        let w := with_api (set_logged_in_marker false) w in
        let w := with_api (set_seq 0) w in
        let w := with_api (set_cmd_promises ∅) w in
        let w := if clear_settings then with_api (set_settings None) w else w in
        with_api (set_state DISCONNECTED) w
  end.

(** Lines 255-258. *)
Definition shutdown (w : World) : World :=
  with_api (set_heartbeat_marker true) (disconnect false None w).

(** Truth value of a string attribute: [None] and [""] are false. *)
Definition truthy (s : option string) : bool :=
  match s with
  | Some (String _ _) => true
  | _ => false
  end.

(** Lines 302-426.  The HTTP exchange with the login page and the endpoint
    resolver is [env_login]; a failed exchange surfaces as the exception the
    scraping code runs into after [early_exit], whose result is dropped. *)
Definition auth (E : Env) (user pass : string) (w : World)
  : World * Result bool :=
  if negb (truthy (Some user) && truthy (Some pass)) then (w, Raise AssertionError)
  else
    let w := if truthy (username (api w)) then w
             else with_api (set_credentials (Some user) (Some pass)) w in
    match env_login E user pass with
    | Return cfg => (with_api (set_settings (Some cfg)) w, Return true)
    | Raise e => (w, Raise e)
    end.

(** Lines 175-209. *)
Definition connect (E : Env) (user pass : string) (timeout : Z) (w : World)
  : World * Result bool :=
  let st := state (api w) in
  if State_eqb st CONNECTED || State_eqb st CONNECTING then (w, Return true)
  else if State_eqb st DISCONNECTING then (w, Return false)
  else
    let w := with_api (set_state CONNECTING) w in
    let '(w, authed) :=
      match settings (api w) with
      | Some _ => (w, Return true)
      | None => auth E user pass w
      end in
    match authed with
    | Raise e => (w, Raise e)
    | Return false => (w, Return false)
    | Return true =>
        let w := with_api (set_credentials (Some user) (Some pass)) w in
        if negb (State_eqb (state (api w)) CONNECTING) then (w, Return false)
        else
          match settings (api w) with
          | None => (w, Raise (OtherError "TypeError"))
          | Some cfg =>
              let h := length (sockets w) in
              match env_dial E (wss cfg) with
              | DialConstructorRaises => (w, Return false)
              | DialConnectRaises fault =>
                  let w := with_sockets
                             (sockets w ++ [mkSocket (wss cfg) (Some fault) [] false]) w in
                  (with_api (set_ws (Some h)) w, Return false)
              | DialOk =>
                  let w := with_sockets
                             (sockets w ++ [mkSocket (wss cfg) None [] false]) w in
                  let w := with_api (set_ws (Some h)) w in
                  let '(w, signalled) := env_wait_login E timeout w in
                  if negb signalled then (disconnect false None w, Return false)
                  else (w, Return (is_logged_in (api w)))
              end
          end
    end.

(** *** Command dispatcher *)

(** Lines 981-1012.  The result is the promise handed to the caller, or the
    exception of a [send] that the [except] clause does not name. *)
Definition send_command (name : string) (args : option (list json))
    (callback : option nat) (w : World) : World * Result nat :=
  let '(st, promise) := new_promise (store w) in
  let w := with_store st w in
  let msg := mkMsg name (pretty (seq (api w))) (default [] args) in
  match ws (api w) with
  | None =>
      let '(st, rejected) := Promise_rejected SpotifyDisconnectedError (store w) in
      (with_store st w, Return rejected)
  | Some h =>
      if State_eqb (state (api w)) DISCONNECTED then
        let '(st, rejected) := Promise_rejected SpotifyDisconnectedError (store w) in
        (with_store st w, Return rejected)
      else
        let pid := seq (api w) in
        let w := match callback with
                 | Some f => with_store (fst (addCallback promise (Call f) (store w))) w
                 | None => w
                 end in
        let w := with_api (fun a => set_cmd_promises (<[pid := promise]> (cmd_promises a)) a) w in
        let w := with_api (fun a => set_seq (S (seq a)) a) w in
        match ws_send h msg w with
        | (w, Return _) => (w, Return promise)
        | (w, Raise SSLError) | (w, Raise StreamClosed) =>
            (* [promise.rejected(...)]: the static factory, result dropped *)
            let '(st, _) := Promise_rejected SpotifyDisconnectedError (store w) in
            (with_store st w, Return promise)
        | (w, Raise e) => (w, Raise e)
        end
  end.

(** What [wrap_request] hands back: the promise in callback mode, the decoded
    reply in synchronous mode. *)
Inductive Reply : Type :=
  | ReplyPromise (p : nat)
  | ReplyValue (v : json).

(** [promise.done(callback)]: an already fulfilled promise calls back at
    once, which is logged in [calls]. *)
Definition done (p : nat) (f : nat) (w : World) : World :=
  match addCallback p (Call f) (store w) with
  | (st, Some v) => mkWorld (api w) st (sockets w) (calls w ++ [(f, v)])
  | (st, None) => with_store st w
  end.

(** How one synchronous attempt (lines 1027-1030) ends: [send_command]
    raised, or [promise.get] returned or raised. *)
Inductive Attempt : Type :=
  | SendRaised (e : Exn)
  | GetReturned (v : json)
  | GetRaised (e : Exn).

(** Lines 1027 and 1030: [send_command(...).then(transform)] and the wait
    [promise.get(timeout)], whose outcome the environment decides. *)
Definition attempt (E : Env) (command : string) (args : option (list json))
    (transform : option (json -> Result json)) (timeout : Z) (w : World)
  : World * Attempt :=
  match send_command command args None w with
  | (w, Raise e) => (w, SendRaised e)
  | (w, Return p0) =>
      let '(st, promise) := then_ transform p0 (store w) in
      match env_get E promise timeout (with_store st w) with
      | (w, Return v) => (w, GetReturned v)
      | (w, Raise e) => (w, GetRaised e)
      end
  end.

(** Lines 1026-1038: the retry loop, [n] iterations left.  Next to the
    outcome it reports [sends], the number of [send_command] calls made.
    An exception of [send_command] itself is raised outside the [try] and
    leaves the loop at once. *)
Fixpoint wrap_request_for (E : Env) (command : string) (args : option (list json))
    (transform : option (json -> Result json)) (timeout : Z)
    (n : nat) (last_exception : option Exn) (sends : nat) (w : World)
  : World * nat * Result Reply :=
  match n with
  | O =>
      (* [raise last_exception or SpotifyTimeoutError()] *)
      (w, sends, Raise (default SpotifyTimeoutError last_exception))
  | S n' =>
      match attempt E command args transform timeout w with
      | (w, SendRaised e) => (w, S sends, Raise e)
      | (w, GetReturned v) => (w, S sends, Return (ReplyValue v))
      | (w, GetRaised e) =>
          if is_disconnected e then (w, S sends, Raise e)
          else if is_command_error e then (w, S sends, Raise e)
          else wrap_request_for E command args transform timeout n'
                 (Some e) (S sends) w
      end
  end.

(** Lines 1014-1038. *)
Definition wrap_request (E : Env) (command : string) (args : option (list json))
    (callback : option nat) (transform : option (json -> Result json))
    (retries : Z) (timeout : Z) (w : World) : World * nat * Result Reply :=
  if negb (retries >=? 1) then (w, 0%nat, Raise AssertionError)
  else
    match callback with
    | Some f =>
        match send_command command args None w with
        | (w, Raise e) => (w, 1%nat, Raise e)
        | (w, Return p0) =>
            let '(st, promise) := then_ transform p0 (store w) in
            let w := done promise f (with_store st w) in
            (w, 1%nat, Return (ReplyPromise promise))
        end
    | None =>
        wrap_request_for E command args transform timeout
          (Z.to_nat retries) None 0%nat w
    end.

(** *** Availability resolver *)

(** A [metadata_pb2.Restriction]: optional string fields read as [""] when
    unset, [HasField] tells the two apart. *)
Record Restriction : Type := mkRestriction {
  catalogue : list Z;
  countries_allowed : option string;
  countries_forbidden : option string
}.

(** A [metadata_pb2.Track], as far as the resolver reads it. *)
#[warnings="-register-all"]
Inductive Track : Type :=
  mkTrack (gid : string) (restriction : list Restriction)
          (alternative : list Track).

Definition gid (t : Track) : string :=
  match t with mkTrack g _ _ => g end.
Definition restriction (t : Track) : list Restriction :=
  match t with mkTrack _ r _ => r end.
Definition alternative (t : Track) : list Track :=
  match t with mkTrack _ _ a => a end.

(** [c in countries], for a [c] that may be [None]. *)
Definition country_in (c : option string) (countries : list string) : bool :=
  match c with
  | Some x => existsb (String.eqb x) countries
  | None => false
  end.

(** Lines 503-507. *)
Definition account_type_map (key : option string) : Result Z :=
  match key with
  | Some k =>
      if String.eqb k "premium" then Return 1
      else if String.eqb k "unlimited" then Return 1
      else if String.eqb k "free" then Return 0
      else Raise KeyError
  | None => Raise KeyError
  end.

(** Lines 489-500: one pass of the loop body up to the override; returns the
    two running lists and the flags [allowed], [forbidden]. *)
Definition eval_restriction (self : Session) (country : option string)
    (allowed_countries forbidden_countries : list string) (r : Restriction)
  : list string * list string * bool * bool :=
  let allowed_str := default "" (countries_allowed r) in
  let allowed_countries := allowed_countries ++ two_char_chunks allowed_str in
  let forbidden_str := default "" (countries_forbidden r) in
  let forbidden_countries := forbidden_countries ++ two_char_chunks forbidden_str in
  let allowed := negb (bool_decide (is_Some (countries_allowed r)))
                 || country_in country allowed_countries in
  let forbidden := country_in (SpotifyAPI.country self) forbidden_countries
                   && (0 <? length forbidden_countries)%nat in
  if country_in country allowed_countries && country_in country forbidden_countries
  then (allowed_countries, forbidden_countries, true, false)
  else (allowed_countries, forbidden_countries, allowed, forbidden).

(** Lines 488-522: the loop over [track.restriction], leaving at the first
    rule that makes the track available. *)
Fixpoint is_track_available_for (self : Session) (country : option string)
    (allowed_countries forbidden_countries : list string)
    (rules : list Restriction) : Result bool :=
  match rules with
  | [] => Return false
  | r :: rules' =>
      let '(allowed_countries, forbidden_countries, allowed, forbidden) :=
        eval_restriction self country allowed_countries forbidden_countries r in
      bind (account_type_map (account_type self)) (fun code =>
      let applicable := existsb (Z.eqb code) (catalogue r) in
      let available := allowed && negb forbidden && applicable in
      if available then Return true
      else is_track_available_for self country allowed_countries
             forbidden_countries rules')
  end.

(** Lines 483-529 (the two log lines are left out). *)
Definition is_track_available (self : Session) (track : Track)
    (country : option string) : Result bool :=
  is_track_available_for self country [] [] (restriction track).

(** Lines 536-539; [None] is the [False] the source returns. *)
Fixpoint recurse_alternatives_for (self : Session) (country : option string)
    (alternatives : list Track) : Result (option Track) :=
  match alternatives with
  | [] => Return None
  | alt :: rest =>
      bind (is_track_available self alt country) (fun ok =>
      if ok then Return (Some alt)
      else recurse_alternatives_for self country rest)
  end.

(** Lines 531-539. *)
Definition recurse_alternatives (self : Session) (track : Track)
    (country : option string) : Result (option Track) :=
  let country := match country with
                 | None => SpotifyAPI.country self
                 | Some c => Some c
                 end in
  bind (is_track_available self track country) (fun ok =>
  if ok then Return (Some track)
  else recurse_alternatives_for self country (alternative track)).

(** *** Inbound dispatch *)

(** A frame after [json.loads], for frames whose ["error"] member is a list
    of integers and whose ["message"] member is a list: each member is
    [None] when the key is absent. *)
Record Packet : Type := mkPacket {
  pk_error : option (list Z);
  pk_message : option (list json);
  pk_id : option json;
  pk_result : option json
}.

(** The key that [pid in self.cmd_promises] looks up for a JSON value: the
    table is keyed by non-negative integers, a boolean hashes like 0 or 1, a
    string or [null] equals no key, a list cannot be hashed. *)
Definition pid_of (j : json) : Result (option nat) :=
  match j with
  | JNum z => Return (if 0 <=? z then Some (Z.to_nat z) else None)
  | JBool b => Return (Some (if b then 1%nat else 0%nat))
  | JStr _ | JNull => Return None
  | JArr _ => Raise (OtherError "TypeError")
  end.

(** [promise.fulfill] and [promise.reject] on the shared store. *)
Definition settle_promise (p : nat) (o : Settlement) (w : World) : World :=
  let '(st, log) := settle (length (store w)) p o (store w) (calls w) in
  mkWorld (api w) st (sockets w) log.

(** [self.cmd_promises.pop(pid)]. *)
Definition pop_promise (pid : nat) (w : World) : World :=
  with_api (fun a => set_cmd_promises (delete pid (cmd_promises a)) a) w.

(** Lines 1159-1164. *)
Definition major_err (major : Z) : option string :=
  if major =? 8 then Some "Rate request error"
  else if major =? 12 then Some "Track error"
  else if major =? 13 then Some "Hermes error"
  else if major =? 14 then Some "Hermes service error"
  else None.

(** Lines 1166-1171. *)
Definition minor_err (minor : Z) : option string :=
  if minor =? 1 then Some "failed to send to backend"
  else if minor =? 8 then Some "rate limited"
  else if minor =? 408 then Some "timeout"
  else if minor =? 429 then Some "too many requests"
  else None.

(** Lines 1173-1186. *)
Definition error_str (major minor : Z) : string :=
  let major_str := default ("unknown major (" +:+ pretty major +:+ ")") (major_err major) in
  let minor_str := default ("unknown minor (" +:+ pretty minor +:+ ")") (minor_err minor) in
  if minor =? 0 then major_str else major_str +:+ " - " +:+ minor_str.

(** Lines 1152-1195. *)
Definition handle_error (err : Packet) (w : World) : World * Result unit :=
  match pk_error err with
  | None => (w, Raise KeyError)
  | Some (major :: minor :: _) =>
      match pk_id err with
      | None => (w, Return tt)
      | Some j =>
          match pid_of j with
          | Raise e => (w, Raise e)
          | Return None => (w, Return tt)
          | Return (Some pid) =>
              match cmd_promises (api w) !! pid with
              | Some promise =>
                  (settle_promise promise
                     (Rejected (SpotifyCommandError major minor (error_str major minor)))
                     (pop_promise pid w),
                   Return tt)
              | None => (w, Return tt)
              end
          end
      end
  | Some _ => (w, Raise IndexError)
  end.

(** One entry of the table of lines 1072-1133. *)
Inductive PingKey : Type :=
  | KeyXor (idx : nat) (xor : Z)
  | KeyMap (idx : nat) (map : list Z).

(** Lines 1072-1133. *)
Definition ping_key : list PingKey :=
  [ KeyXor 8 146;
    KeyMap 14
        [54; 55; 56; 56; 57; 58; 59; 60; 61; 62; 62; 63; 64; 65; 66; 67; 68; 68;
         69; 70; 71; 72; 73; 73; 74; 75; 76; 77; 78; 79; 79; 80; 81; 82; 83; 84;
         85; 85; 86; 87; 88; 89; 90; 90; 91; 92; 93; 94; 95; 96; 96; 97; 98; 99;
         100; 101; 102; 102; 103; 104; 105; 106; 107; 107; 0; 0; 1; 2; 3; 4; 5;
         5; 6; 7; 8; 9; 10; 11; 11; 12; 13; 14; 15; 16; 17; 17; 18; 19; 20; 21;
         22; 22; 23; 24; 25; 26; 27; 28; 28; 29; 30; 31; 32; 33; 34; 34; 35; 36;
         37; 38; 39; 39; 40; 41; 42; 43; 44; 45; 45; 46; 47; 48; 49; 50; 51; 51;
         52; 53; 163; 164; 164; 165; 166; 167; 168; 169; 170; 170; 171; 172;
         173; 174; 175; 175; 176; 177; 178; 179; 180; 181; 181; 182; 183; 184;
         185; 186; 187; 187; 188; 189; 190; 191; 192; 192; 193; 194; 195; 196;
         197; 198; 198; 199; 200; 201; 202; 203; 204; 204; 205; 206; 207; 208;
         209; 209; 210; 211; 212; 213; 214; 215; 215; 216; 108; 109; 110; 111;
         112; 113; 113; 114; 115; 116; 117; 118; 119; 119; 120; 121; 122; 123;
         124; 124; 125; 126; 127; 128; 129; 130; 130; 131; 132; 133; 134; 135;
         136; 136; 137; 138; 139; 140; 141; 141; 142; 143; 144; 145; 146; 147;
         147; 148; 149; 150; 151; 152; 153; 153; 154; 155; 156; 157; 158; 158;
         159; 160; 161; 162];
    KeyXor 17 173;
    KeyXor 5 4;
    KeyXor 10 178;
    KeyXor 6 200;
    KeyXor 4 124;
    KeyMap 3
        [232; 231; 230; 229; 236; 235; 234; 233; 224; 223; 222; 221; 228; 227;
         226; 225; 248; 247; 246; 245; 252; 251; 250; 249; 240; 239; 238; 237;
         244; 243; 242; 241; 200; 199; 198; 197; 204; 203; 202; 201; 192; 191;
         190; 189; 196; 195; 194; 193; 216; 215; 214; 213; 220; 219; 218; 217;
         208; 207; 206; 205; 212; 211; 210; 209; 29; 29; 29; 29; 30; 29; 29; 29;
         28; 28; 28; 28; 29; 29; 29; 28; 31; 31; 31; 30; 31; 31; 31; 31; 30; 30;
         30; 30; 30; 30; 30; 30; 26; 26; 26; 26; 26; 26; 26; 26; 25; 255; 254;
         253; 26; 25; 25; 25; 28; 27; 27; 27; 28; 28; 28; 28; 27; 27; 27; 26;
         27; 27; 27; 27; 36; 35; 35; 35; 36; 36; 36; 36; 35; 35; 35; 34; 35; 35;
         35; 35; 37; 37; 37; 37; 38; 37; 37; 37; 36; 36; 36; 36; 37; 37; 37; 36;
         32; 32; 32; 32; 33; 33; 33; 32; 32; 31; 31; 31; 32; 32; 32; 32; 34; 34;
         34; 34; 34; 34; 34; 34; 33; 33; 33; 33; 34; 33; 33; 33; 42; 42; 42; 42;
         42; 42; 42; 42; 41; 41; 41; 41; 42; 41; 41; 41; 44; 43; 43; 43; 44; 44;
         44; 44; 43; 43; 43; 42; 43; 43; 43; 43; 39; 39; 39; 38; 39; 39; 39; 39;
         38; 38; 38; 38; 38; 38; 38; 38; 40; 40; 40; 40; 41; 41; 41; 40; 40; 39;
         39; 39; 40; 40; 40; 40];
    KeyMap 7
        [6; 5; 7; 7; 9; 8; 10; 9; 0; 0; 2; 1; 3; 2; 4; 4; 17; 16; 18; 18; 20;
         19; 21; 21; 11; 11; 13; 12; 14; 14; 16; 15; 28; 28; 30; 29; 31; 30; 32;
         32; 23; 22; 24; 23; 25; 25; 27; 26; 39; 39; 41; 40; 42; 42; 44; 43; 34;
         33; 35; 35; 37; 36; 38; 37; 51; 50; 52; 51; 53; 53; 55; 54; 45; 44; 46;
         46; 48; 47; 49; 49; 62; 61; 63; 63; 65; 64; 66; 65; 56; 56; 58; 57; 59;
         58; 60; 60; 73; 72; 74; 74; 76; 75; 77; 77; 67; 67; 69; 68; 70; 70; 72;
         71; 84; 84; 86; 85; 87; 86; 88; 88; 79; 78; 80; 79; 81; 81; 83; 82; 95;
         95; 97; 96; 98; 98; 100; 99; 90; 89; 91; 91; 93; 92; 94; 93; 107; 106;
         108; 107; 109; 109; 111; 110; 101; 100; 102; 102; 104; 103; 105; 105;
         118; 117; 119; 119; 121; 120; 122; 121; 112; 112; 114; 113; 115; 114;
         116; 116; 129; 128; 130; 130; 132; 131; 133; 133; 123; 123; 125; 124;
         126; 126; 128; 127; 140; 140; 142; 141; 143; 142; 144; 144; 135; 134;
         136; 135; 137; 137; 139; 138; 151; 151; 153; 152; 154; 154; 156; 155;
         146; 145; 147; 147; 149; 148; 150; 149; 163; 162; 164; 163; 165; 165;
         167; 166; 157; 156; 158; 158; 160; 159; 161; 161; 174; 173; 175; 175;
         177; 176; 178; 177; 168; 168; 170; 169; 171; 170; 172; 172];
    KeyMap 12
        [65; 68; 60; 63; 75; 78; 70; 73; 45; 47; 40; 42; 55; 57; 50; 52; 25; 27;
         20; 22; 35; 37; 30; 32; 5; 7; 0; 2; 15; 17; 10; 12; 146; 148; 141; 143;
         156; 158; 151; 153; 126; 128; 120; 123; 136; 138; 131; 133; 105; 108;
         100; 103; 115; 118; 110; 113; 85; 88; 80; 83; 95; 98; 90; 93; 226; 229;
         221; 224; 236; 239; 231; 234; 206; 209; 201; 204; 216; 219; 211; 214;
         186; 189; 181; 183; 196; 199; 191; 194; 166; 168; 161; 163; 176; 178;
         171; 173; 30; 30; 30; 30; 31; 32; 31; 31; 28; 28; 28; 28; 29; 29; 29;
         29; 26; 26; 26; 26; 27; 27; 27; 27; 246; 249; 241; 244; 25; 25; 252;
         254; 38; 39; 38; 38; 39; 40; 39; 39; 36; 37; 36; 36; 37; 38; 37; 37;
         34; 35; 34; 34; 35; 36; 35; 35; 32; 33; 32; 32; 33; 34; 33; 33; 46; 47;
         46; 46; 47; 48; 47; 47; 44; 45; 44; 44; 45; 46; 45; 45; 42; 43; 42; 42;
         43; 44; 43; 43; 40; 41; 40; 40; 41; 42; 41; 41; 54; 55; 54; 54; 55; 56;
         55; 55; 52; 53; 52; 52; 53; 54; 53; 53; 50; 51; 50; 50; 51; 52; 51; 51;
         48; 49; 48; 48; 49; 50; 49; 49; 63; 63; 62; 62; 64; 64; 63; 63; 60; 61;
         60; 60; 61; 62; 61; 61; 58; 59; 58; 58; 59; 60; 59; 59; 56; 57; 56; 56;
         57; 58; 57; 57] ].

(** Lines 1136-1144: the loop over the key. *)
Fixpoint ping_output (key : list PingKey) (input : list Z) : Result (list Z) :=
  match key with
  | [] => Return []
  | k :: key' =>
      bind (match k with
            | KeyXor idx xor =>
                bind (getitem input idx) (fun val => Return (Z.lxor val xor))
            | KeyMap idx arr =>
                bind (getitem input idx) (fun val => getitem_z arr val)
            end) (fun out =>
      bind (ping_output key' input) (fun outs => Return (out :: outs)))
  end.

(** Line 1134: [[int(x) for x in payload.split(" ")]]. *)
Fixpoint ping_input (tokens : list string) : Result (list Z) :=
  match tokens with
  | [] => Return []
  | t :: rest =>
      bind (int10 t) (fun x =>
      bind (ping_input rest) (fun xs => Return (x :: xs)))
  end.

(** Lines 1134-1145: the text of the pong for the text of a ping. *)
Definition pong_of (payload : string) : Result string :=
  bind (ping_input (split " " payload)) (fun input =>
  bind (ping_output ping_key input) (fun output =>
  Return (join " " (List.map pretty output)))).

(** Lines 1059-1150.  [work_callback] names the method of line 1056. *)
Definition handle_message (E : Env) (work_callback : nat) (msg : list json)
    (w : World) : World * Result unit :=
  match msg with
  | [] => (w, Raise IndexError)
  | JStr cmd :: rest =>
      if String.eqb cmd "do_work" then
        match rest with
        | JStr _ :: _ =>
            match wrap_request E "sp/work_done" (Some [JStr "v1"])
                    (Some work_callback) None 3 10 w with
            | (w, _, Return _) => (w, Return tt)
            | (w, _, Raise e) => (w, Raise e)
            end
        | _ => (w, Raise (OtherError "TypeError"))
        end
      else if String.eqb cmd "ping_flash2" then
        match rest with
        | [] => (w, Raise IndexError)
        | JStr payload :: _ =>
            if (20 <=? String.length payload)%nat then
              match pong_of payload with
              | Raise e => (w, Raise e)
              | Return pong =>
                  match send_command "sp/pong_flash2" (Some [JStr pong]) None w with
                  | (w, Return _) => (w, Return tt)
                  | (w, Raise e) => (w, Raise e)
                  end
              end
            else (w, Return tt)
        | JArr items :: _ =>
            if (20 <=? length items)%nat
            then (w, Raise (OtherError "AttributeError"))
            else (w, Return tt)
        | _ :: _ => (w, Raise (OtherError "TypeError"))
        end
      else (w, Return tt)
  | _ :: _ => (w, Return tt)
  end.

(** Lines 1040-1054. *)
Definition recv_packet (E : Env) (work_callback : nat) (packet : Packet)
    (w : World) : World * Result unit :=
  match pk_error packet with
  | Some _ => handle_error packet w
  | None =>
      match pk_message packet with
      | Some msg => handle_message E work_callback msg w
      | None =>
          match pk_id packet with
          | None => (w, Return tt)
          | Some j =>
              match pid_of j with
              | Raise e => (w, Raise e)
              | Return None => (w, Return tt)
              | Return (Some pid) =>
                  match cmd_promises (api w) !! pid with
                  | Some promise =>
                      let w := pop_promise pid w in
                      match pk_result packet with
                      | Some result =>
                          (settle_promise promise (Fulfilled result) w, Return tt)
                      | None => (w, Raise KeyError)
                      end
                  | None => (w, Return tt)
                  end
              end
          end
      end
  end.

(** *** Login handshake *)

(** The reply to [sp/user_info], as far as line 444-446 read it. *)
Record UserInfo : Type := mkUserInfo {
  ui_user : string;
  ui_country : string;
  ui_catalogue : string
}.

Definition set_userdata (resp : UserInfo) (a : Session) : Session :=
  mkSession (logged_in_marker a) (heartbeat_marker a) (Some (ui_user resp))
    (username a) (password a) (Some (ui_catalogue resp)) (Some (ui_country resp))
    (settings a) (state a) (ws a) (seq a) (cmd_promises a).

(** Lines 930-931. *)
Definition user_info_request (E : Env) (callback : option nat) (w : World)
  : World * nat * Result Reply :=
  wrap_request E "sp/user_info" (Some []) callback None 3 10 w.

(** Lines 436-438; [populate] names the method of line 440. *)
Definition login_callback (E : Env) (populate : nat) (w : World)
  : World * nat * Result Reply :=
  user_info_request E (Some populate) w.

(** Lines 440-468.  The session record does not carry [heartbeat_thread]
    and [login_callback_func]; they come in as arguments, and the result
    says whether a heartbeat thread runs afterwards. *)
Definition populate_userdata_callback (heartbeat_thread : bool)
    (login_callback_func : option nat) (resp : UserInfo) (w : World)
  : World * Result bool :=
  match send_command "sp/log"
          (Some [JNum 41; JNum 1; JNum 0; JNum 0; JNum 0; JNum 0]) None w with
  | (w, Raise e) => (w, Raise e)
  | (w, Return _) =>
      let w := with_api (set_userdata resp) w in
      let magic := String.eqb (b64encode (ui_catalogue resp)) "cHJlbWl1bQ==" in
      let '(w, heartbeat_thread) :=
        if magic then (with_api (set_state CONNECTED) w, true)
        else (disconnect false None w, heartbeat_thread) in
      let w := with_api (set_logged_in_marker true) w in
      let w := match login_callback_func with
               | Some f =>
                   mkWorld (api w) (store w) (sockets w)
                     (calls w ++ [(f, JBool (is_logged_in (api w)))])
               | None => w
               end in
      (w, Return heartbeat_thread)
  end.

(** *** Track requests *)

(** What a request method hands back besides the reply of [wrap_request]:
    [False], or nothing after the callback was told. *)
Inductive Answer : Type :=
  | AnswerFalse
  | AnswerNone
  | Answered (r : Reply).

(** Lines 470-481. *)
Definition track_uri (E : Env) (track : Track) (callback : option nat)
    (prefix : string) (w : World) : World * nat * Result Answer :=
  match recurse_alternatives (api w) track None with
  | Raise e => (w, 0%nat, Raise e)
  | Return None =>
      match callback with
      | Some f =>
          (mkWorld (api w) (store w) (sockets w) (calls w ++ [(f, JBool false)]),
           0%nat, Return AnswerNone)
      | None => (w, 0%nat, Return AnswerFalse)
      end
  | Return (Some track) =>
      let args := [JStr prefix; JStr (gid2id (gid track))] in
      match wrap_request E "sp/track_uri" (Some args) callback None 3 10 w with
      | (w, sends, Return r) => (w, sends, Return (Answered r))
      | (w, sends, Raise e) => (w, sends, Raise e)
      end
  end.

(** Lines 960-965: the event number, [None] for the [return False] of the
    last branch.  The second test is [event == "unpause" or "continue" or
    "play"], an [or] over a comparison and two string constants. *)
Definition track_event_number (event : string) : option Z :=
  if String.eqb event "pause" || String.eqb event "stop" then Some 4
  else if String.eqb event "unpause" || truthy (Some "continue")
          || truthy (Some "play") then Some 3
  else None.

(** Lines 959-966. *)
Definition send_track_event (E : Env) (lid : string) (event : string)
    (ms_where : Z) (callback : option nat) (w : World)
  : World * nat * Result Answer :=
  match track_event_number event with
  | None => (w, 0%nat, Return AnswerFalse)
  | Some ev_n =>
      match wrap_request E "sp/track_event"
              (Some [JStr lid; JNum ev_n; JNum ms_where]) callback None 3 10 w with
      | (w, sends, Return r) => (w, sends, Return (Answered r))
      | (w, sends, Raise e) => (w, sends, Raise e)
      end
  end.

(** *** Search *)

(** The [query_type] argument: one name or a list of names. *)
Inductive QueryType : Type :=
  | OneType (name : string)
  | TypeList (names : list string).

(** Lines 913-919. *)
Definition search_types (name : string) : option Z :=
  if String.eqb name "tracks" then Some 1
  else if String.eqb name "albums" then Some 2
  else if String.eqb name "artists" then Some 4
  else if String.eqb name "playlists" then Some 8
  else None.

Definition search_type_names : list string :=
  ["tracks"; "albums"; "artists"; "playlists"].

(** [reduce(operator.or_, codes)]: [TypeError] on an empty list. *)
Definition reduce_or (codes : list Z) : Result Z :=
  match codes with
  | [] => Raise (OtherError "TypeError")
  | c :: rest => Return (fold_left Z.lor rest c)
  end.

(** Lines 909-926: the argument list of the search command. *)
Definition search_args (query : string) (query_type : QueryType)
    (max_results offset : Z) : Result (list json) :=
  let max_results := if max_results >? 50 then 50 else max_results in
  let query_type :=
    match query_type with
    | OneType name => if String.eqb name "all" then TypeList search_type_names
                      else OneType name
    | TypeList names => TypeList names
    end in
  let names := match query_type with
               | OneType name => [name]
               | TypeList names => names
               end in
  bind (reduce_or (omap search_types names)) (fun mask =>
  Return [JStr query; JNum mask; JNum max_results; JNum offset]).

(** Lines 908-928. *)
Definition search_request (E : Env) (query : string) (query_type : QueryType)
    (max_results offset : Z) (callback : option nat) (w : World)
  : World * nat * Result Reply :=
  match search_args query query_type max_results offset with
  | Raise e => (w, 0%nat, Raise e)
  | Return args => wrap_request E "sp/search" (Some args) callback None 3 10 w
  end.

End SpotifyAPI.

Import Py SpotifyUtil Aplus SpotifyAPI.

(* ===================================================================== *)
(** ** Vocabulary of the statements *)
(* ===================================================================== *)

(** Every character of [s] satisfies [ok]. *)
Fixpoint all_chars (ok : ascii -> bool) (s : string) : bool :=
  match s with
  | EmptyString => true
  | String c s' => ok c && all_chars ok s'
  end.

(** [s] consists of hexadecimal digits. *)
Definition hexadecimal (s : string) : bool :=
  all_chars (fun c => bool_decide (is_Some (hex_digit_value c))) s.

(** [s] consists of characters of the base-62 alphabet. *)
Definition base62_string (s : string) : bool :=
  all_chars (fun c => bool_decide (is_Some (index_from 0%nat c base62))) s.

(** [s] consists of lower-case hexadecimal digits, the form [gid2id] and
    [uri2id] produce. *)
Definition lower_hexadecimal (s : string) : bool :=
  all_chars (fun c => bool_decide (is_Some (index_from 0%nat c hexdigits))) s.

(** [s] holds no colon. *)
Definition colon_free (s : string) : bool :=
  all_chars (fun c => negb (Ascii.eqb c ":")) s.

(** Value of a digit list read most significant digit first, after [acc]. *)
Definition eval_digits (b : Z) (acc : Z) (ds : list Z) : Z :=
  fold_left (fun a d => a * b + d) ds acc.

(** Value of a base-62 string read after [acc]; a foreign character counts
    as zero. *)
Fixpoint decode62 (acc : Z) (s : string) : Z :=
  match s with
  | EmptyString => acc
  | String c s' =>
      decode62 (acc * 62 + Z.of_nat (default 0%nat (index_from 0%nat c base62))) s'
  end.

(** [s.lstrip('0')]. *)
Fixpoint lstrip0 (s : string) : string :=
  match s with
  | String c s' => if Ascii.eqb c "0" then lstrip0 s' else s
  | EmptyString => EmptyString
  end.

(** A Python integer in normal form: non-negative here, and a [long] exactly
    when its value is above [maxint]. *)
Definition py_normal (maxint : Z) (v : py_int) : Prop :=
  0 <= py_val v /\ py_is_long v = (maxint <? py_val v).

(** [uri2id] after [id2uri]. *)
Definition round_trip (maxint : Z) (uritype h : string) : Result string :=
  bind (id2uri uritype h) (uri2id maxint).

(** The answer of the code's own check: [is_track_available] returns [True]
    for [c] and [region], without an exception. *)
Definition check_passes (self : Session) (region : option string) (c : Track) : bool :=
  match is_track_available self c region with
  | Return ok => ok
  | Raise _ => false
  end.

(** The region [recurse_alternatives] works with (line 532). *)
Definition region_of (self : Session) (country : option string) : option string :=
  match country with
  | None => SpotifyAPI.country self
  | Some c => Some c
  end.

(** The allow-list and the forbid-list of one rule: the two-letter codes of
    its two strings. *)
Definition allow_list (r : Restriction) : list string :=
  two_char_chunks (default "" (countries_allowed r)).

Definition forbid_list (r : Restriction) : list string :=
  two_char_chunks (default "" (countries_forbidden r)).

(** The rule of section 4.5 of the specification, in the specification's
    words, to be compared with [is_track_available]: for one rule,
    [allowed] is "no allow-list present, or the region is on the
    allow-list", [forbidden] is "the region is on the forbid-list and the
    forbid-list is not empty", a region on both lists is allowed and not
    forbidden, [applicable] is "the code of the account tier is in the
    rule's catalogue set", and the rule yields
    [allowed /\ ~ forbidden /\ applicable]. *)
Definition spec_rule_usable (code : Z) (region : option string) (r : Restriction)
  : bool :=
  let both := country_in region (allow_list r) && country_in region (forbid_list r) in
  let allowed :=
    if both then true
    else negb (bool_decide (is_Some (countries_allowed r)))
         || country_in region (allow_list r) in
  let forbidden :=
    if both then false
    else country_in region (forbid_list r) && (0 <? length (forbid_list r))%nat in
  let applicable := existsb (Z.eqb code) (catalogue r) in
  allowed && negb forbidden && applicable.

(** Section 4.5: a candidate is usable if any of its rules yields
    [allowed /\ ~ forbidden /\ applicable]. *)
Definition spec_usable (code : Z) (region : option string) (c : Track) : bool :=
  existsb (spec_rule_usable code region) (restriction c).

(** Section 4.5: [r] is the first usable candidate of [candidates], or the
    sentinel when none is usable. *)
Definition first_usable (code : Z) (region : option string)
    (candidates : list Track) (r : option Track) : Prop :=
  match r with
  | Some c =>
      exists pre post,
        candidates = pre ++ c :: post
        /\ spec_usable code region c = true
        /\ Forall (fun x => spec_usable code region x = false) pre
  | None => Forall (fun x => spec_usable code region x = false) candidates
  end.

(** The rules of a candidate name [region] steadily: a rule's allow-list
    names the region whenever the allow-list of the rule before it does, and
    so for the forbid-lists.  [seen_allow] and [seen_forbid] say whether the
    lists before the first rule name it. *)
Fixpoint lists_settled (region : option string) (seen_allow seen_forbid : bool)
    (rules : list Restriction) : bool :=
  match rules with
  | [] => true
  | r :: rules' =>
      implb seen_allow (country_in region (allow_list r))
      && implb seen_forbid (country_in region (forbid_list r))
      && lists_settled region (country_in region (allow_list r))
           (country_in region (forbid_list r)) rules'
  end.

Definition settled (region : option string) (c : Track) : bool :=
  lists_settled region false false (restriction c).

(** [n] synchronous attempts in a row, the first from [w], each sent and each
    failing in [promise.get] with an exception that is neither a
    disconnection nor a command error; [errs] lists the exceptions in order
    and [w'] is the world after the last attempt. *)
Inductive GenericFailures (E : Env) (command : string)
    (args : option (list json)) (transform : option (json -> Result json))
    (timeout : Z) : nat -> World -> list Exn -> World -> Prop :=
  | GenericFailures_nil w :
      GenericFailures E command args transform timeout 0 w [] w
  | GenericFailures_cons n w w1 e errs w' :
      attempt E command args transform timeout w = (w1, GetRaised e) ->
      is_disconnected e = false ->
      is_command_error e = false ->
      GenericFailures E command args transform timeout n w1 errs w' ->
      GenericFailures E command args transform timeout (S n) w (e :: errs) w'.

(** Big-endian value of a byte string read after [acc]. *)
Fixpoint bytes_value (acc : Z) (data : string) : Z :=
  match data with
  | EmptyString => acc
  | String c rest => bytes_value (acc * 256 + ord c) rest
  end.

(** The canonical form of a plain resource and of a user's playlist. *)
Definition canonical (uritype id : string) : string :=
  "spotify:" +:+ uritype +:+ ":" +:+ id.

Definition playlist_uri (user id : string) : string :=
  "spotify:user:" +:+ user +:+ ":playlist:" +:+ id.

(** Every sequence number of the pending table was handed out already. *)
Definition pending_below_seq (a : Session) : Prop :=
  forall pid p, cmd_promises a !! pid = Some p -> (pid < seq a)%nat.

(** The teardown takes effect: a live socket [h], state [CONNECTING] or
    [CONNECTED], and no foreign [original_ws]. *)
Definition teardown_due (original_ws : option nat) (w : World) (h : nat) : Prop :=
  ws (api w) = Some h
  /\ (state (api w) = CONNECTING \/ state (api w) = CONNECTED)
  /\ (original_ws = None \/ original_ws = Some h).

(** The world in which [connect] waits for the login: state [CONNECTING],
    the credentials stored, one more socket, which is the current one. *)
Definition dialled (user pass : string) (cfg : Settings) (w : World) : World :=
  mkWorld
    (mkSession (logged_in_marker (api w)) (heartbeat_marker (api w))
       (userid (api w)) (Some user) (Some pass) (account_type (api w))
       (country (api w)) (Some cfg) CONNECTING (Some (length (sockets w)))
       (seq (api w)) (cmd_promises (api w)))
    (store w) (sockets w ++ [mkSocket (wss cfg) None [] false]) (calls w).

(** The promise cell [send_command] makes at line 982, after line 1000. *)
Definition fresh_cell (callback : option nat) : Promise :=
  mkPromise Pending (match callback with Some f => [Call f] | None => [] end) [].

(** The session after lines 1002-1003: the promise [p] registered under the
    current sequence number, the counter advanced. *)
Definition registered (p : nat) (a : Session) : Session :=
  set_seq (S (seq a)) (set_cmd_promises (<[seq a := p]> (cmd_promises a)) a).

(** The session can write: a live socket [h] that takes frames, outside
    state [DISCONNECTED]. *)
Definition writable (w : World) (h : nat) : Prop :=
  ws (api w) = Some h
  /\ state (api w) <> DISCONNECTED
  /\ exists s, sockets w !! h = Some s /\ sock_fault s = None.

(** No reply arrives while the caller waits: every [promise.get] leaves the
    world as it is and raises a generic exception. *)
Definition never_answers (E : Env) : Prop :=
  forall p timeout w,
    exists e, env_get E p timeout w = (w, Raise e)
              /\ is_disconnected e = false /\ is_command_error e = false.

(** The reply [{"id": pid, "result": result}] and the error frame
    [{"error": [major, minor], "id": pid}] for sequence number [pid]. *)
Definition result_frame (pid : nat) (result : json) : Packet :=
  mkPacket None None (Some (JNum (Z.of_nat pid))) (Some result).

Definition error_frame (major minor : Z) (pid : nat) : Packet :=
  mkPacket (Some [major; minor]) None (Some (JNum (Z.of_nat pid))) None.

(** What the callback given to [send_command] adds to the record of calls
    when the promise is fulfilled with [v]. *)
Definition called_back (callback : option nat) (v : json) : list (nat * json) :=
  match callback with
  | Some f => [(f, v)]
  | None => []
  end.

(** An entry of the ping key reads one of the first 18 numbers of the ping;
    its constant is a byte, its table has 256 entries that are bytes. *)
Definition key_entry_ok (k : PingKey) : bool :=
  match k with
  | KeyXor idx xor => (idx <? 18)%nat && (0 <=? xor) && (xor <? 256)
  | KeyMap idx arr =>
      (idx <? 18)%nat && (length arr =? 256)%nat
      && forallb (fun x => (0 <=? x) && (x <? 256)) arr
  end.

(** All numbers of [l] are bytes. *)
Definition bytes_only (l : list Z) : Prop := Forall (fun x => 0 <= x < 256) l.

(** The type names a search asks for (lines 921-922): ["all"] stands for the
    four known names, a single name for itself. *)
Definition requested (query_type : QueryType) : list string :=
  match query_type with
  | OneType name => if String.eqb name "all" then search_type_names else [name]
  | TypeList names => names
  end.

(** The codes of the search types: one bit each. *)
Definition search_code (c : Z) : Prop := c = 1 \/ c = 2 \/ c = 4 \/ c = 8.

(** No rule of [c] is for the catalogue [code]. *)
Definition outside_catalogue (code : Z) (c : Track) : Prop :=
  Forall (fun r => ~ In code (catalogue r)) (restriction c).

(** *** Sample sessions used by the examples *)

Definition sample_settings : Settings :=
  mkSettings "wss://ap.example.net/" "0:user:secret".

(** A socket on which two frames went out without trouble. *)
Definition healthy_socket : Socket :=
  mkSocket "wss://ap.example.net/" None
    [mkMsg "sp/echo" "0" []; mkMsg "sp/echo" "1" []] false.

(** A logged-in premium session with two commands in flight: sequence
    numbers 0 and 1 wait on the promises 0 and 1. *)
Definition busy_session : Session :=
  mkSession true false (Some "user") (Some "user") (Some "secret")
    (Some "premium") (Some "US") (Some sample_settings) CONNECTED (Some 0%nat)
    2 (<[1%nat := 1%nat]> (<[0%nat := 0%nat]> ∅)).

Definition busy_world : World :=
  mkWorld busy_session
    [mkPromise Pending [] []; mkPromise Pending [] []] [healthy_socket] [].

(** A connected session whose socket has been closed by the peer: the next
    [send] raises [StreamClosed]. *)
Definition broken_pipe_world : World :=
  mkWorld
    (mkSession true false (Some "user") (Some "user") (Some "secret")
       (Some "premium") (Some "US") (Some sample_settings) CONNECTED
       (Some 0%nat) 0 ∅)
    [] [mkSocket "wss://ap.example.net/" (Some StreamClosed) [] false] [].

(** A session that never connected. *)
Definition offline_world : World :=
  mkWorld (init None) [] [] [].

(** An environment in which no reply ever arrives in time: every wait on a
    promise ends with the generic error of a promise that is still pending,
    tagged with the promise it was called on. *)
Definition silent_env : Env :=
  mkEnv (fun _ _ => Raise (OtherError "ConnectionError"))
        (fun _ => DialOk)
        (fun _ w => (w, false))
        (fun p _ w => (w, Raise (OtherError ("ValueError:" +:+ pretty p)))).

(** An environment whose server rejects every command as rate limited. *)
Definition rejecting_env : Env :=
  mkEnv (fun _ _ => Raise (OtherError "ConnectionError"))
        (fun _ => DialOk)
        (fun _ w => (w, false))
        (fun _ _ w => (w, Raise (SpotifyCommandError 8 8 "Rate request error - rate limited"))).

(** A fresh session that was given cached settings. *)
Definition idle_world : World :=
  mkWorld (init (Some sample_settings)) [] [] [].

(** An environment in which no access point can be reached. *)
Definition unreachable_env : Env :=
  mkEnv (fun _ _ => Raise (OtherError "ConnectionError"))
        (fun _ => DialConnectRaises (OtherError "socket.error"))
        (fun _ w => (w, false))
        (fun _ _ w => (w, Raise (OtherError "ValueError"))).

(** An environment whose server misses the first wait on the sample session
    (promise 3) and answers every later one with an empty result. *)
Definition second_try_env : Env :=
  mkEnv (fun _ _ => Raise (OtherError "ConnectionError"))
        (fun _ => DialOk)
        (fun _ w => (w, false))
        (fun p _ w => if Nat.eqb p 3 then (w, Raise (OtherError "ValueError"))
                      else (w, Return (JArr []))).

(** *** Sample tracks used by the examples *)

(** The session of [busy_world]: a premium account registered in ["US"]. *)
Definition us_premium : Session := busy_session.

(** One rule for the premium catalogue that forbids ["DE"] and names no
    allowed countries. *)
Definition forbid_DE : Restriction := mkRestriction [1] None (Some "DE").

(** One rule for the premium catalogue that allows ["DE"] only. *)
Definition allow_DE : Restriction := mkRestriction [1] (Some "DE") None.

(** One rule for the free catalogue that allows ["US"] only. *)
Definition free_US : Restriction := mkRestriction [0] (Some "US") None.

(** ["US"] in both lists of one rule. *)
Definition both_US : Restriction := mkRestriction [1] (Some "USDE") (Some "GBUS").

Definition track_forbid_DE : Track := mkTrack "gid-a" [forbid_DE] [].
Definition track_allow_DE : Track := mkTrack "gid-b" [allow_DE] [].
Definition track_free_then_DE : Track := mkTrack "gid-c" [free_US; allow_DE] [].

(** A primary track that is not for premium accounts anywhere, with an
    unusable and then a usable alternative for ["DE"]. *)
Definition track_with_alternatives : Track :=
  mkTrack "gid-d" [free_US]
    [mkTrack "gid-e" [free_US] []; track_allow_DE; track_forbid_DE].

(** A track for the free catalogue only, with an alternative that carries no
    rule at all. *)
Definition track_free_only : Track :=
  mkTrack "gid-f" [free_US] [mkTrack "gid-g" [] []].

(** Evaluate the bit operations on numerals in the goal. *)
Ltac eval_bits :=
  repeat match goal with
         | |- context [Z.lor ?a ?b] =>
             let v := eval vm_compute in (Z.lor a b) in
             change (Z.lor a b) with v
         | |- context [Z.land ?a ?b] =>
             let v := eval vm_compute in (Z.land a b) in
             change (Z.land a b) with v
         end.

(* ===================================================================== *)
(** ** Identifier codec *)
(* ===================================================================== *)

Section Strings.

Lemma append_nil_l (t : string) : "" +:+ t = t.
Proof. reflexivity. Qed.

Lemma append_cons (c : ascii) (s t : string) : String c s +:+ t = String c (s +:+ t).
Proof. reflexivity. Qed.

Lemma length_append (s t : string) :
  String.length (s +:+ t) = (String.length s + String.length t)%nat.
Proof. induction s as [|c s IH]; simpl; [reflexivity | now rewrite IH]. Qed.

Lemma length_replicate_char n c : String.length (replicate_char n c) = n.
Proof. induction n as [|n IH]; simpl; [reflexivity | now rewrite IH]. Qed.

Lemma length_digits_string alphabet ds :
  String.length (digits_string alphabet ds) = length ds.
Proof.
  unfold digits_string. induction ds as [|d ds IH]; simpl; [reflexivity | now rewrite IH].
Qed.

Lemma length_rjust width fill s :
  (String.length s <= width)%nat -> String.length (rjust width fill s) = width.
Proof.
  intros Hle. unfold rjust. rewrite length_append, length_replicate_char. lia.
Qed.

Lemma all_chars_append ok s t :
  all_chars ok (s +:+ t) = all_chars ok s && all_chars ok t.
Proof.
  induction s as [|c s IH]; simpl; [reflexivity|].
  now rewrite IH, andb_assoc.
Qed.

Lemma all_chars_replicate ok n c : ok c = true -> all_chars ok (replicate_char n c) = true.
Proof. intros Hc. induction n as [|n IH]; simpl; [reflexivity | now rewrite Hc, IH]. Qed.

End Strings.

Section Radix.

Variable b : Z.
Hypothesis b_gt_1 : 1 < b.

(** The loop emits at most [n] digits for a value below [b ^ n]. *)
Lemma radix_loop_length fuel : forall v res (n : nat),
  0 <= v < b ^ Z.of_nat n ->
  (length (radix_loop b fuel v res) <= n + length res)%nat.
Proof.
  induction fuel as [|fuel IH]; intros v res n Hv; simpl; [lia|].
  destruct (Z.gtb_spec v 0) as [Hpos|Hz]; [|lia].
  destruct n as [|n].
  - simpl in Hv. lia.
  - assert (Hdiv : 0 <= v / b < b ^ Z.of_nat n).
    { split; [apply Z.div_pos; lia|].
      apply Z.div_lt_upper_bound; [lia|].
      replace (Z.of_nat (S n)) with (Z.succ (Z.of_nat n)) in Hv by lia.
      rewrite Z.pow_succ_r in Hv by lia. lia. }
    specialize (IH (v / b) (v mod b :: res) n Hdiv). simpl in IH. lia.
Qed.

(** Every digit the loop emits lies in [0, b). *)
Lemma radix_loop_range fuel : forall v res,
  Forall (fun d => 0 <= d < b) res ->
  Forall (fun d => 0 <= d < b) (radix_loop b fuel v res).
Proof.
  induction fuel as [|fuel IH]; intros v res Hres; simpl; [exact Hres|].
  destruct (v >? 0); [|exact Hres].
  apply IH. constructor; [apply Z.mod_pos_bound; lia | exact Hres].
Qed.

(** With [fuel] above the binary length of [v] the loop stops because [v]
    reached zero, not because the fuel ran out: more fuel changes nothing. *)
Lemma radix_loop_fuel fuel : forall v res (extra : nat),
  0 <= v < 2 ^ Z.of_nat fuel ->
  radix_loop b (fuel + extra) v res = radix_loop b fuel v res.
Proof.
  induction fuel as [|fuel IH]; intros v res extra Hv.
  - simpl in Hv. assert (v = 0) by lia. subst v.
    destruct extra; reflexivity.
  - simpl. destruct (Z.gtb_spec v 0) as [Hpos|Hz]; [|reflexivity].
    apply IH. split; [apply Z.div_pos; lia|].
    apply Z.div_lt_upper_bound; [lia|].
    replace (Z.of_nat (S fuel)) with (Z.succ (Z.of_nat fuel)) in Hv by lia.
    rewrite Z.pow_succ_r in Hv by lia. nia.
Qed.

Lemma digits_fuel_enough v : 0 <= v -> v < 2 ^ Z.of_nat (digits_fuel v).
Proof.
  intros Hv. unfold digits_fuel.
  destruct (Z.eq_dec v 0) as [->|Hne]; [reflexivity|].
  rewrite Nat2Z.inj_succ, Z2Nat.id by apply Z.log2_nonneg.
  apply Z.log2_spec. lia.
Qed.

(** [radix_digits] is the loop run to completion. *)
Lemma radix_digits_total v (extra : nat) :
  0 <= v ->
  radix_loop b (digits_fuel v + extra) v [] = radix_digits b v.
Proof.
  intros Hv. apply radix_loop_fuel. split; [exact Hv | now apply digits_fuel_enough].
Qed.

Lemma radix_digits_length v (n : nat) :
  0 <= v < b ^ Z.of_nat n -> (length (radix_digits b v) <= n)%nat.
Proof.
  intros Hv. unfold radix_digits.
  pose proof (radix_loop_length (digits_fuel v) v [] n Hv) as H.
  cbn [length] in H. now rewrite Nat.add_0_r in H.
Qed.

Lemma radix_digits_range v : Forall (fun d => 0 <= d < b) (radix_digits b v).
Proof. apply radix_loop_range. constructor. Qed.

End Radix.

Section Hexadecimal.

Lemma hex_digit_value_range c d : hex_digit_value c = Some d -> 0 <= d < 16.
Proof.
  unfold hex_digit_value.
  repeat match goal with
         | |- context [if ?t then _ else _] => destruct t eqn:?
         end; intros [= <-]; lia.
Qed.

(** Reading [s] after an accumulator [acc] appends [length s] digits. *)
Lemma int16_from_bounds s : forall acc v,
  0 <= acc -> int16_from acc s = Some v ->
  acc * 16 ^ Z.of_nat (String.length s) <= v
    < (acc + 1) * 16 ^ Z.of_nat (String.length s).
Proof.
  induction s as [|c s IH]; intros acc v Hacc Hread.
  - simpl in *. injection Hread as <-. lia.
  - cbn [int16_from] in Hread.
    destruct (hex_digit_value c) as [d|] eqn:Hd; [|discriminate].
    apply hex_digit_value_range in Hd.
    apply IH in Hread; [|lia].
    cbn [String.length]. rewrite Nat2Z.inj_succ, Z.pow_succ_r by lia.
    set (P := 16 ^ Z.of_nat (String.length s)) in *.
    assert (0 < P) by (apply Z.pow_pos_nonneg; lia).
    nia.
Qed.

Lemma int16_from_defined s : forall acc,
  hexadecimal s = true -> exists v, int16_from acc s = Some v.
Proof.
  induction s as [|c s IH]; intros acc Hs.
  - now exists acc.
  - unfold hexadecimal in Hs. cbn [all_chars] in Hs.
    apply andb_true_iff in Hs as [Hc Hs].
    apply bool_decide_eq_true in Hc as [d Hd].
    cbn [int16_from]. rewrite Hd. now apply IH.
Qed.

(** [int(h, 16)] of a 32-digit string is a 128-bit value. *)
Lemma int16_hex32 h :
  String.length h = 32%nat -> hexadecimal h = true ->
  exists v, int16 h = Return v /\ 0 <= v < 16 ^ 32.
Proof.
  intros Hlen Hhex.
  destruct (int16_from_defined h 0 Hhex) as [v Hv].
  exists v. split.
  - unfold int16. destruct h; [discriminate Hlen|]. now rewrite Hv.
  - apply int16_from_bounds in Hv; [|lia]. rewrite Hlen in Hv.
    change (Z.of_nat 32) with 32 in Hv. lia.
Qed.

End Hexadecimal.

Section Id2uri.

Lemma base62_digit_char d :
  0 <= d < 62 ->
  bool_decide (is_Some (index_from 0%nat (digit_char base62 d) base62)) = true.
Proof.
  intros Hd. unfold digit_char.
  assert (Hn : (Z.to_nat d < 62)%nat) by lia.
  generalize dependent (Z.to_nat d). intros n Hn.
  do 62 (destruct n as [|n]; [reflexivity|]). lia.
Qed.

Lemma base62_digits_string ds :
  Forall (fun d => 0 <= d < 62) ds -> base62_string (digits_string base62 ds) = true.
Proof.
  unfold base62_string, digits_string.
  induction 1 as [|d ds Hd _ IH]; [reflexivity|].
  cbn [map string_of_list_ascii all_chars].
  now rewrite base62_digit_char, IH.
Qed.

(** The spec's example: a small value is padded with zeros. *)
Example id2uri_one :
  id2uri "track" "00000000000000000000000000000001"
  = Return "spotify:track:0000000000000000000001".
Proof. reflexivity. Qed.

Example id2uri_max :
  id2uri "track" "ffffffffffffffffffffffffffffffff"
  = Return "spotify:track:7N42dgm5tFLK9N8MT7fHC7".
Proof. reflexivity. Qed.

(** C8.  For every 32-character hexadecimal input, whatever its magnitude,
    [id2uri] succeeds and its result is the prefix ["spotify:<type>:"]
    followed by exactly 22 characters, all of the base-62 alphabet. *)
Theorem id2uri_padding (uritype h : string) :
  String.length h = 32%nat ->
  hexadecimal h = true ->
  exists id,
    id2uri uritype h = Return ("spotify:" +:+ uritype +:+ ":" +:+ id)
    /\ String.length id = 22%nat
    /\ base62_string id = true.
Proof.
  intros Hlen Hhex.
  destruct (int16_hex32 h Hlen Hhex) as (v & Hv & Hrange).
  exists (rjust 22 "0" (digits_string base62 (radix_digits 62 v))).
  split; [|split].
  - unfold id2uri. now rewrite Hv.
  - apply length_rjust. rewrite length_digits_string.
    apply radix_digits_length; [lia|].
    change (Z.of_nat 22) with 22. assert (16 ^ 32 < 62 ^ 22) by reflexivity. lia.
  - unfold rjust, base62_string. rewrite all_chars_append.
    apply andb_true_iff. split.
    + now apply all_chars_replicate.
    + apply base62_digits_string, radix_digits_range. lia.
Qed.

(** The padding theorem at work on a small album identifier. *)
Lemma id2uri_padding_witness :
  exists id,
    id2uri "album" "0000000000000000000000000000002a"
      = Return ("spotify:" +:+ "album" +:+ ":" +:+ id)
    /\ String.length id = 22%nat
    /\ base62_string id = true.
Proof.
  apply (id2uri_padding "album" "0000000000000000000000000000002a"); reflexivity.
Defined.

End Id2uri.

(* ===================================================================== *)
(** ** Connection life cycle *)
(* ===================================================================== *)

Section Lifecycle.

Lemma State_eqb_eq a b : State_eqb a b = true <-> a = b.
Proof. destruct a, b; simpl; split; intro H; try reflexivity; discriminate H. Qed.

(** C9.  In state [CONNECTED] or [CONNECTING], [connect] answers [True] and
    leaves the whole world as it was: no socket is opened and the state is
    kept.  In state [DISCONNECTING] it answers [False] at once, again without
    touching anything. *)
Theorem connect_idempotent (E : Env) (user pass : string) (timeout : Z) (w : World) :
  state (api w) = CONNECTED \/ state (api w) = CONNECTING
    \/ state (api w) = DISCONNECTING ->
  connect E user pass timeout w
  = (w, Return (negb (State_eqb (state (api w)) DISCONNECTING)))
  /\ sockets (fst (connect E user pass timeout w)) = sockets w
  /\ state (api (fst (connect E user pass timeout w))) = state (api w).
Proof.
  intros Hst.
  assert (Heq : connect E user pass timeout w
                = (w, Return (negb (State_eqb (state (api w)) DISCONNECTING)))).
  { unfold connect. destruct Hst as [-> | [-> | ->]]; reflexivity. }
  rewrite Heq. repeat split.
Qed.

(** The theorem at work on the connected sample session. *)
Lemma connect_idempotent_witness :
  connect silent_env "user" "secret" 10 busy_world
  = (busy_world, Return (negb (State_eqb (state (api busy_world)) DISCONNECTING)))
  /\ sockets (fst (connect silent_env "user" "secret" 10 busy_world))
     = sockets busy_world
  /\ state (api (fst (connect silent_env "user" "secret" 10 busy_world)))
     = state (api busy_world).
Proof.
  apply (connect_idempotent silent_env "user" "secret" 10 busy_world).
  left. reflexivity.
Defined.

(** A second [connect] on a connected session, run on the sample data. *)
Example connect_connected :
  connect silent_env "user" "secret" 10 busy_world = (busy_world, Return true).
Proof. reflexivity. Qed.

(** C1, as amended.  When [disconnect] takes effect (a live socket, state
    [CONNECTING] or [CONNECTED], and no foreign [original_ws]) the pending
    table is empty and the sequence counter is zero afterwards, the session
    is [DISCONNECTED] without a socket; the promise store is left exactly as
    it was, so no pending future is settled. *)
Theorem disconnect_drops_pending (clear_settings : bool)
    (original_ws : option nat) (w : World) (h : nat) :
  ws (api w) = Some h ->
  state (api w) = CONNECTING \/ state (api w) = CONNECTED ->
  original_ws = None \/ original_ws = Some h ->
  cmd_promises (api (disconnect clear_settings original_ws w)) = ∅
  /\ seq (api (disconnect clear_settings original_ws w)) = 0%nat
  /\ state (api (disconnect clear_settings original_ws w)) = DISCONNECTED
  /\ ws (api (disconnect clear_settings original_ws w)) = None
  /\ store (disconnect clear_settings original_ws w) = store w.
Proof.
  intros Hws Hst Horig. unfold disconnect. rewrite Hws.
  assert (Hguard : match original_ws with
                   | Some o => negb (Nat.eqb h o)
                   | None => false
                   end = false).
  { destruct Horig as [-> | ->]; [reflexivity|]. now rewrite Nat.eqb_refl. }
  rewrite Hguard.
  assert (Hclose : forall v, store (ws_close h v) = store v).
  { intros v. unfold ws_close. now destruct (sockets v !! h). }
  destruct Hst as [-> | ->]; cbn [State_eqb orb];
    destruct clear_settings; cbn; rewrite ?Hclose; repeat split; reflexivity.
Qed.

(** The theorem at work on the sample session with two commands in flight. *)
Lemma disconnect_drops_pending_witness :
  cmd_promises (api (disconnect false None busy_world)) = ∅
  /\ seq (api (disconnect false None busy_world)) = 0%nat
  /\ state (api (disconnect false None busy_world)) = DISCONNECTED
  /\ ws (api (disconnect false None busy_world)) = None
  /\ store (disconnect false None busy_world) = store busy_world.
Proof.
  apply (disconnect_drops_pending false None busy_world 0%nat).
  - reflexivity.
  - right. reflexivity.
  - left. reflexivity.
Defined.

(** C1 fails as stated: with two commands in flight, [disconnect] empties the
    table but both futures are still pending afterwards; none carries a
    [SpotifyDisconnectedError]. *)
Lemma disconnect_rejects_pending_counterexample :
  ~ (forall pid p,
       cmd_promises (api busy_world) !! pid = Some p ->
       state_of (store (disconnect false None busy_world)) p
       = Some (Rejected SpotifyDisconnectedError)).
Proof.
  intros Hclaim. specialize (Hclaim 0%nat 0%nat eq_refl). discriminate Hclaim.
Qed.

Example disconnect_busy_world :
  cmd_promises (api (disconnect false None busy_world)) = ∅
  /\ state_of (store (disconnect false None busy_world)) 0%nat = Some Pending
  /\ state_of (store (disconnect false None busy_world)) 1%nat = Some Pending.
Proof. repeat split. Qed.

(** The guards of [disconnect]: a close event of a socket that is no longer
    the current one changes nothing. *)
Lemma disconnect_stale_socket clear_settings (w : World) (h o : nat) :
  ws (api w) = Some h -> h <> o -> disconnect clear_settings (Some o) w = w.
Proof.
  intros Hws Hne. unfold disconnect. rewrite Hws.
  apply Nat.eqb_neq in Hne. rewrite Hne.
  destruct (State_eqb (state (api w)) INIT); [reflexivity|].
  now destruct (State_eqb (state (api w)) DISCONNECTING
                || State_eqb (state (api w)) DISCONNECTED).
Qed.

End Lifecycle.

(* ===================================================================== *)
(** ** Command dispatcher *)
(* ===================================================================== *)

Section Dispatcher.

Lemma state_of_last (st : list Promise) (c : Promise) :
  state_of (st ++ [c]) (length st) = Some (p_state c).
Proof. unfold state_of. now rewrite list_lookup_middle. Qed.

Lemma state_of_older (st : list Promise) (c : Promise) (p : nat) :
  (p < length st)%nat -> state_of (st ++ [c]) p = state_of st p.
Proof. intros Hp. unfold state_of. now rewrite lookup_app_l. Qed.

(** The early exit of [send_command] (lines 994-995), as an equation. *)
Lemma send_command_offline_eq name args callback (w : World) :
  ws (api w) = None \/ state (api w) = DISCONNECTED ->
  send_command name args callback w
  = (with_store ((store w ++ [mkPromise Pending [] []])
                   ++ [mkPromise (Rejected SpotifyDisconnectedError) [] []]) w,
     Return (S (length (store w)))).
Proof.
  intros Hoff. unfold send_command, new_promise, Promise_rejected.
  cbn [with_store api store].
  assert (Hlen : length (store w ++ [mkPromise Pending [] []]) = S (length (store w))).
  { rewrite length_app. cbn. lia. }
  destruct (ws (api w)) as [h|] eqn:Hws.
  - destruct Hoff as [Hoff | ->]; [discriminate Hoff|].
    cbn [State_eqb]. unfold with_store. cbn. now rewrite Hlen.
  - unfold with_store. cbn. now rewrite Hlen.
Qed.

(** C10.  Without a live socket, or in state [DISCONNECTED], [send_command]
    returns a promise that is already rejected with
    [SpotifyDisconnectedError]; the sequence counter, the pending table (the
    whole session object, in fact) and the sockets are unchanged, and so is
    every promise that existed before the call. *)
Theorem send_command_offline name args callback (w : World) :
  ws (api w) = None \/ state (api w) = DISCONNECTED ->
  exists p w',
    send_command name args callback w = (w', Return p)
    /\ state_of (store w') p = Some (Rejected SpotifyDisconnectedError)
    /\ seq (api w') = seq (api w)
    /\ cmd_promises (api w') = cmd_promises (api w)
    /\ api w' = api w
    /\ sockets w' = sockets w
    /\ (forall q, (q < length (store w))%nat ->
                  state_of (store w') q = state_of (store w) q).
Proof.
  intros Hoff. eexists _, _. split; [now apply send_command_offline_eq|].
  cbn [with_store api store sockets].
  assert (Hlen : length (store w ++ [mkPromise Pending [] []]) = S (length (store w))).
  { rewrite length_app. cbn. lia. }
  repeat split.
  - rewrite <- Hlen. apply state_of_last.
  - intros q Hq. rewrite state_of_older by lia. now apply state_of_older.
Qed.

(** The theorem at work on a session that never connected. *)
Lemma send_command_offline_witness :
  exists p w',
    send_command "sp/echo" None None offline_world = (w', Return p)
    /\ state_of (store w') p = Some (Rejected SpotifyDisconnectedError)
    /\ seq (api w') = seq (api offline_world)
    /\ cmd_promises (api w') = cmd_promises (api offline_world)
    /\ api w' = api offline_world
    /\ sockets w' = sockets offline_world
    /\ (forall q, (q < length (store offline_world))%nat ->
                  state_of (store w') q = state_of (store offline_world) q).
Proof.
  apply (send_command_offline "sp/echo" None None offline_world).
  left. reflexivity.
Defined.

(** The registering path of [send_command] (lines 997-1005) on a socket
    whose [send] raises [SSLError] or [StreamClosed]: the handler of lines
    1008-1010 runs, and the promise handed back is the one made at line 982,
    which nothing has settled. *)
Lemma send_command_write_failure name args (w : World) (h : nat) (s : Socket) (e : Exn) :
  ws (api w) = Some h ->
  state (api w) <> DISCONNECTED ->
  sockets w !! h = Some s ->
  sock_fault s = Some e ->
  e = SSLError \/ e = StreamClosed ->
  exists w',
    send_command name args None w = (w', Return (length (store w)))
    /\ state_of (store w') (length (store w)) = Some Pending
    /\ cmd_promises (api w') !! seq (api w) = Some (length (store w))
    /\ seq (api w') = S (seq (api w)).
Proof.
  intros Hws Hst Hsock Hfault He.
  unfold send_command, new_promise, Promise_rejected.
  cbn [with_store api store]. rewrite Hws.
  destruct (State_eqb (state (api w)) DISCONNECTED) eqn:Hd.
  { apply State_eqb_eq in Hd. contradiction. }
  unfold ws_send. cbn [with_api with_store sockets api store].
  rewrite Hsock, Hfault.
  destruct He as [-> | ->]; eexists; (split; [reflexivity|]);
    cbn [with_store with_api api store set_seq set_cmd_promises seq cmd_promises];
    (repeat split;
     [ rewrite state_of_older by (rewrite length_app; cbn; lia);
       apply state_of_last
     | apply lookup_insert_eq ]).
Qed.

(** C3, on a connected session whose socket was closed by the peer: the
    write raises [StreamClosed], yet the future handed back stays pending,
    keeps its entry in the pending table and has used up sequence number 0.
    The only rejected promise in the store is the throw-away one that
    [promise.rejected(...)] built. *)
Theorem send_command_stream_closed :
  exists w',
    send_command "sp/echo" None None broken_pipe_world = (w', Return 0%nat)
    /\ state_of (store w') 0%nat = Some Pending
    /\ state_of (store w') 0%nat <> Some (Rejected SpotifyDisconnectedError)
    /\ state_of (store w') 1%nat = Some (Rejected SpotifyDisconnectedError)
    /\ cmd_promises (api w') !! 0%nat = Some 0%nat
    /\ seq (api w') = 1%nat.
Proof.
  eexists. split; [reflexivity|]. repeat split. discriminate.
Qed.

End Dispatcher.

Section Retry.

Variable E : Env.
Variable command : string.
Variable args : option (list json).
Variable transform : option (json -> Result json).
Variable timeout : Z.

(** After [n] attempts that all fail generically the loop has made [n] more
    sends and raises the exception of the last attempt (or what it held
    before, when [n = 0]). *)
Lemma wrap_request_for_generic n : forall w errs w' last_exception sends,
  GenericFailures E command args transform timeout n w errs w' ->
  wrap_request_for E command args transform timeout n last_exception sends w
  = (w', (sends + n)%nat,
     Raise (default SpotifyTimeoutError
              (match last errs with Some e => Some e | None => last_exception end))).
Proof.
  induction n as [|n IH]; intros w errs w' last_exception sends Hrun;
    inversion Hrun as [|? ? w1 e errs' ? Hatt Hdis Hcmd Hrest]; subst.
  - cbn. now rewrite Nat.add_0_r.
  - cbn [wrap_request_for]. rewrite Hatt, Hdis, Hcmd.
    rewrite (IH w1 errs' w' (Some e) (S sends) Hrest).
    replace (S sends + n)%nat with (sends + S n)%nat by lia.
    destruct errs' as [|e' errs'']; [reflexivity|].
    rewrite last_cons_cons.
    destruct (last (e' :: errs'')) eqn:Hlast; [reflexivity|].
    apply last_None in Hlast. discriminate Hlast.
Qed.

Lemma GenericFailures_length n w errs w' :
  GenericFailures E command args transform timeout n w errs w' -> length errs = n.
Proof. induction 1; cbn; congruence. Qed.

(** C2, as amended.  With [retries = 3] and no callback, when each of the
    three attempts is sent and fails in [promise.get] with a generic
    exception, [wrap_request] makes exactly three [send_command] calls and
    then raises the exception of the third attempt. *)
Theorem wrap_request_retries_exhausted (w w' : World) (errs : list Exn) :
  GenericFailures E command args transform timeout 3 w errs w' ->
  exists e,
    last errs = Some e
    /\ wrap_request E command args None transform 3 timeout w
       = (w', 3%nat, Raise e).
Proof.
  intros Hrun.
  pose proof (GenericFailures_length _ _ _ _ Hrun) as Hlen.
  destruct (last errs) as [e|] eqn:Hlast.
  - exists e. split; [reflexivity|].
    unfold wrap_request. cbn [Z.geb Z.compare negb].
    change (Z.to_nat 3) with 3%nat.
    rewrite (wrap_request_for_generic 3 w errs w' None 0%nat Hrun).
    now rewrite Hlast.
  - apply last_None in Hlast. subst errs. discriminate Hlen.
Qed.

(** C6.  With a retry budget of at least one and no callback, when the first
    attempt fails in [promise.get] with a [SpotifyDisconnectedError] or a
    [SpotifyCommandError], [wrap_request] raises that very exception after a
    single [send_command] call. *)
Theorem wrap_request_no_retry (retries : Z) (w w' : World) (e : Exn) :
  1 <= retries ->
  attempt E command args transform timeout w = (w', GetRaised e) ->
  is_disconnected e || is_command_error e = true ->
  wrap_request E command args None transform retries timeout w
  = (w', 1%nat, Raise e).
Proof.
  intros Hretries Hatt Hkind. unfold wrap_request.
  destruct (Z.geb_spec retries 1) as [_|Hlt]; [|lia]. cbn [negb].
  destruct (Z.to_nat retries) as [|n] eqn:Hn; [lia|].
  cbn [wrap_request_for]. rewrite Hatt.
  destruct (is_disconnected e); [reflexivity|].
  cbn [orb] in Hkind. now rewrite Hkind.
Qed.

End Retry.

Section RetryExamples.

(** Three attempts on the sample session, none answered in time. *)
Lemma silent_run :
  exists w',
    GenericFailures silent_env "sp/echo" None None 10 3 busy_world
      [OtherError "ValueError:3"; OtherError "ValueError:5";
       OtherError "ValueError:7"] w'.
Proof.
  eexists.
  eapply GenericFailures_cons; [vm_compute; reflexivity | reflexivity | reflexivity |].
  eapply GenericFailures_cons; [vm_compute; reflexivity | reflexivity | reflexivity |].
  eapply GenericFailures_cons; [vm_compute; reflexivity | reflexivity | reflexivity |].
  apply GenericFailures_nil.
Defined.

(** The theorem at work on the silent run above. *)
Lemma wrap_request_retries_exhausted_witness :
  exists w' e,
    last [OtherError "ValueError:3"; OtherError "ValueError:5";
          OtherError "ValueError:7"] = Some e
    /\ wrap_request silent_env "sp/echo" None None None 3 10 busy_world
       = (w', 3%nat, Raise e).
Proof.
  destruct silent_run as [w' Hrun]. exists w'.
  exact (wrap_request_retries_exhausted silent_env "sp/echo" None None 10
           busy_world w' _ Hrun).
Defined.

(** C2 fails as stated: three generic failures in a row end in the last
    generic exception, not in [SpotifyTimeoutError]. *)
Lemma wrap_request_timeout_counterexample :
  (exists errs w',
     GenericFailures silent_env "sp/echo" None None 10 3 busy_world errs w')
  /\ snd (wrap_request silent_env "sp/echo" None None None 3 10 busy_world)
     = Raise (OtherError "ValueError:7")
  /\ snd (wrap_request silent_env "sp/echo" None None None 3 10 busy_world)
     <> Raise SpotifyTimeoutError.
Proof.
  split; [|split].
  - destruct silent_run as [w' Hrun]. eauto.
  - reflexivity.
  - discriminate.
Qed.

(** The theorem at work against a server that rejects every command. *)
Lemma wrap_request_no_retry_witness :
  exists w',
    wrap_request rejecting_env "sp/echo" None None None 3 10 busy_world
    = (w', 1%nat, Raise (SpotifyCommandError 8 8 "Rate request error - rate limited")).
Proof.
  eexists.
  apply (wrap_request_no_retry rejecting_env "sp/echo" None None 10 3 busy_world).
  - lia.
  - reflexivity.
  - reflexivity.
Defined.

(** The retry budget plays no part: the same call with ten retries. *)
Example wrap_request_command_error_10 :
  snd (fst (wrap_request rejecting_env "sp/echo" None None None 10 10 busy_world))
  = 1%nat.
Proof. reflexivity. Qed.

(** [retries = 0] trips the assertion of line 1015 before anything is sent. *)
Example wrap_request_zero_retries :
  wrap_request silent_env "sp/echo" None None None 0 10 busy_world
  = (busy_world, 0%nat, Raise AssertionError).
Proof. reflexivity. Qed.

End RetryExamples.

(* ===================================================================== *)
(** ** Availability resolver *)
(* ===================================================================== *)

Section Resolver.

(** The first rule of a track, queried for the session's own country, is
    evaluated as the three formulas say: [allowed] is "no allow-list, or the
    country is on it", [forbidden] is "the country is on the forbid-list,
    which is not empty", and a country on both lists is allowed and not
    forbidden. *)
Lemma eval_restriction_first_rule (self : Session) (r : Restriction) :
  let c := SpotifyAPI.country self in
  let A := two_char_chunks (default "" (countries_allowed r)) in
  let F := two_char_chunks (default "" (countries_forbidden r)) in
  eval_restriction self c [] [] r
  = (A, F,
     if country_in c A && country_in c F then true
     else negb (bool_decide (is_Some (countries_allowed r))) || country_in c A,
     if country_in c A && country_in c F then false
     else country_in c F && (0 <? length F)%nat).
Proof.
  cbn zeta. unfold eval_restriction. cbn [app].
  now destruct (country_in (SpotifyAPI.country self) _ && country_in _ _).
Qed.

(** The override of lines 498-500 on the spec's example: ["US"] on both
    lists of a rule. *)
Example eval_restriction_both_US :
  eval_restriction us_premium (Some "US") [] [] both_US
  = (["US"; "DE"], ["GB"; "US"], true, false).
Proof. reflexivity. Qed.

(** C5, on a session registered in ["US"] that asks about ["DE"]: the single
    rule forbids ["DE"], so the claim's [forbidden] is true; line 496 looks
    up the session's country instead of the queried one, computes
    [forbidden = False] and the track is reported available in ["DE"]. *)
Theorem eval_restriction_forbidden_uses_session_country :
  SpotifyAPI.country us_premium = Some "US"
  /\ country_in (Some "DE")
       (two_char_chunks (default "" (countries_forbidden forbid_DE))) = true
  /\ eval_restriction us_premium (Some "DE") [] [] forbid_DE
     = ([], ["DE"], true, false)
  /\ is_track_available us_premium track_forbid_DE (Some "DE") = Return true.
Proof. repeat split. Qed.

(** The running lists are not reset between rules either: the second rule of
    this track allows ["DE"] only, yet it is evaluated as allowing ["US"],
    which the first rule put on the list. *)
Example eval_restriction_accumulates :
  eval_restriction us_premium (Some "US") ["US"] [] allow_DE
  = (["US"; "DE"], [], true, false)
  /\ is_track_available us_premium track_free_then_DE (Some "US") = Return true
  /\ is_track_available us_premium track_allow_DE (Some "US") = Return false.
Proof. repeat split. Qed.

(** With a mapped account type the availability check never raises. *)
Lemma is_track_available_for_defined (self : Session) (code : Z) region rules :
  account_type_map (account_type self) = Return code ->
  forall A F, exists ok, is_track_available_for self region A F rules = Return ok.
Proof.
  intros Hmap. induction rules as [|r rules IH]; intros A F; cbn [is_track_available_for].
  - now exists false.
  - destruct (eval_restriction self region A F r) as [[[A' F'] allowed] forbidden].
    rewrite Hmap. cbn [bind].
    destruct (allowed && negb forbidden && existsb (Z.eqb code) (catalogue r));
      [now exists true | apply IH].
Qed.

Lemma is_track_available_usable (self : Session) (code : Z) region c :
  account_type_map (account_type self) = Return code ->
  is_track_available self c region = Return (check_passes self region c).
Proof.
  intros Hmap. unfold check_passes, is_track_available.
  destruct (is_track_available_for_defined self code region (restriction c) Hmap [] [])
    as [ok ->].
  reflexivity.
Qed.

(** The loop over the alternatives is a first-match search. *)
Lemma recurse_alternatives_for_find (self : Session) (code : Z) region alts :
  account_type_map (account_type self) = Return code ->
  recurse_alternatives_for self region alts = Return (find (check_passes self region) alts).
Proof.
  intros Hmap. induction alts as [|c alts IH]; [reflexivity|].
  cbn [recurse_alternatives_for find].
  rewrite (is_track_available_usable self code region c Hmap). cbn [bind].
  now destruct (check_passes self region c).
Qed.

Lemma recurse_alternatives_find (self : Session) (code : Z) track country :
  account_type_map (account_type self) = Return code ->
  recurse_alternatives self track country
  = Return (find (check_passes self (region_of self country)) (track :: alternative track)).
Proof.
  intros Hmap. unfold recurse_alternatives. fold (region_of self country).
  rewrite (is_track_available_usable self code _ track Hmap). cbn [bind find].
  destruct (check_passes self (region_of self country) track); [reflexivity|].
  now apply recurse_alternatives_for_find with code.
Qed.

(** What a first-match search returns. *)
Lemma find_first_match {A} (ok : A -> bool) (l : list A) :
  match find ok l with
  | Some c => exists pre post,
        l = pre ++ c :: post /\ ok c = true /\ Forall (fun x => ok x = false) pre
  | None => Forall (fun x => ok x = false) l
  end.
Proof.
  induction l as [|x l IH]; cbn [find]; [constructor|].
  destruct (ok x) eqn:Hx.
  - exists [], l. split; [reflexivity | split; [exact Hx | constructor]].
  - destruct (find ok l) as [c|].
    + destruct IH as (pre & post & -> & Hc & Hpre).
      exists (x :: pre), post.
      split; [reflexivity | split; [exact Hc | now constructor]].
    + now constructor.
Qed.

(** Whatever the region and the rules, the scan returns the first candidate
    that the code's own check lets pass. *)
Lemma recurse_alternatives_first_passing (self : Session) (code : Z)
    (track : Track) (country : option string) :
  account_type_map (account_type self) = Return code ->
  exists r,
    recurse_alternatives self track country = Return r
    /\ match r with
       | Some c =>
           exists pre post,
             track :: alternative track = pre ++ c :: post
             /\ check_passes self (region_of self country) c = true
             /\ Forall (fun x => check_passes self (region_of self country) x = false) pre
       | None =>
           Forall (fun x => check_passes self (region_of self country) x = false)
             (track :: alternative track)
       end.
Proof.
  intros Hmap. eexists. split; [now apply recurse_alternatives_find with code|].
  apply find_first_match.
Qed.

Lemma country_in_app (c : option string) (l1 l2 : list string) :
  country_in c (l1 ++ l2) = country_in c l1 || country_in c l2.
Proof. destruct c as [x|]; [apply existsb_app | reflexivity]. Qed.

Lemma country_in_nonempty (c : option string) (l : list string) :
  country_in c l = true -> (0 <? length l)%nat = true.
Proof. destruct c as [x|], l; cbn; congruence. Qed.

(** One pass of the loop, for the session's own country and running lists
    that name it no more than the rule's own lists do: the flags are those
    of section 4.5. *)
Lemma eval_restriction_settled (self : Session) (code : Z) (region : option string)
    (A F : list string) (r : Restriction) :
  SpotifyAPI.country self = region ->
  implb (country_in region A) (country_in region (allow_list r)) = true ->
  implb (country_in region F) (country_in region (forbid_list r)) = true ->
  exists allowed forbidden,
    eval_restriction self region A F r
    = (A ++ allow_list r, F ++ forbid_list r, allowed, forbidden)
    /\ country_in region (A ++ allow_list r) = country_in region (allow_list r)
    /\ country_in region (F ++ forbid_list r) = country_in region (forbid_list r)
    /\ allowed && negb forbidden && existsb (Z.eqb code) (catalogue r)
       = spec_rule_usable code region r.
Proof.
  intros Hself HA HF.
  assert (Ha : country_in region (A ++ allow_list r)
               = country_in region (allow_list r)).
  { rewrite country_in_app.
    destruct (country_in region A), (country_in region (allow_list r));
      try reflexivity; discriminate HA. }
  assert (Hf : country_in region (F ++ forbid_list r)
               = country_in region (forbid_list r)).
  { rewrite country_in_app.
    destruct (country_in region F), (country_in region (forbid_list r));
      try reflexivity; discriminate HF. }
  unfold eval_restriction, spec_rule_usable. rewrite Hself.
  fold (allow_list r). fold (forbid_list r). rewrite Ha, Hf.
  destruct (country_in region (allow_list r)) eqn:Hal;
    destruct (country_in region (forbid_list r)) eqn:Hfl; cbn [andb orb negb].
  - eexists _, _. repeat split; assumption.
  - eexists _, _. split; [reflexivity|]. repeat split; assumption.
  - rewrite (country_in_nonempty region _ Hfl).
    assert (Hlen : (0 <? length (F ++ forbid_list r))%nat = true).
    { apply (country_in_nonempty region). now rewrite Hf. }
    rewrite Hlen.
    eexists _, _. split; [reflexivity|]. repeat split; assumption.
  - eexists _, _. split; [reflexivity|]. repeat split; assumption.
Qed.

(** The loop over the rules agrees with section 4.5 on settled rules. *)
Lemma is_track_available_for_spec (self : Session) (code : Z)
    (region : option string) (rules : list Restriction) :
  account_type_map (account_type self) = Return code ->
  SpotifyAPI.country self = region ->
  forall A F,
    lists_settled region (country_in region A) (country_in region F) rules = true ->
    is_track_available_for self region A F rules
    = Return (existsb (spec_rule_usable code region) rules).
Proof.
  intros Hmap Hself. induction rules as [|r rules IH]; intros A F Hs;
    cbn [is_track_available_for lists_settled existsb] in *; [reflexivity|].
  apply andb_true_iff in Hs. destruct Hs as [Hs Hrest].
  apply andb_true_iff in Hs. destruct Hs as [HA HF].
  destruct (eval_restriction_settled self code region A F r Hself HA HF)
    as (allowed & forbidden & -> & Ha & Hf & Hrule).
  rewrite Hmap. cbn [bind]. rewrite Hrule.
  destruct (spec_rule_usable code region r); cbn [orb]; [reflexivity|].
  apply IH. now rewrite Ha, Hf.
Qed.

Lemma check_passes_spec (self : Session) (code : Z) (region : option string)
    (c : Track) :
  account_type_map (account_type self) = Return code ->
  SpotifyAPI.country self = region ->
  settled region c = true ->
  check_passes self region c = spec_usable code region c.
Proof.
  intros Hmap Hself Hs. unfold check_passes, is_track_available, spec_usable.
  assert (Hs' : lists_settled region (country_in region []) (country_in region [])
                  (restriction c) = true)
    by (destruct region; exact Hs).
  now rewrite (is_track_available_for_spec self code region _ Hmap Hself [] [] Hs').
Qed.

Lemma find_agree {A} (f g : A -> bool) (l : list A) :
  Forall (fun x => f x = g x) l -> find f l = find g l.
Proof.
  induction 1 as [|x l Hx _ IH]; cbn [find]; [reflexivity|].
  rewrite Hx, IH. reflexivity.
Qed.

(** C7, as amended.  For a session whose account tier the catalogue map
    knows (free, premium, unlimited), asked about its own region (named or
    by default), and a track whose candidates have settled rules (within a
    candidate, a rule's allow-list names the region whenever the allow-list
    of the rule before it does, and so for the forbid-lists; a candidate
    with at most one rule is such a one), [recurse_alternatives] returns
    without an exception the first candidate that is usable by the rule of
    section 4.5, in the order primary track then alternatives as listed;
    when no candidate is usable the result is the sentinel ([False] in the
    source, [None] here). *)
Theorem recurse_alternatives_first_usable (self : Session) (code : Z)
    (track : Track) (country : option string) :
  account_type_map (account_type self) = Return code ->
  country = None \/ country = SpotifyAPI.country self ->
  Forall (fun c => settled (SpotifyAPI.country self) c = true)
    (track :: alternative track) ->
  exists r,
    recurse_alternatives self track country = Return r
    /\ first_usable code (SpotifyAPI.country self) (track :: alternative track) r.
Proof.
  intros Hmap Hown Hsettled.
  assert (Hregion : region_of self country = SpotifyAPI.country self).
  { destruct Hown as [-> | ->]; [reflexivity|].
    unfold region_of. now destruct (SpotifyAPI.country self). }
  exists (find (spec_usable code (SpotifyAPI.country self)) (track :: alternative track)).
  split.
  - rewrite (recurse_alternatives_find self code track country Hmap), Hregion.
    f_equal. apply find_agree.
    eapply List.Forall_impl; [|exact Hsettled].
    intros c Hc. now apply check_passes_spec.
  - unfold first_usable. apply find_first_match.
Qed.

(** The theorem at work on the sample track with three alternatives, for the
    session's own region. *)
Lemma recurse_alternatives_first_usable_witness :
  exists r,
    recurse_alternatives us_premium track_with_alternatives None = Return r
    /\ first_usable 1 (SpotifyAPI.country us_premium)
         (track_with_alternatives :: alternative track_with_alternatives) r.
Proof.
  apply (recurse_alternatives_first_usable us_premium 1 track_with_alternatives None).
  - reflexivity.
  - left. reflexivity.
  - repeat constructor.
Defined.

(** C7 fails as stated, three times over.  A session that has no account
    tier yet gets a [KeyError] from line 509, not a result.  A premium
    session in ["US"] gets back, for its own region, a primary track that
    the rule of section 4.5 calls unusable: its first rule is for the free
    catalogue and its second allows ["DE"] only, but the second is read with
    the ["US"] that the first one left on the running list.  And asked about
    ["DE"], the same session gets back a track whose only rule forbids
    ["DE"] (the line 496 of C5). *)
Lemma recurse_alternatives_first_usable_counterexample :
  recurse_alternatives (init None) track_forbid_DE None = Raise KeyError
  /\ ~ (exists r,
          recurse_alternatives us_premium track_free_then_DE None = Return r
          /\ first_usable 1 (Some "US")
               (track_free_then_DE :: alternative track_free_then_DE) r)
  /\ ~ (exists r,
          recurse_alternatives us_premium track_forbid_DE (Some "DE") = Return r
          /\ first_usable 1 (Some "DE")
               (track_forbid_DE :: alternative track_forbid_DE) r).
Proof.
  split; [reflexivity|].
  split; intros (r & Hr & Hfirst); vm_compute in Hr; injection Hr as <-;
    destruct Hfirst as (pre & post & Hcands & Hc & _);
    vm_compute in Hc; discriminate Hc.
Qed.

(** A candidate with two rules that name ["US"] steadily, and one whose
    second rule drops it. *)
Example settled_samples :
  settled (Some "US")
    (mkTrack "gid-h" [free_US; mkRestriction [1] (Some "GBUS") None] []) = true
  /\ settled (Some "US") track_free_then_DE = false
  /\ recurse_alternatives us_premium
       (mkTrack "gid-h" [free_US; mkRestriction [1] (Some "GBUS") None] []) None
     = Return (Some (mkTrack "gid-h" [free_US; mkRestriction [1] (Some "GBUS") None] [])).
Proof. repeat split. Qed.

(** The spec's fallback example: the primary is unusable in ["DE"], the
    second alternative is the first usable one. *)
Example recurse_alternatives_fallback :
  recurse_alternatives us_premium track_with_alternatives (Some "DE")
  = Return (Some track_allow_DE).
Proof. reflexivity. Qed.

(** No usable candidate: the sentinel, not an exception. *)
Example recurse_alternatives_none :
  recurse_alternatives us_premium (mkTrack "gid-f" [free_US] [track_allow_DE]) None
  = Return None.
Proof. reflexivity. Qed.

End Resolver.

(* ===================================================================== *)
(** ** Round trip through the canonical form *)
(* ===================================================================== *)

Section SplitColon.

Lemma all_chars_impl (ok1 ok2 : ascii -> bool) s :
  (forall c, ok1 c = true -> ok2 c = true) ->
  all_chars ok1 s = true -> all_chars ok2 s = true.
Proof.
  intros Himp. induction s as [|c s IH]; cbn [all_chars]; [reflexivity|].
  intros [Hc Hs]%andb_true_iff. now rewrite (Himp c Hc), IH.
Qed.

Lemma split_not_nil sep s : split sep s <> [].
Proof.
  destruct s as [|c s]; cbn [split]; [discriminate|].
  destruct (Ascii.eqb c sep); [discriminate|].
  now destruct (split sep s).
Qed.

(** A field without colons is cut off at the first colon. *)
Lemma split_field s rest :
  colon_free s = true ->
  split ":" (s +:+ String ":" rest) = s :: split ":" rest.
Proof.
  unfold colon_free. induction s as [|c s IH]; simpl.
  - intros _. reflexivity.
  - intros [Hc Hs]%andb_true_iff. apply negb_true_iff in Hc. rewrite Hc.
    now rewrite (IH Hs).
Qed.

Lemma split_last s : colon_free s = true -> split ":" s = [s].
Proof.
  unfold colon_free. induction s as [|c s IH]; cbn [all_chars split].
  - reflexivity.
  - intros [Hc Hs]%andb_true_iff. apply negb_true_iff in Hc. rewrite Hc.
    now rewrite (IH Hs).
Qed.

Lemma base62_colon_free s : base62_string s = true -> colon_free s = true.
Proof.
  apply all_chars_impl. intros c Hc.
  destruct (Ascii.eqb_spec c ":") as [->|]; [discriminate Hc | reflexivity].
Qed.

(** The canonical form of a colon-free type splits into three fields. *)
Lemma split_canonical uritype id :
  colon_free uritype = true -> base62_string id = true ->
  split ":" ("spotify:" +:+ uritype +:+ ":" +:+ id) = ["spotify"; uritype; id].
Proof.
  intros Ht Hid.
  change ("spotify:" +:+ uritype +:+ ":" +:+ id)
    with ("spotify" +:+ String ":" (uritype +:+ String ":" id)).
  rewrite split_field by reflexivity.
  rewrite split_field by exact Ht.
  now rewrite split_last by now apply base62_colon_free.
Qed.

End SplitColon.

Section Decode.

Lemma index_digit_char62 d :
  0 <= d < 62 ->
  index_from 0%nat (digit_char base62 d) base62 = Some (Z.to_nat d).
Proof.
  intros Hd. unfold digit_char.
  assert (Hn : (Z.to_nat d < 62)%nat) by lia.
  generalize dependent (Z.to_nat d). intros n Hn.
  do 62 (destruct n as [|n]; [reflexivity|]). lia.
Qed.

Lemma decode62_digits ds : forall acc,
  Forall (fun d => 0 <= d < 62) ds ->
  decode62 acc (digits_string base62 ds) = eval_digits 62 acc ds.
Proof.
  unfold digits_string, eval_digits.
  induction ds as [|d ds IH]; intros acc Hds; [reflexivity|].
  inversion Hds as [|? ? Hd Hrest]; subst.
  cbn [map string_of_list_ascii decode62 fold_left].
  rewrite index_digit_char62 by exact Hd. cbn [default]. unfold id.
  rewrite Z2Nat.id by lia. now apply IH.
Qed.

Lemma decode62_zeros n s :
  decode62 0 (replicate_char n "0" +:+ s) = decode62 0 s.
Proof. induction n as [|n IH]; simpl; [reflexivity | exact IH]. Qed.

(** Reading back the digits the loop emits. *)
Lemma radix_loop_eval b fuel : forall v res,
  1 < b -> 0 <= v < 2 ^ Z.of_nat fuel ->
  eval_digits b 0 (radix_loop b fuel v res) = eval_digits b v res.
Proof.
  induction fuel as [|fuel IH]; intros v res Hb Hv.
  - simpl in Hv. assert (v = 0) by lia. now subst v.
  - cbn [radix_loop]. destruct (Z.gtb_spec v 0) as [Hpos|Hz].
    + rewrite IH; [|exact Hb|].
      * unfold eval_digits. cbn [fold_left].
        replace (v / b * b + v mod b) with v; [reflexivity|].
        rewrite (Z.div_mod v b) at 1 by lia. lia.
      * split; [apply Z.div_pos; lia|].
        apply Z.div_lt_upper_bound; [lia|].
        replace (Z.of_nat (S fuel)) with (Z.succ (Z.of_nat fuel)) in Hv by lia.
        rewrite Z.pow_succ_r in Hv by lia. nia.
    + assert (v = 0) by lia. now subst v.
Qed.

Lemma radix_digits_eval b v : 1 < b -> 0 <= v -> eval_digits b 0 (radix_digits b v) = v.
Proof.
  intros Hb Hv. unfold radix_digits. rewrite radix_loop_eval.
  - reflexivity.
  - exact Hb.
  - split; [exact Hv | now apply digits_fuel_enough].
Qed.

Variable maxint : Z.
Hypothesis maxint_nonneg : 0 <= maxint.

(** One step [v * 62 + i] of the decoding loop keeps integers normal. *)
Lemma py_step_normal (a : py_int) (i : nat) :
  py_normal maxint a ->
  py_normal maxint (py_add maxint (py_mul maxint a (PyInt 62)) (PyInt (Z.of_nat i)))
  /\ py_val (py_add maxint (py_mul maxint a (PyInt 62)) (PyInt (Z.of_nat i)))
     = py_val a * 62 + Z.of_nat i.
Proof.
  intros [Hval Hlong]. unfold py_normal, py_add, py_mul, py_arith, int_result.
  symmetry in Hlong.
  destruct a as [x|x]; cbn [py_val py_is_long] in *;
    [apply Z.ltb_ge in Hlong | apply Z.ltb_lt in Hlong];
    repeat match goal with
           | |- context [Z.leb ?p ?q] => destruct (Z.leb_spec p q)
           | _ => progress cbn [andb py_val py_is_long]
           end;
    try lia;
    (split; [split; [lia|] | lia]);
    symmetry; first [apply Z.ltb_ge; lia | apply Z.ltb_lt; lia].
Qed.

(** The decoding loop of [uri2id] on a base-62 string: it does not raise, it
    computes [decode62], and the result is a [long] exactly when it exceeds
    [maxint]. *)
Lemma uri2id_for_decode s : forall a,
  base62_string s = true ->
  py_normal maxint a ->
  exists r,
    uri2id_for maxint a s = Return r
    /\ py_val r = decode62 (py_val a) s
    /\ py_normal maxint r.
Proof.
  unfold base62_string.
  induction s as [|c s IH]; intros a Hs Ha.
  - exists a. split; [reflexivity | split; [reflexivity | exact Ha]].
  - cbn [all_chars] in Hs. apply andb_true_iff in Hs as [Hc Hs].
    apply bool_decide_eq_true in Hc as [i Hi].
    cbn [uri2id_for decode62]. unfold index. rewrite Hi.
    cbn [of_option bind default]. unfold id.
    destruct (py_step_normal a i Ha) as [Hnorm Hval].
    destruct (IH _ Hs Hnorm) as (r & Hr & Hrv & Hrn).
    exists r. rewrite Hval in Hrv.
    split; [exact Hr | split; [exact Hrv | exact Hrn]].
Qed.

End Decode.

Section Render.

Lemma append_nil_r s : s +:+ "" = s.
Proof.
  induction s as [|c s IH]; [reflexivity|]. now rewrite append_cons, IH.
Qed.

Lemma append_assoc s t u : (s +:+ t) +:+ u = s +:+ (t +:+ u).
Proof.
  induction s as [|c s IH]; [reflexivity|]. now rewrite !append_cons, IH.
Qed.

Lemma digits_string_app alphabet ds1 ds2 :
  digits_string alphabet (ds1 ++ ds2)
  = digits_string alphabet ds1 +:+ digits_string alphabet ds2.
Proof.
  unfold digits_string. induction ds1 as [|d ds1 IH]; [reflexivity|].
  cbn [app map string_of_list_ascii]. now rewrite append_cons, IH.
Qed.

Lemma substring_prefix s t : String.substring 0 (String.length s) (s +:+ t) = s.
Proof.
  induction s as [|c s IH].
  - rewrite append_nil_l. now destruct t.
  - rewrite append_cons. cbn [String.length String.substring]. now rewrite IH.
Qed.

(** Cutting ['0x'] and the trailing ['L'] off the print of a [long]. *)
Lemma slice_2_m1_long body : slice_2_m1 ("0x" +:+ body +:+ "L") = body.
Proof.
  unfold slice_2_m1. rewrite !append_cons, append_nil_l.
  cbn [String.length]. rewrite length_append. cbn [String.length].
  replace (S (S (String.length body + 1)) - 3)%nat with (String.length body) by lia.
  cbn [String.substring]. apply substring_prefix.
Qed.

Lemma length_lstrip0 s : (String.length (lstrip0 s) <= String.length s)%nat.
Proof.
  induction s as [|c s IH]; cbn [lstrip0 String.length]; [lia|].
  destruct (Ascii.eqb c "0"); cbn [String.length]; lia.
Qed.

(** Padding with zeros undoes the stripping of leading zeros. *)
Lemma rjust_lstrip0 s : rjust (String.length s) "0" (lstrip0 s) = s.
Proof.
  unfold rjust. induction s as [|c s IH]; [reflexivity|].
  cbn [lstrip0 String.length].
  destruct (Ascii.eqb_spec c "0") as [->|Hc].
  - pose proof (length_lstrip0 s) as Hle.
    replace (S (String.length s) - String.length (lstrip0 s))%nat
      with (S (String.length s - String.length (lstrip0 s))) by lia.
    cbn [replicate_char]. now rewrite append_cons, IH.
  - cbn [String.length]. now rewrite Nat.sub_diag.
Qed.

Variable b : Z.
Hypothesis b_gt_1 : 1 < b.

Lemma radix_loop_acc fuel : forall v res,
  radix_loop b fuel v res = radix_loop b fuel v [] ++ res.
Proof.
  induction fuel as [|fuel IH]; intros v res; cbn [radix_loop]; [reflexivity|].
  destruct (v >? 0); [|reflexivity].
  rewrite (IH (v / b) (v mod b :: res)), (IH (v / b) [v mod b]).
  now rewrite <- app_assoc.
Qed.

Lemma radix_loop_enough fuel v :
  0 <= v -> (digits_fuel v <= fuel)%nat ->
  radix_loop b fuel v [] = radix_digits b v.
Proof.
  intros Hv Hfuel.
  replace fuel with (digits_fuel v + (fuel - digits_fuel v))%nat by lia.
  now apply radix_digits_total.
Qed.

(** Appending a digit to a number appends it to its digit list. *)
Lemma radix_digits_snoc a d :
  0 <= a -> 0 <= d < b -> 0 < a * b + d ->
  radix_digits b (a * b + d) = radix_digits b a ++ [d].
Proof.
  intros Ha Hd Hpos.
  set (fuel := Nat.max (digits_fuel (a * b + d)) (digits_fuel a)).
  rewrite <- (radix_loop_enough (S fuel) (a * b + d)) by lia.
  cbn [radix_loop]. destruct (Z.gtb_spec (a * b + d) 0) as [_|]; [|lia].
  replace ((a * b + d) / b) with a
    by (rewrite Z.div_add_l by lia; rewrite Z.div_small by lia; lia).
  replace ((a * b + d) mod b) with d
    by (rewrite Z.add_comm, Z.mod_add by lia; now rewrite Z.mod_small).
  rewrite radix_loop_acc. now rewrite radix_loop_enough by lia.
Qed.

Lemma radix_digits_0 : radix_digits b 0 = [].
Proof. reflexivity. Qed.

End Render.

Section LowerHex.

(** A lower-case hexadecimal digit is read as the value that prints as the
    same character. *)
Lemma lower_hex_char c :
  is_Some (index_from 0%nat c hexdigits) ->
  exists d,
    hex_digit_value c = Some d
    /\ digit_char hexdigits d = c
    /\ 0 <= d < 16
    /\ Ascii.eqb c "0" = (d =? 0).
Proof.
  intros [i Hi].
  destruct c as [[] [] [] [] [] [] [] []]; vm_compute in Hi; try discriminate Hi;
    eexists; (split; [vm_compute; reflexivity|]); (split; [reflexivity|]);
    (split; [lia | reflexivity]).
Qed.

(** Printing the value read from a lower-case hexadecimal string gives the
    string back, without its leading zeros when nothing precedes it. *)
Lemma int16_from_render s : forall acc v,
  lower_hexadecimal s = true ->
  0 <= acc ->
  int16_from acc s = Some v ->
  digits_string hexdigits (radix_digits 16 v)
  = if acc =? 0 then lstrip0 s
    else digits_string hexdigits (radix_digits 16 acc) +:+ s.
Proof.
  unfold lower_hexadecimal.
  induction s as [|c s IH]; intros acc v Hs Hacc Hread.
  - cbn [int16_from] in Hread. injection Hread as <-.
    destruct (Z.eqb_spec acc 0) as [->|_]; [reflexivity|].
    now rewrite append_nil_r.
  - cbn [all_chars] in Hs. apply andb_true_iff in Hs as [Hc Hs].
    apply bool_decide_eq_true in Hc.
    destruct (lower_hex_char c Hc) as (d & Hd & Hchar & Hrange & Hzero).
    cbn [int16_from] in Hread. rewrite Hd in Hread.
    rewrite (IH (acc * 16 + d) v Hs ltac:(lia) Hread).
    cbn [lstrip0]. rewrite Hzero.
    destruct (Z.eqb_spec acc 0) as [->|Hacc0].
    + replace (0 * 16 + d) with d by lia.
      destruct (Z.eqb_spec d 0) as [_|Hd0]; [reflexivity|].
      assert (Hone : radix_digits 16 d = [d]).
      { pose proof (radix_digits_snoc 16 ltac:(lia) 0 d ltac:(lia) Hrange ltac:(lia)) as H.
        now replace (0 * 16 + d) with d in H by lia. }
      rewrite Hone. unfold digits_string. cbn [map string_of_list_ascii].
      now rewrite Hchar, append_cons, append_nil_l.
    + destruct (Z.eqb_spec (acc * 16 + d) 0) as [|_]; [lia|].
      rewrite radix_digits_snoc by lia.
      rewrite digits_string_app, append_assoc. unfold digits_string at 2.
      cbn [map string_of_list_ascii]. now rewrite Hchar, append_cons, append_nil_l.
Qed.

End LowerHex.

Section RoundTripLong.

Variable maxint : Z.
Hypothesis maxint_nonneg : 0 <= maxint.

(** [hex(v)[2:-1].rjust(32, "0")] for a normal Python integer that is zero
    or a [long], when [h] is the 32-digit spelling of its value. *)
Lemma hex_slice_rjust (r : py_int) (h : string) :
  py_normal maxint r ->
  py_val r = 0 \/ maxint < py_val r ->
  lower_hexadecimal h = true ->
  int16_from 0 h = Some (py_val r) ->
  rjust (String.length h) "0" (slice_2_m1 (hex r)) = h.
Proof.
  intros [Hnonneg Hlong] Hcase Hhex Hread.
  pose proof (int16_from_render h 0 (py_val r) Hhex ltac:(lia) Hread) as Hrender.
  cbn [Z.eqb] in Hrender.
  rewrite <- (rjust_lstrip0 h) at 2. f_equal. rewrite <- Hrender.
  destruct Hcase as [Hzero | Hbig].
  - assert (Hint : py_is_long r = false).
    { rewrite Hlong, Hzero. now apply Z.ltb_ge. }
    destruct r as [z|z]; [|discriminate Hint]. cbn [py_val] in *. now subst z.
  - assert (Hint : py_is_long r = true).
    { rewrite Hlong. now apply Z.ltb_lt. }
    destruct r as [z|z]; [discriminate Hint|]. cbn [py_val] in *.
    unfold hex. cbn [py_val py_is_long].
    rewrite Z.abs_eq by lia.
    destruct (Z.eqb_spec z 0) as [|_]; [lia|].
    destruct (Z.ltb_spec z 0) as [|_]; [lia|].
    rewrite append_nil_l. apply slice_2_m1_long.
Qed.

(** X1.  The round trip is exact for a colon-free type and a lower-case
    identifier whose value is zero or above [sys.maxint], that is, whenever
    the decoded value prints without losing a digit to the slice. *)
Lemma round_trip_exact (uritype h : string) (v : Z) :
  colon_free uritype = true ->
  String.length h = 32%nat ->
  lower_hexadecimal h = true ->
  int16 h = Return v ->
  v = 0 \/ maxint < v ->
  round_trip maxint uritype h = Return h.
Proof.
  intros Htype Hlen Hhex Hint Hcase.
  assert (Hread : int16_from 0 h = Some v).
  { unfold int16 in Hint. destruct h; [discriminate Hint|].
    destruct (int16_from 0 (String a h)); [now injection Hint as -> | discriminate Hint]. }
  pose proof (int16_from_bounds h 0 v ltac:(lia) Hread) as Hbound.
  rewrite Hlen in Hbound. change (Z.of_nat 32) with 32 in Hbound.
  set (ds := radix_digits 62 v).
  set (id := rjust 22 "0" (digits_string base62 ds)).
  assert (Hds : Forall (fun d => 0 <= d < 62) ds) by (apply radix_digits_range; lia).
  assert (Hid : base62_string id = true).
  { unfold id, rjust, base62_string. rewrite all_chars_append.
    apply andb_true_iff. split; [now apply all_chars_replicate|].
    now apply base62_digits_string. }
  unfold round_trip, id2uri. rewrite Hint. cbn [bind]. fold ds. fold id.
  unfold uri2id. rewrite split_canonical by assumption.
  cbn [length Nat.ltb Nat.leb getitem nth_error of_option bind].
  assert (Hzero : py_normal maxint (PyInt 0)).
  { split; [cbn; lia|]. cbn [py_is_long py_val]. symmetry. now apply Z.ltb_ge. }
  destruct (uri2id_for_decode maxint maxint_nonneg id (PyInt 0) Hid Hzero)
    as (r & Hr & Hval & Hnorm).
  rewrite Hr. cbn [bind]. f_equal.
  assert (Hv : py_val r = v).
  { rewrite Hval. cbn [py_val]. unfold id, rjust.
    rewrite decode62_zeros, decode62_digits by exact Hds.
    apply radix_digits_eval; lia. }
  rewrite <- Hlen. apply hex_slice_rjust; try assumption; now rewrite Hv.
Qed.

End RoundTripLong.

Section RoundTrip.

(** Identifiers as the service hands them out are 128-bit values far above
    [sys.maxint]; for these the round trip gives the identifier back. *)
Example round_trip_large :
  round_trip maxint64 "track" "fffdb1ce0b73debce369b108e575ca09"
  = Return "fffdb1ce0b73debce369b108e575ca09"
  /\ round_trip maxint64 "user:spotify:playlist" "0123456789abcdef0123456789abcdef"
     = Return "0123456789abcdef0123456789abcdef".
Proof. split; reflexivity. Qed.

(** C4, on the identifier [00000000000000000000000000000001]: decoding the
    canonical form yields the [int] 1, [hex(1)] is ['0x1'] without the
    trailing ['L'] that line 100 cuts off, so the slice [[2:-1]] drops the
    only digit and the result is 32 zeros.  The same happens for every
    non-zero value up to [sys.maxint], on 64-bit and 32-bit builds alike. *)
Theorem uri2id_id2uri_small :
  String.length "00000000000000000000000000000001" = 32%nat
  /\ hexadecimal "00000000000000000000000000000001" = true
  /\ id2uri "track" "00000000000000000000000000000001"
     = Return "spotify:track:0000000000000000000001"
  /\ uri2id maxint64 "spotify:track:0000000000000000000001"
     = Return "00000000000000000000000000000000"
  /\ round_trip maxint64 "track" "00000000000000000000000000000001"
     = Return "00000000000000000000000000000000"
  /\ round_trip maxint32 "track" "00000000000000000000000000000001"
     = Return "00000000000000000000000000000000"
  /\ round_trip maxint64 "track" "00000000000000000000000000000001"
     <> Return "00000000000000000000000000000001".
Proof. repeat split. discriminate. Qed.

(** Another small identifier: the last digit is lost, the rest shifts. *)
Example round_trip_small_ff :
  round_trip maxint64 "track" "000000000000000000000000000000ff"
  = Return "0000000000000000000000000000000f".
Proof. reflexivity. Qed.

(** The largest value that is still an [int] on a 64-bit build, and the first
    [long]. *)
Example round_trip_boundary :
  round_trip maxint64 "track" "00000000000000007fffffffffffffff"
  = Return "000000000000000007ffffffffffffff"
  /\ round_trip maxint64 "track" "00000000000000008000000000000000"
     = Return "00000000000000008000000000000000".
Proof. split; reflexivity. Qed.

(** Every identifier of at least 64 significant bits survives the round trip
    on a 64-bit build. *)
Lemma round_trip_exact_witness :
  round_trip maxint64 "artist" "8000000000000000000000000000002a"
  = Return "8000000000000000000000000000002a".
Proof.
  apply (round_trip_exact maxint64 ltac:(unfold maxint64; lia) "artist"
           "8000000000000000000000000000002a"
           0x8000000000000000000000000000002a);
    [reflexivity | reflexivity | reflexivity | vm_compute; reflexivity |].
  right. unfold maxint64. lia.
Defined.

End RoundTrip.

(* ===================================================================== *)
(** ** More of the identifier codec *)
(* ===================================================================== *)

Section CodecValues.

Variable maxint : Z.
Hypothesis maxint_nonneg : 0 <= maxint.

Lemma int16_from_of_int16 h v : int16 h = Return v -> int16_from 0 h = Some v.
Proof.
  unfold int16. destruct h as [|a h]; [discriminate|].
  destruct (int16_from 0 (String a h)); [now intros [= ->] | discriminate].
Qed.

Lemma base62_rjust_digits v :
  base62_string (rjust 22 "0" (digits_string base62 (radix_digits 62 v))) = true.
Proof.
  unfold rjust, base62_string. rewrite all_chars_append.
  apply andb_true_iff. split; [now apply all_chars_replicate|].
  apply base62_digits_string, radix_digits_range. lia.
Qed.

(** X2.  Whatever the length of the hexadecimal input, the base-62 part of
    [id2uri]'s result spells the same integer: the decoding loop of [uri2id]
    runs through it without an exception and ends with the value that
    [int(h, 16)] read. *)
Theorem uri2id_for_id2uri (uritype h : string) (v : Z) :
  int16 h = Return v ->
  exists id r,
    id2uri uritype h = Return (canonical uritype id)
    /\ uri2id_for maxint (PyInt 0) id = Return r
    /\ py_val r = v.
Proof.
  intros Hint.
  pose proof (int16_from_of_int16 h v Hint) as Hread.
  pose proof (int16_from_bounds h 0 v ltac:(lia) Hread) as Hbound.
  assert (Hv : 0 <= v).
  { assert (0 <= 16 ^ Z.of_nat (String.length h)) by (apply Z.pow_nonneg; lia). lia. }
  set (id := rjust 22 "0" (digits_string base62 (radix_digits 62 v))).
  assert (Hzero : py_normal maxint (PyInt 0)).
  { split; [cbn; lia|]. cbn [py_is_long py_val]. symmetry. now apply Z.ltb_ge. }
  destruct (uri2id_for_decode maxint maxint_nonneg id (PyInt 0)
              (base62_rjust_digits v) Hzero) as (r & Hr & Hval & _).
  exists id, r. split; [|split].
  - unfold id2uri. now rewrite Hint.
  - exact Hr.
  - rewrite Hval. cbn [py_val]. unfold id, rjust.
    rewrite decode62_zeros, decode62_digits by (apply radix_digits_range; lia).
    apply radix_digits_eval; lia.
Qed.

End CodecValues.

(** The theorem at work on a short identifier, on a 64-bit build. *)
Lemma uri2id_for_id2uri_witness :
  exists id r,
    id2uri "track" "ff" = Return (canonical "track" id)
    /\ uri2id_for maxint64 (PyInt 0) id = Return r
    /\ py_val r = 255.
Proof.
  apply (uri2id_for_id2uri maxint64 ltac:(unfold maxint64; lia) "track" "ff" 255).
  reflexivity.
Defined.

Section CodecFields.

Variable maxint : Z.

Lemma split_canonical_fields uritype id :
  colon_free uritype = true -> colon_free id = true ->
  split ":" (canonical uritype id) = ["spotify"; uritype; id].
Proof.
  intros Ht Hid. unfold canonical.
  change ("spotify:" +:+ uritype +:+ ":" +:+ id)
    with ("spotify" +:+ String ":" (uritype +:+ String ":" id)).
  rewrite split_field by reflexivity.
  rewrite split_field by exact Ht.
  now rewrite split_last.
Qed.

Lemma split_playlist_uri user id :
  colon_free user = true -> colon_free id = true ->
  split ":" (playlist_uri user id) = ["spotify"; "user"; user; "playlist"; id].
Proof.
  intros Hu Hid. unfold playlist_uri.
  change ("spotify:user:" +:+ user +:+ ":playlist:" +:+ id)
    with ("spotify" +:+ String ":" ("user" +:+ String ":"
            (user +:+ String ":" ("playlist" +:+ String ":" id)))).
  rewrite split_field by reflexivity.
  rewrite split_field by reflexivity.
  rewrite split_field by exact Hu.
  rewrite split_field by reflexivity.
  now rewrite split_last.
Qed.

(** X3.  The playlist form [spotify:user:<user>:playlist:<id>] and the plain
    form [spotify:<type>:<id>] are decoded alike: [uri2id] takes the fifth
    field of the one and the third field of the other, and gives the same
    result (or raises the same exception) for the same [id]. *)
Theorem uri2id_playlist_form (user uritype id : string) :
  colon_free user = true ->
  colon_free uritype = true ->
  colon_free id = true ->
  uri2id maxint (playlist_uri user id) = uri2id maxint (canonical uritype id).
Proof.
  intros Hu Ht Hid. unfold uri2id.
  rewrite split_playlist_uri, split_canonical_fields by assumption.
  reflexivity.
Qed.

Lemma uri2id_for_foreign s : forall a,
  base62_string s = false -> uri2id_for maxint a s = Raise ValueError.
Proof.
  unfold base62_string. induction s as [|c s IH]; intros a Hs; [discriminate Hs|].
  cbn [all_chars] in Hs. cbn [uri2id_for]. unfold index.
  destruct (index_from 0%nat c base62) as [i|] eqn:Hi; [|reflexivity].
  cbn [of_option bind]. apply IH.
  rewrite bool_decide_eq_true_2 in Hs by eauto. exact Hs.
Qed.

(** X4.  The error behaviour of [uri2id].  A resource name with fewer than
    three colon-separated fields has no identifier field: [IndexError].  A
    four-field name whose fourth field is ["playlist"] lacks the fifth field:
    [IndexError].  A canonical name whose identifier holds a character
    outside the base-62 alphabet is not decoded: [ValueError]. *)
Theorem uri2id_errors (uri uritype id : string) :
  ((length (split ":" uri) < 3)%nat
   \/ (length (split ":" uri) = 4%nat /\ nth_error (split ":" uri) 3 = Some "playlist") ->
   uri2id maxint uri = Raise IndexError)
  /\ (colon_free uritype = true -> colon_free id = true ->
      base62_string id = false ->
      uri2id maxint (canonical uritype id) = Raise ValueError).
Proof.
  split.
  - unfold uri2id. intros [Hshort | [Hfour Hpl]].
    + destruct (split ":" uri) as [|a [|b [|c rest]]]; cbn in Hshort; try lia; reflexivity.
    + destruct (split ":" uri) as [|a [|b [|c [|d [|e rest]]]]]; try discriminate Hfour.
      cbn in Hpl. injection Hpl as ->. reflexivity.
  - intros Ht Hid Hbad. unfold uri2id.
    rewrite split_canonical_fields by assumption.
    cbn [length Nat.ltb Nat.leb getitem nth_error of_option bind].
    now rewrite uri2id_for_foreign.
Qed.

End CodecFields.

(** The two theorems at work. *)
Lemma uri2id_playlist_form_witness :
  uri2id maxint64 (playlist_uri "spotify" "0CoQk8bVPF1famEAZ5BYE4")
  = uri2id maxint64 (canonical "track" "0CoQk8bVPF1famEAZ5BYE4").
Proof.
  apply (uri2id_playlist_form maxint64 "spotify" "track" "0CoQk8bVPF1famEAZ5BYE4");
    reflexivity.
Defined.

Lemma uri2id_errors_witness :
  uri2id maxint64 "spotify:track" = Raise IndexError
  /\ uri2id maxint64 (canonical "track" "0CoQk8bVPF1fam-AZ5BYE4") = Raise ValueError.
Proof.
  destruct (uri2id_errors maxint64 "spotify:track" "track" "0CoQk8bVPF1fam-AZ5BYE4")
    as [Hindex Hvalue].
  split.
  - apply Hindex. left. cbn. lia.
  - apply Hvalue; reflexivity.
Defined.

Section Gid.

Lemma ord_range c : 0 <= ord c < 256.
Proof.
  unfold ord. pose proof (nat_ascii_bounded c). lia.
Qed.

Lemma hexdigit_char_lower_nat (n : nat) :
  (n < 16)%nat ->
  bool_decide (is_Some (index_from 0%nat (digit_char hexdigits (Z.of_nat n)) hexdigits))
  = true
  /\ hex_digit_value (digit_char hexdigits (Z.of_nat n)) = Some (Z.of_nat n).
Proof.
  intros Hn. do 16 (destruct n as [|n]; [split; reflexivity|]). lia.
Qed.

Lemma hexdigit_char_lower d :
  0 <= d < 16 ->
  bool_decide (is_Some (index_from 0%nat (digit_char hexdigits d) hexdigits)) = true
  /\ hex_digit_value (digit_char hexdigits d) = Some d.
Proof.
  intros Hd. rewrite <- (Z2Nat.id d) by lia.
  apply hexdigit_char_lower_nat. lia.
Qed.

Lemma length_hexlify data : String.length (hexlify data) = (2 * String.length data)%nat.
Proof.
  induction data as [|c data IH]; cbn [hexlify String.length]; [reflexivity|].
  rewrite IH. lia.
Qed.

Lemma lower_hexlify data : lower_hexadecimal (hexlify data) = true.
Proof.
  unfold lower_hexadecimal.
  induction data as [|c data IH]; cbn [hexlify all_chars]; [reflexivity|].
  pose proof (ord_range c) as Hc. fold (ord c).
  destruct (hexdigit_char_lower (ord c / 16)) as [-> _].
  { split; [apply Z.div_pos; lia | apply Z.div_lt_upper_bound; lia]. }
  destruct (hexdigit_char_lower (ord c mod 16)) as [-> _].
  { apply Z.mod_pos_bound. lia. }
  exact IH.
Qed.

(** Reading the print of a byte string gives its big-endian value. *)
Lemma int16_from_hexlify data : forall acc,
  int16_from acc (hexlify data) = Some (bytes_value acc data).
Proof.
  induction data as [|c data IH]; intros acc; cbn [hexlify int16_from bytes_value];
    [reflexivity|].
  pose proof (ord_range c) as Hc. fold (ord c).
  destruct (hexdigit_char_lower (ord c / 16)) as [_ ->].
  { split; [apply Z.div_pos; lia | apply Z.div_lt_upper_bound; lia]. }
  destruct (hexdigit_char_lower (ord c mod 16)) as [_ ->].
  { apply Z.mod_pos_bound. lia. }
  rewrite IH. f_equal. f_equal.
  pose proof (Z.div_mod (ord c) 16 ltac:(lia)). lia.
Qed.

Lemma int16_from_zeros n s : int16_from 0 (replicate_char n "0" +:+ s) = int16_from 0 s.
Proof.
  induction n as [|n IH]; [reflexivity|].
  cbn [replicate_char]. rewrite append_cons. exact IH.
Qed.

Lemma length_gid2id gid :
  String.length (gid2id gid) = Nat.max 32 (2 * String.length gid).
Proof.
  unfold gid2id, rjust. rewrite length_append, length_replicate_char, length_hexlify. lia.
Qed.

Lemma int16_from_gid2id gid : int16_from 0 (gid2id gid) = Some (bytes_value 0 gid).
Proof. unfold gid2id, rjust. rewrite int16_from_zeros. apply int16_from_hexlify. Qed.

Lemma int16_gid2id gid : int16 (gid2id gid) = Return (bytes_value 0 gid).
Proof.
  unfold int16. pose proof (length_gid2id gid) as Hlen.
  destruct (gid2id gid) as [|a s] eqn:Hid; [cbn in Hlen; lia|].
  rewrite <- Hid, int16_from_gid2id. reflexivity.
Qed.

(** X5.  [gid2id] prints a binary identifier as lower-case hexadecimal digits,
    most significant byte first, padded with zeros to 32 characters and never
    cut: the result has the length [max(32, 2 * len(gid))] and [int(_, 16)]
    reads the big-endian value of the bytes from it. *)
Theorem gid2id_spec (gid : string) :
  String.length (gid2id gid) = Nat.max 32 (2 * String.length gid)
  /\ lower_hexadecimal (gid2id gid) = true
  /\ int16 (gid2id gid) = Return (bytes_value 0 gid).
Proof.
  split; [apply length_gid2id | split].
  - unfold gid2id, rjust, lower_hexadecimal. rewrite all_chars_append.
    apply andb_true_iff. split; [now apply all_chars_replicate | apply lower_hexlify].
  - apply int16_gid2id.
Qed.

(** X6.  For a binary identifier of at most 16 bytes, the empty one included,
    [gid2uri] never raises and yields the canonical form with an identifier of
    exactly 22 base-62 characters. *)
Theorem gid2uri_padding (uritype gid : string) :
  (String.length gid <= 16)%nat ->
  exists id,
    gid2uri uritype gid = Return (canonical uritype id)
    /\ String.length id = 22%nat
    /\ base62_string id = true.
Proof.
  intros Hlen. pose proof (int16_from_gid2id gid) as Hread.
  pose proof (int16_from_bounds _ 0 _ ltac:(lia) Hread) as Hbound.
  rewrite length_gid2id in Hbound.
  replace (Nat.max 32 (2 * String.length gid)) with 32%nat in Hbound by lia.
  change (Z.of_nat 32) with 32 in Hbound.
  exists (rjust 22 "0" (digits_string base62 (radix_digits 62 (bytes_value 0 gid)))).
  split; [|split].
  - unfold gid2uri, id2uri. now rewrite int16_gid2id.
  - apply length_rjust. rewrite length_digits_string.
    apply radix_digits_length; [lia|].
    change (Z.of_nat 22) with 22. assert (16 ^ 32 < 62 ^ 22) by reflexivity. lia.
  - apply base62_rjust_digits.
Qed.

End Gid.

(** The theorem at work on a 16-byte identifier. *)
Lemma gid2uri_padding_witness :
  exists id,
    gid2uri "track" "abcdefghijklmnop" = Return (canonical "track" id)
    /\ String.length id = 22%nat
    /\ base62_string id = true.
Proof.
  apply (gid2uri_padding "track" "abcdefghijklmnop"). cbn. lia.
Defined.

Section UriType.

Lemma id2uri_inv uritype h uri :
  id2uri uritype h = Return uri ->
  exists id, uri = canonical uritype id /\ base62_string id = true.
Proof.
  unfold id2uri. destruct (int16 h) as [v|e]; cbn [bind]; [|discriminate].
  intros [= <-]. eexists. split; [reflexivity | apply base62_rjust_digits].
Qed.

(** X7.  The type of a resource name made by [id2uri] is the type it was made
    with: [get_uri_type(id2uri(t, h)) == t] for every type without a colon,
    ["local"] included. *)
Theorem get_uri_type_id2uri (uritype h uri : string) :
  colon_free uritype = true ->
  id2uri uritype h = Return uri ->
  get_uri_type uri = Some uritype.
Proof.
  intros Ht Hmade. destruct (id2uri_inv _ _ _ Hmade) as (id & -> & Hid).
  unfold get_uri_type.
  rewrite split_canonical_fields
    by first [assumption | now apply base62_colon_free].
  cbn [length Nat.leb andb field_is nth_error].
  destruct (String.eqb_spec uritype "local") as [->|_]; reflexivity.
Qed.

(** X8.  The other forms [get_uri_type] knows.  A user's playlist,
    [spotify:user:<user>:playlist:<id>], and a user's starred list,
    [spotify:user:<user>:starred], both have the type ["playlist"].  Every
    name that starts with [spotify:local:] has the type ["local"], however
    many fields follow, and [is_local] says so. *)
Theorem get_uri_type_forms (user id rest : string) :
  colon_free user = true ->
  colon_free id = true ->
  get_uri_type (playlist_uri user id) = Some "playlist"
  /\ get_uri_type ("spotify:user:" +:+ user +:+ ":starred") = Some "playlist"
  /\ get_uri_type ("spotify:local:" +:+ rest) = Some "local"
  /\ is_local ("spotify:local:" +:+ rest) = true.
Proof.
  intros Hu Hid.
  assert (Hlocal : get_uri_type ("spotify:local:" +:+ rest) = Some "local").
  { unfold get_uri_type.
    change ("spotify:local:" +:+ rest)
      with ("spotify" +:+ String ":" ("local" +:+ String ":" rest)).
    rewrite split_field by reflexivity.
    rewrite split_field by reflexivity.
    pose proof (split_not_nil ":" rest) as Hne.
    destruct (split ":" rest) as [|p ps]; [contradiction|]. reflexivity. }
  split; [|split; [|split]].
  - unfold get_uri_type. now rewrite split_playlist_uri.
  - unfold get_uri_type.
    change ("spotify:user:" +:+ user +:+ ":starred")
      with ("spotify" +:+ String ":" ("user" +:+ String ":"
              (user +:+ String ":" "starred"))).
    rewrite split_field by reflexivity.
    rewrite split_field by reflexivity.
    rewrite split_field by exact Hu.
    reflexivity.
  - exact Hlocal.
  - unfold is_local. now rewrite Hlocal.
Qed.

End UriType.

(** The theorems at work. *)
Lemma get_uri_type_id2uri_witness :
  get_uri_type "spotify:album:0000000000000000000001" = Some "album".
Proof.
  apply (get_uri_type_id2uri "album" "00000000000000000000000000000001");
    reflexivity.
Defined.

Lemma get_uri_type_forms_witness :
  get_uri_type (playlist_uri "spotify" "0CoQk8bVPF1famEAZ5BYE4") = Some "playlist"
  /\ get_uri_type ("spotify:user:" +:+ "spotify" +:+ ":starred") = Some "playlist"
  /\ get_uri_type ("spotify:local:" +:+ "Artist:Album:Title:240") = Some "local"
  /\ is_local ("spotify:local:" +:+ "Artist:Album:Title:240") = true.
Proof.
  apply (get_uri_type_forms "spotify" "0CoQk8bVPF1famEAZ5BYE4"
           "Artist:Album:Title:240"); reflexivity.
Defined.

Section Url.

Lemma replace_slash s :
  all_chars (fun c => negb (Ascii.eqb c "/")) (replace "/" ":" s) = true.
Proof.
  unfold replace. induction s as [|c s IH]; [reflexivity|].
  cbn [replace_go String.prefix String.length Nat.sub].
  destruct (ascii_dec "/" c) as [<-|Hne].
  - destruct s; cbn [String.prefix]; rewrite append_cons, append_nil_l;
      cbn [all_chars]; exact IH.
  - cbn [all_chars]. rewrite IH.
    destruct (Ascii.eqb_spec c "/") as [->|_]; [contradiction | reflexivity].
Qed.

(** X9.  [url2uri] answers [None] exactly for the addresses that do not
    start with [http://open.spotify.com]; every other address becomes a
    name that starts with [spotify:] and holds no slash after it. *)
Theorem url2uri_shape (url : string) :
  (url2uri url = None <-> startswith "http://open.spotify.com" url = false)
  /\ (forall uri, url2uri url = Some uri ->
        exists rest,
          uri = "spotify:" +:+ rest
          /\ all_chars (fun c => negb (Ascii.eqb c "/")) rest = true).
Proof.
  unfold url2uri. destruct (startswith "http://open.spotify.com" url); cbn [negb].
  - split; [split; discriminate|].
    intros uri [= <-]. eexists. split; [reflexivity | apply replace_slash].
  - split; [split; reflexivity | discriminate].
Qed.

(** The example in the source, lines 129-130. *)
Example url2uri_playlist :
  url2uri "http://open.spotify.com/user/spotify/playlist/0CoQk8bVPF1famEAZ5BYE4"
  = Some "spotify:user:spotify:playlist:0CoQk8bVPF1famEAZ5BYE4".
Proof. reflexivity. Qed.

End Url.

(* ===================================================================== *)
(** ** More of the connection life cycle *)
(* ===================================================================== *)

Section Teardown.

Lemma ws_close_api h w : api (ws_close h w) = api w.
Proof. unfold ws_close. now destruct (sockets w !! h). Qed.

Lemma ws_close_store h w : store (ws_close h w) = store w.
Proof. unfold ws_close. now destruct (sockets w !! h). Qed.

(** [disconnect] either changes nothing or leaves the session without a
    socket. *)
Lemma disconnect_cases clear_settings original_ws w :
  disconnect clear_settings original_ws w = w
  \/ ws (api (disconnect clear_settings original_ws w)) = None.
Proof.
  unfold disconnect. destruct (ws (api w)) as [h|]; [|now left].
  destruct (State_eqb (state (api w)) INIT); [now left|].
  destruct (State_eqb (state (api w)) DISCONNECTING
            || State_eqb (state (api w)) DISCONNECTED); [now left|].
  destruct (match original_ws with
            | Some o => negb (Nat.eqb h o)
            | None => false
            end); [now left|].
  right.
  destruct (if State_eqb (state (api w)) CONNECTING then true else clear_settings);
    reflexivity.
Qed.

Lemma disconnect_no_socket clear_settings original_ws w :
  ws (api w) = None -> disconnect clear_settings original_ws w = w.
Proof. intros Hws. unfold disconnect. now rewrite Hws. Qed.

(** X10.  [disconnect] is idempotent: a second call with the same arguments
    changes nothing, whether the first one took effect or was held back by a
    guard; after a teardown that took effect no later [disconnect], whatever
    its arguments, changes anything. *)
Theorem disconnect_idempotent (clear_settings clear_settings' : bool)
    (original_ws original_ws' : option nat) (w : World) :
  disconnect clear_settings original_ws (disconnect clear_settings original_ws w)
  = disconnect clear_settings original_ws w
  /\ (disconnect clear_settings original_ws w <> w ->
      disconnect clear_settings' original_ws' (disconnect clear_settings original_ws w)
      = disconnect clear_settings original_ws w).
Proof.
  destruct (disconnect_cases clear_settings original_ws w) as [Hsame | Hnone].
  - split; [now rewrite !Hsame | intros Hne; contradiction].
  - split; [|intros _]; now apply disconnect_no_socket.
Qed.

(** The world after a teardown that takes effect, spelled out. *)
Lemma disconnect_due_eq clear_settings original_ws w h :
  teardown_due original_ws w h ->
  disconnect clear_settings original_ws w
  = mkWorld
      (mkSession false (heartbeat_marker (api w)) (userid (api w))
         (username (api w)) (password (api w)) (account_type (api w))
         (country (api w))
         (if State_eqb (state (api w)) CONNECTING || clear_settings
          then None else settings (api w))
         DISCONNECTED None 0 ∅)
      (store w) (sockets (ws_close h w)) (calls w).
Proof.
  intros (Hws & Hst & Horig).
  destruct w as [[m hb ui un pw acct co se st0 ws0 sq cp] sto socks cls].
  cbn [api ws state] in Hws, Hst. subst ws0.
  unfold disconnect. cbn [api ws state].
  assert (Hguard : match original_ws with
                   | Some o => negb (Nat.eqb h o)
                   | None => false
                   end = false).
  { destruct Horig as [-> | ->]; [reflexivity|]. now rewrite Nat.eqb_refl. }
  rewrite Hguard. unfold ws_close. cbn [sockets with_api api set_state].
  destruct Hst as [-> | ->]; cbn [State_eqb orb]; destruct clear_settings;
    destruct (socks !! h); reflexivity.
Qed.

(** X11.  A teardown that takes effect closes the session's socket and no
    other: the socket keeps its address and the frames written to it, every
    other socket is as before.  The cached settings survive only a teardown
    from [CONNECTED] that was not asked to clear them; a teardown from
    [CONNECTING] always drops them.  The login event is reset. *)
Theorem disconnect_closes_socket (clear_settings : bool) (original_ws : option nat)
    (w : World) (h : nat) (s : Socket) :
  teardown_due original_ws w h ->
  sockets w !! h = Some s ->
  let w' := disconnect clear_settings original_ws w in
  sockets w' !! h = Some (mkSocket (sock_url s) (sock_fault s) (sock_sent s) true)
  /\ (forall k, k <> h -> sockets w' !! k = sockets w !! k)
  /\ length (sockets w') = length (sockets w)
  /\ settings (api w')
     = (if State_eqb (state (api w)) CONNECTING || clear_settings
        then None else settings (api w))
  /\ logged_in_marker (api w') = false.
Proof.
  intros Hdue Hsock w'. subst w'. rewrite (disconnect_due_eq _ _ _ _ Hdue).
  cbn [api sockets settings logged_in_marker]. unfold ws_close. rewrite Hsock.
  cbn [with_sockets sockets].
  assert (Hh : (h < length (sockets w))%nat) by (eapply lookup_lt_Some; eauto).
  split; [now apply list_lookup_insert_eq|].
  split; [intros k Hk; now apply list_lookup_insert_ne|].
  split; [apply length_insert|].
  split; reflexivity.
Qed.

(** X12.  After a teardown that took effect the dispatcher is shut: a
    [send_command] returns a future already rejected with
    [SpotifyDisconnectedError], nothing is written to any socket, the pending
    table stays empty and the sequence counter stays at zero. *)
Theorem send_command_after_disconnect (clear_settings : bool)
    (original_ws : option nat) (w : World) (h : nat) name args callback :
  teardown_due original_ws w h ->
  exists p w',
    send_command name args callback (disconnect clear_settings original_ws w)
    = (w', Return p)
    /\ state_of (store w') p = Some (Rejected SpotifyDisconnectedError)
    /\ cmd_promises (api w') = ∅
    /\ seq (api w') = 0%nat
    /\ sockets w' = sockets (disconnect clear_settings original_ws w).
Proof.
  intros Hdue. set (w1 := disconnect clear_settings original_ws w).
  assert (Hws : ws (api w1) = None).
  { unfold w1. now rewrite (disconnect_due_eq _ _ _ _ Hdue). }
  eexists _, _. split; [apply send_command_offline_eq; now left|].
  cbn [with_store api store sockets].
  assert (Hlen : length (store w1 ++ [mkPromise Pending [] []]) = S (length (store w1))).
  { rewrite length_app. cbn. lia. }
  split; [rewrite <- Hlen; apply state_of_last|].
  unfold w1. rewrite (disconnect_due_eq _ _ _ _ Hdue). repeat split.
Qed.

End Teardown.

(** The theorems at work on the sample session with two commands in flight. *)
Lemma busy_world_due : teardown_due None busy_world 0%nat.
Proof. split; [reflexivity | split; [right; reflexivity | left; reflexivity]]. Defined.

Lemma disconnect_closes_socket_witness :
  let w' := disconnect false None busy_world in
  sockets w' !! 0%nat
  = Some (mkSocket (sock_url healthy_socket) (sock_fault healthy_socket)
            (sock_sent healthy_socket) true)
  /\ (forall k, k <> 0%nat -> sockets w' !! k = sockets busy_world !! k)
  /\ length (sockets w') = length (sockets busy_world)
  /\ settings (api w')
     = (if State_eqb (state (api busy_world)) CONNECTING || false
        then None else settings (api busy_world))
  /\ logged_in_marker (api w') = false.
Proof.
  apply (disconnect_closes_socket false None busy_world 0%nat healthy_socket
           busy_world_due).
  reflexivity.
Defined.

Lemma send_command_after_disconnect_witness :
  exists p w',
    send_command "sp/echo" None None (disconnect false None busy_world)
    = (w', Return p)
    /\ state_of (store w') p = Some (Rejected SpotifyDisconnectedError)
    /\ cmd_promises (api w') = ∅
    /\ seq (api w') = 0%nat
    /\ sockets w' = sockets (disconnect false None busy_world).
Proof.
  apply (send_command_after_disconnect false None busy_world 0%nat "sp/echo"
           None None busy_world_due).
Defined.

Lemma disconnect_idempotent_witness :
  disconnect false None (disconnect false None busy_world)
  = disconnect false None busy_world
  /\ (disconnect false None busy_world <> busy_world ->
      disconnect true (Some 7%nat) (disconnect false None busy_world)
      = disconnect false None busy_world).
Proof.
  apply (disconnect_idempotent false true None (Some 7%nat) busy_world).
Defined.

Section Connect.

Variable E : Env.
Variables user pass : string.
Variable timeout : Z.

(** X13.  [connect] answers [True] only for a session that is [CONNECTED]
    when the call returns, or for one that was already [CONNECTING], which it
    leaves untouched. *)
Theorem connect_true (w w' : World) :
  connect E user pass timeout w = (w', Return true) ->
  state (api w') = CONNECTED
  \/ (w' = w /\ state (api w) = CONNECTING).
Proof.
  unfold connect. intros H.
  destruct (State_eqb (state (api w)) CONNECTED) eqn:Hc; cbn [orb] in H.
  { injection H as <-. left. now apply State_eqb_eq. }
  destruct (State_eqb (state (api w)) CONNECTING) eqn:Hg.
  { injection H as <-. right. split; [reflexivity | now apply State_eqb_eq]. }
  destruct (State_eqb (state (api w)) DISCONNECTING); [discriminate H|].
  repeat match type of H with
         | context [match ?x with _ => _ end] => destruct x eqn:?; try discriminate H
         end.
  injection H as <- Hlogged. left. now apply State_eqb_eq.
Qed.

End Connect.

Section ConnectPaths.

Variable E : Env.
Variables user pass : string.
Variable timeout : Z.

(** With cached settings and a socket that opens, [connect] reaches the wait
    for the login in the world [dialled]. *)
Lemma connect_dialled (w : World) (cfg : Settings) :
  state (api w) = INIT \/ state (api w) = DISCONNECTED ->
  settings (api w) = Some cfg ->
  env_dial E (wss cfg) = DialOk ->
  connect E user pass timeout w
  = let '(w2, signalled) := env_wait_login E timeout (dialled user pass cfg w) in
    if negb signalled then (disconnect false None w2, Return false)
    else (w2, Return (is_logged_in (api w2))).
Proof.
  intros Hst Hset Hdial.
  destruct w as [[m hb ui un pw acct co se st0 ws0 sq cp] sto socks cls].
  cbn [api state settings] in Hst, Hset. subst se.
  unfold connect, dialled.
  cbn [api state settings with_api set_state set_credentials with_sockets sockets
       logged_in_marker heartbeat_marker userid username password account_type
       country ws seq cmd_promises store calls set_ws].
  destruct Hst as [-> | ->]; cbn [State_eqb orb negb]; rewrite Hdial; reflexivity.
Qed.

(** X14.  A login that is not signalled in time, while the session is still
    [CONNECTING] on its socket, ends in a full teardown: [connect] answers
    [False], the session is [DISCONNECTED] without a socket, the pending
    table is empty, and the cached settings are dropped, so that the next
    [connect] authenticates afresh. *)
Theorem connect_login_timeout (w w2 : World) (cfg : Settings) (h : nat) :
  state (api w) = INIT \/ state (api w) = DISCONNECTED ->
  settings (api w) = Some cfg ->
  env_dial E (wss cfg) = DialOk ->
  env_wait_login E timeout (dialled user pass cfg w) = (w2, false) ->
  state (api w2) = CONNECTING ->
  ws (api w2) = Some h ->
  exists w',
    connect E user pass timeout w = (w', Return false)
    /\ state (api w') = DISCONNECTED
    /\ ws (api w') = None
    /\ settings (api w') = None
    /\ cmd_promises (api w') = ∅
    /\ seq (api w') = 0%nat.
Proof.
  intros Hst Hset Hdial Hwait Hst2 Hws2.
  exists (disconnect false None w2).
  rewrite (connect_dialled w cfg Hst Hset Hdial), Hwait. cbn [negb].
  split; [reflexivity|].
  assert (Hdue : teardown_due None w2 h).
  { split; [exact Hws2 | split; [now left | now left]]. }
  rewrite (disconnect_due_eq false None w2 h Hdue), Hst2. repeat split.
Qed.

(** X15.  A socket that cannot be built or connected makes [connect] answer
    [False] but leaves the session in state [CONNECTING]; from then on every
    [connect] answers [True] at once and changes nothing, without a socket
    that works. *)
Theorem connect_failed_dial (w : World) (cfg : Settings) :
  state (api w) = INIT \/ state (api w) = DISCONNECTED ->
  settings (api w) = Some cfg ->
  env_dial E (wss cfg) <> DialOk ->
  exists w1,
    connect E user pass timeout w = (w1, Return false)
    /\ state (api w1) = CONNECTING
    /\ forall E' user' pass' timeout',
         connect E' user' pass' timeout' w1 = (w1, Return true).
Proof.
  intros Hst Hset Hdial.
  destruct w as [[m hb ui un pw acct co se st0 ws0 sq cp] sto socks cls].
  cbn [api state settings] in Hst, Hset. subst se.
  unfold connect at 1.
  cbn [api state settings with_api set_state set_credentials with_sockets sockets
       set_ws].
  destruct Hst as [-> | ->]; cbn [State_eqb orb negb];
    destruct (env_dial E (wss cfg)) as [| |fault]; try contradiction;
    eexists; (split; [reflexivity|]); (split; [reflexivity|]);
    intros; reflexivity.
Qed.

End ConnectPaths.

(** The theorems at work on the sample sessions. *)
Lemma connect_true_witness :
  state (api busy_world) = CONNECTED
  \/ (busy_world = busy_world /\ state (api busy_world) = CONNECTING).
Proof.
  apply (connect_true silent_env "user" "secret" 10 busy_world busy_world).
  reflexivity.
Defined.

Lemma connect_login_timeout_witness :
  exists w',
    connect silent_env "user" "secret" 10 idle_world = (w', Return false)
    /\ state (api w') = DISCONNECTED
    /\ ws (api w') = None
    /\ settings (api w') = None
    /\ cmd_promises (api w') = ∅
    /\ seq (api w') = 0%nat.
Proof.
  apply (connect_login_timeout silent_env "user" "secret" 10 idle_world
           (dialled "user" "secret" sample_settings idle_world)
           sample_settings 0%nat);
    first [reflexivity | left; reflexivity].
Defined.

Lemma connect_failed_dial_witness :
  exists w1,
    connect unreachable_env "user" "secret" 10 idle_world = (w1, Return false)
    /\ state (api w1) = CONNECTING
    /\ forall E' user' pass' timeout',
         connect E' user' pass' timeout' w1 = (w1, Return true).
Proof.
  apply (connect_failed_dial unreachable_env "user" "secret" 10 idle_world
           sample_settings).
  - left. reflexivity.
  - reflexivity.
  - discriminate.
Defined.

(* ===================================================================== *)
(** ** More of the command dispatcher *)
(* ===================================================================== *)

Section Registration.

Lemma addCallback_fresh (st : list Promise) (f : nat) :
  addCallback (length st) (Call f) (st ++ [mkPromise Pending [] []])
  = (st ++ [mkPromise Pending [Call f] []], None).
Proof.
  unfold addCallback. rewrite list_lookup_middle by reflexivity.
  cbn [p_state p_callbacks p_errbacks app]. f_equal.
  replace (length st) with (length st + 0)%nat at 1 by lia.
  now rewrite insert_app_r.
Qed.

(** The world just before the write of line 1005. *)
Lemma send_command_prefix name args callback (w : World) (h : nat) :
  ws (api w) = Some h ->
  state (api w) <> DISCONNECTED ->
  send_command name args callback w
  = let w1 := mkWorld (registered (length (store w)) (api w))
                (store w ++ [fresh_cell callback]) (sockets w) (calls w) in
    match ws_send h (mkMsg name (pretty (seq (api w))) (default [] args)) w1 with
    | (w2, Return _) => (w2, Return (length (store w)))
    | (w2, Raise SSLError) | (w2, Raise StreamClosed) =>
        (with_store (store w2 ++ [mkPromise (Rejected SpotifyDisconnectedError) [] []]) w2,
         Return (length (store w)))
    | (w2, Raise e) => (w2, Raise e)
    end.
Proof.
  intros Hws Hst.
  destruct w as [[m hb ui un pw acct co se st0 ws0 sq cp] sto socks cls].
  cbn [api ws state] in Hws, Hst. subst ws0.
  unfold send_command, new_promise, Promise_rejected.
  cbn [with_store api store sockets calls ws state seq].
  destruct (State_eqb st0 DISCONNECTED) eqn:Hd.
  { apply State_eqb_eq in Hd. contradiction. }
  destruct callback as [f|]; [rewrite addCallback_fresh|];
    unfold registered, ws_send, fresh_cell; cbn;
    (destruct (socks !! h) as [s|]; [|reflexivity]);
    destruct (sock_fault s) as [[]|]; reflexivity.
Qed.

(** What [send_command] does to the session object: nothing, or one
    registration. *)
Lemma send_command_api name args callback (w : World) :
  api (fst (send_command name args callback w)) = api w
  \/ api (fst (send_command name args callback w))
     = registered (length (store w)) (api w).
Proof.
  destruct (ws (api w)) as [h|] eqn:Hws.
  - destruct (State_eqb (state (api w)) DISCONNECTED) eqn:Hd.
    + apply State_eqb_eq in Hd. left.
      rewrite send_command_offline_eq by now right. reflexivity.
    + right. rewrite (send_command_prefix name args callback w h Hws).
      * cbn zeta. unfold ws_send. cbn [sockets api].
        destruct (sockets w !! h) as [s|]; [|reflexivity].
        destruct (sock_fault s) as [[]|]; reflexivity.
      * intros Heq. rewrite Heq in Hd. discriminate Hd.
  - left. rewrite send_command_offline_eq by now left. reflexivity.
Qed.

(** The session and the socket after a frame was written. *)
Lemma send_command_written name args callback (w : World) (h : nat) (s : Socket) :
  ws (api w) = Some h ->
  state (api w) <> DISCONNECTED ->
  sockets w !! h = Some s ->
  sock_fault s = None ->
  exists w',
    send_command name args callback w = (w', Return (length (store w)))
    /\ store w' = store w ++ [fresh_cell callback]
    /\ cmd_promises (api w')
       = <[seq (api w) := length (store w)]> (cmd_promises (api w))
    /\ seq (api w') = S (seq (api w))
    /\ sockets w' !! h
       = Some (mkSocket (sock_url s) None
                 (sock_sent s ++ [mkMsg name (pretty (seq (api w))) (default [] args)])
                 (sock_closed s))
    /\ state (api w') = state (api w).
Proof.
  intros Hws Hst Hsock Hfault.
  rewrite (send_command_prefix name args callback w h Hws Hst). cbn zeta.
  unfold ws_send. cbn [sockets]. rewrite Hsock, Hfault.
  eexists. split; [reflexivity|].
  cbn [with_sockets api store sockets registered set_seq set_cmd_promises
       cmd_promises seq state].
  repeat split.
  apply list_lookup_insert_eq. eapply lookup_lt_Some; eauto.
Qed.

(** X16.  A write that succeeds registers the command: on a live socket that
    takes the frame, [send_command] returns a new pending promise (with the
    callback queued on it, if one was given), files it under the sequence
    number in force, advances the counter by one and appends the frame
    [{name, str(seq), args or []}] to what the socket has sent; the state of
    the session is not changed. *)
Theorem send_command_registers name args callback (w : World) (h : nat) (s : Socket) :
  ws (api w) = Some h ->
  state (api w) <> DISCONNECTED ->
  sockets w !! h = Some s ->
  sock_fault s = None ->
  exists w',
    send_command name args callback w = (w', Return (length (store w)))
    /\ store w' = store w ++ [fresh_cell callback]
    /\ cmd_promises (api w')
       = <[seq (api w) := length (store w)]> (cmd_promises (api w))
    /\ seq (api w') = S (seq (api w))
    /\ sockets w' !! h
       = Some (mkSocket (sock_url s) None
                 (sock_sent s ++ [mkMsg name (pretty (seq (api w))) (default [] args)])
                 (sock_closed s))
    /\ state (api w') = state (api w).
Proof.
  intros Hws Hst Hsock Hfault.
  rewrite (send_command_prefix name args callback w h Hws Hst). cbn zeta.
  unfold ws_send. cbn [sockets]. rewrite Hsock, Hfault.
  eexists. split; [reflexivity|].
  cbn [with_sockets api store sockets registered set_seq set_cmd_promises
       cmd_promises seq state].
  repeat split.
  apply list_lookup_insert_eq. eapply lookup_lt_Some; eauto.
Qed.

(** X17.  Sequence numbers are not reused while the table holds them: if
    every pending entry lies below the counter, this is still so after a
    [send_command], whatever its outcome, and after a [disconnect]; and a
    [send_command] keeps every entry that was pending, under the same
    promise. *)
Theorem send_command_keeps_pending name args callback clear_settings original_ws
    (w : World) :
  pending_below_seq (api w) ->
  pending_below_seq (api (fst (send_command name args callback w)))
  /\ (forall pid p,
        cmd_promises (api w) !! pid = Some p ->
        cmd_promises (api (fst (send_command name args callback w))) !! pid = Some p)
  /\ pending_below_seq (api (disconnect clear_settings original_ws w)).
Proof.
  intros Hinv. split; [|split].
  - destruct (send_command_api name args callback w) as [-> | ->]; [exact Hinv|].
    intros pid p. unfold registered. cbn [set_seq set_cmd_promises cmd_promises seq].
    destruct (decide (pid = seq (api w))) as [->|Hne].
    + intros _. lia.
    + rewrite lookup_insert_ne by congruence. intros Hp. apply Hinv in Hp. lia.
  - intros pid p Hp.
    destruct (send_command_api name args callback w) as [-> | ->]; [exact Hp|].
    unfold registered. cbn [set_seq set_cmd_promises cmd_promises].
    rewrite lookup_insert_ne; [exact Hp|].
    apply Hinv in Hp. lia.
  - unfold disconnect. destruct (ws (api w)) as [h|]; [|exact Hinv].
    destruct (State_eqb (state (api w)) INIT); [exact Hinv|].
    destruct (State_eqb (state (api w)) DISCONNECTING
              || State_eqb (state (api w)) DISCONNECTED); [exact Hinv|].
    destruct (match original_ws with
              | Some o => negb (Nat.eqb h o)
              | None => false
              end); [exact Hinv|].
    intros pid p.
    destruct (if State_eqb (state (api w)) CONNECTING then true else clear_settings);
      cbn; rewrite lookup_empty; discriminate.
Qed.

End Registration.

(** The theorems at work on the sample session with two commands in flight. *)
Lemma send_command_registers_witness :
  exists w',
    send_command "sp/echo" None (Some 7%nat) busy_world
    = (w', Return (length (store busy_world)))
    /\ store w' = store busy_world ++ [fresh_cell (Some 7%nat)]
    /\ cmd_promises (api w')
       = <[seq (api busy_world) := length (store busy_world)]>
           (cmd_promises (api busy_world))
    /\ seq (api w') = S (seq (api busy_world))
    /\ sockets w' !! 0%nat
       = Some (mkSocket (sock_url healthy_socket) None
                 (sock_sent healthy_socket
                  ++ [mkMsg "sp/echo" (pretty (seq (api busy_world))) (default [] None)])
                 (sock_closed healthy_socket))
    /\ state (api w') = state (api busy_world).
Proof.
  apply (send_command_registers "sp/echo" None (Some 7%nat) busy_world 0%nat
           healthy_socket); first [reflexivity | discriminate].
Defined.

Lemma busy_world_below_seq : pending_below_seq (api busy_world).
Proof.
  intros pid p. cbn [busy_world api busy_session cmd_promises seq].
  destruct pid as [|[|pid]]; [lia | lia |].
  rewrite !lookup_insert_ne by lia. rewrite lookup_empty. discriminate.
Defined.

Lemma send_command_keeps_pending_witness :
  pending_below_seq (api (fst (send_command "sp/echo" None None busy_world)))
  /\ (forall pid p,
        cmd_promises (api busy_world) !! pid = Some p ->
        cmd_promises (api (fst (send_command "sp/echo" None None busy_world))) !! pid
        = Some p)
  /\ pending_below_seq (api (disconnect false None busy_world)).
Proof.
  apply (send_command_keeps_pending "sp/echo" None None false None busy_world
           busy_world_below_seq).
Defined.

Section Promises.

Lemma ws_send_store h m w : store (fst (ws_send h m w)) = store w.
Proof.
  unfold ws_send. destruct (sockets w !! h) as [s|]; [|reflexivity].
  now destruct (sock_fault s).
Qed.

(** X18.  [send_command] never settles or alters a promise that existed
    before the call, whichever way it ends: on every path the cells of the
    store below the old length are what they were. *)
Theorem send_command_keeps_promises name args callback (w : World) (q : nat) :
  (q < length (store w))%nat ->
  store (fst (send_command name args callback w)) !! q = store w !! q.
Proof.
  intros Hq.
  assert (Hone : forall c, (store w ++ [c]) !! q = store w !! q)
    by (intros c; now apply lookup_app_l).
  assert (Htwo : forall c d, ((store w ++ [c]) ++ [d]) !! q = store w !! q).
  { intros c d. rewrite lookup_app_l by (rewrite length_app; cbn; lia). apply Hone. }
  destruct (ws (api w)) as [h|] eqn:Hws.
  - destruct (State_eqb (state (api w)) DISCONNECTED) eqn:Hd.
    + apply State_eqb_eq in Hd.
      rewrite send_command_offline_eq by now right. apply Htwo.
    + rewrite (send_command_prefix name args callback w h Hws)
        by (intros Heq; rewrite Heq in Hd; discriminate Hd).
      cbn zeta.
      match goal with
      | |- context [ws_send h ?m ?w1] =>
          pose proof (ws_send_store h m w1) as Hst;
          destruct (ws_send h m w1) as [w2 [u|e]]
      end; cbn [fst store] in *.
      * rewrite Hst. apply Hone.
      * destruct e; cbn [fst with_store store]; rewrite Hst;
          first [apply Htwo | apply Hone].
  - rewrite send_command_offline_eq by now left. apply Htwo.
Qed.

End Promises.

Lemma send_command_keeps_promises_witness :
  store (fst (send_command "sp/echo" None None busy_world)) !! 1%nat
  = store busy_world !! 1%nat.
Proof.
  apply (send_command_keeps_promises "sp/echo" None None busy_world 1%nat).
  cbn. lia.
Defined.

Section WrapRequest.

Variable E : Env.
Variable command : string.
Variable args : option (list json).
Variable transform : option (json -> Result json).
Variable timeout : Z.

(** X19.  In callback mode on a session without a live socket (or in state
    [DISCONNECTED]), [wrap_request] hands back a promise that is already
    rejected with [SpotifyDisconnectedError]; the callback is not called,
    nothing is registered and nothing is written. *)
Theorem wrap_request_callback_offline (f : nat) (retries : Z) (w : World) :
  1 <= retries ->
  ws (api w) = None \/ state (api w) = DISCONNECTED ->
  exists p w',
    wrap_request E command args (Some f) transform retries timeout w
    = (w', 1%nat, Return (ReplyPromise p))
    /\ state_of (store w') p = Some (Rejected SpotifyDisconnectedError)
    /\ calls w' = calls w
    /\ api w' = api w
    /\ sockets w' = sockets w.
Proof.
  intros Hretries Hoff. unfold wrap_request.
  destruct (Z.geb_spec retries 1) as [_|]; [|lia]. cbn [negb].
  rewrite send_command_offline_eq by exact Hoff.
  cbn [with_store store].
  set (st := (store w ++ [mkPromise Pending [] []])
               ++ [mkPromise (Rejected SpotifyDisconnectedError) [] []]).
  assert (Hlen : length st = S (S (length (store w)))).
  { unfold st. rewrite !length_app. cbn. lia. }
  assert (Hrej : st !! S (length (store w))
                 = Some (mkPromise (Rejected SpotifyDisconnectedError) [] [])).
  { unfold st. apply list_lookup_middle. rewrite length_app. cbn. lia. }
  unfold then_. rewrite Hrej. cbn [p_state].
  unfold done, addCallback. cbn [with_store store].
  rewrite list_lookup_middle by reflexivity. cbn [p_state].
  eexists _, _. split; [reflexivity|]. cbn [with_store store calls api sockets].
  repeat split. apply state_of_last.
Qed.

(** The loop makes between one and [n] sends when it has [n >= 1]
    iterations to go. *)
Lemma wrap_request_for_sends n : forall last_exception sends (w : World),
  (sends + Nat.min 1 n
   <= snd (fst (wrap_request_for E command args transform timeout n
                  last_exception sends w))
   <= sends + n)%nat.
Proof.
  induction n as [|n IH]; intros last_exception sends w; cbn [wrap_request_for].
  - cbn. lia.
  - destruct (attempt E command args transform timeout w) as [w1 [e|v|e]];
      cbn [fst snd Nat.min]; try lia.
    destruct (is_disconnected e); cbn [fst snd]; [lia|].
    destruct (is_command_error e); cbn [fst snd]; [lia|].
    specialize (IH (Some e) (S sends) w1). destruct n; cbn [Nat.min] in *; lia.
Qed.

(** X20.  A synchronous [wrap_request] with a retry budget of at least one
    makes at least one and at most [retries] calls of [send_command],
    whatever the attempts run into. *)
Theorem wrap_request_sends_bound (retries : Z) (w : World) :
  1 <= retries ->
  (1 <= snd (fst (wrap_request E command args None transform retries timeout w))
   <= Z.to_nat retries)%nat.
Proof.
  intros Hretries. unfold wrap_request.
  destruct (Z.geb_spec retries 1) as [_|]; [|lia]. cbn [negb].
  pose proof (wrap_request_for_sends (Z.to_nat retries) None 0%nat w) as H.
  destruct (Z.to_nat retries) eqn:Hn; [lia|]. cbn [Nat.min] in H. lia.
Qed.

Lemma wrap_request_for_recovers k : forall (w w1 w2 : World) errs v n last_exception sends,
  GenericFailures E command args transform timeout k w errs w1 ->
  attempt E command args transform timeout w1 = (w2, GetReturned v) ->
  wrap_request_for E command args transform timeout (k + S n) last_exception sends w
  = (w2, (sends + S k)%nat, Return (ReplyValue v)).
Proof.
  induction k as [|k IH]; intros w w1 w2 errs v n last_exception sends Hrun Hok;
    inversion Hrun as [|? ? w0 e errs' ? Hatt Hdis Hcmd Hrest]; subst.
  - cbn [Nat.add wrap_request_for]. rewrite Hok. f_equal. f_equal. lia.
  - cbn [Nat.add wrap_request_for]. rewrite Hatt, Hdis, Hcmd.
    rewrite (IH w0 w1 w2 errs' v n (Some e) (S sends) Hrest Hok).
    f_equal. f_equal. lia.
Qed.

(** X21.  Retrying works: when [k] attempts fail generically and the next
    one is answered, within the budget, the synchronous [wrap_request]
    returns the value of that attempt after exactly [k + 1] sends. *)
Theorem wrap_request_recovers (k : nat) (retries : Z) (w w1 w2 : World)
    (errs : list Exn) (v : json) :
  GenericFailures E command args transform timeout k w errs w1 ->
  attempt E command args transform timeout w1 = (w2, GetReturned v) ->
  Z.of_nat k < retries ->
  wrap_request E command args None transform retries timeout w
  = (w2, S k, Return (ReplyValue v)).
Proof.
  intros Hrun Hok Hbudget. unfold wrap_request.
  destruct (Z.geb_spec retries 1) as [_|]; [|lia]. cbn [negb].
  replace (Z.to_nat retries) with (k + S (Z.to_nat retries - S k))%nat by lia.
  now rewrite (wrap_request_for_recovers k w w1 w2 errs v _ None 0%nat Hrun Hok).
Qed.

End WrapRequest.

(** The theorems at work. *)
Lemma wrap_request_callback_offline_witness :
  exists p w',
    wrap_request silent_env "sp/echo" None (Some 7%nat) None 3 10 offline_world
    = (w', 1%nat, Return (ReplyPromise p))
    /\ state_of (store w') p = Some (Rejected SpotifyDisconnectedError)
    /\ calls w' = calls offline_world
    /\ api w' = api offline_world
    /\ sockets w' = sockets offline_world.
Proof.
  apply (wrap_request_callback_offline silent_env "sp/echo" None None 10 7%nat 3
           offline_world).
  - lia.
  - left. reflexivity.
Defined.

Lemma wrap_request_sends_bound_witness :
  (1 <= snd (fst (wrap_request silent_env "sp/echo" None None None 3 10 busy_world))
   <= Z.to_nat 3)%nat.
Proof.
  apply (wrap_request_sends_bound silent_env "sp/echo" None None 10 3 busy_world).
  lia.
Defined.

Lemma second_try_run :
  exists w1,
    GenericFailures second_try_env "sp/echo" None None 10 1 busy_world
      [OtherError "ValueError"] w1
    /\ exists w2,
         attempt second_try_env "sp/echo" None None 10 w1 = (w2, GetReturned (JArr [])).
Proof.
  eexists. split.
  - eapply GenericFailures_cons; [reflexivity | reflexivity | reflexivity |].
    apply GenericFailures_nil.
  - eexists. reflexivity.
Defined.

Lemma wrap_request_recovers_witness :
  exists w2,
    wrap_request second_try_env "sp/echo" None None None 3 10 busy_world
    = (w2, 2%nat, Return (ReplyValue (JArr []))).
Proof.
  destruct second_try_run as (w1 & Hrun & w2 & Hok). exists w2.
  apply (wrap_request_recovers second_try_env "sp/echo" None None 10 1 3
           busy_world w1 w2 _ (JArr []) Hrun Hok).
  lia.
Defined.

Section Leak.

Variable E : Env.
Variable command : string.
Variable args : option (list json).
Variable transform : option (json -> Result json).
Variable timeout : Z.
Hypothesis silent : never_answers E.

(** One attempt that is written and never answered: the entry is filed, the
    counter advances, the socket still takes frames. *)
Lemma attempt_unanswered (w : World) (h : nat) :
  writable w h ->
  exists w' e,
    attempt E command args transform timeout w = (w', GetRaised e)
    /\ is_disconnected e = false /\ is_command_error e = false
    /\ api w' = registered (length (store w)) (api w)
    /\ writable w' h.
Proof.
  intros (Hws & Hst & s & Hsock & Hfault). unfold attempt.
  destruct (send_command_written command args None w h s Hws Hst Hsock Hfault)
    as (w1 & Hsend & Hstore & Htable & Hseq & Hsock1 & Hstate).
  rewrite Hsend.
  destruct (then_ transform (length (store w)) (store w1)) as [st promise].
  destruct (silent promise timeout (with_store st w1)) as (e & Hget & Hdis & Hcmd).
  rewrite Hget. exists (with_store st w1), e.
  split; [reflexivity|]. split; [exact Hdis|]. split; [exact Hcmd|].
  assert (Hapi : api w1 = registered (length (store w)) (api w)).
  { pose proof (send_command_api command args None w) as Hcases.
    rewrite Hsend in Hcases. cbn [fst] in Hcases.
    destruct Hcases as [Hsame | Hreg]; [|exact Hreg].
    rewrite Hsame in Hseq. lia. }
  cbn [with_store api]. split; [exact Hapi|].
  unfold writable. cbn [with_store api sockets].
  split; [rewrite Hapi; exact Hws|].
  split; [rewrite Hstate; exact Hst|].
  eexists. split; [exact Hsock1 | reflexivity].
Qed.

Lemma wrap_request_for_step n last_exception sends (w : World) :
  wrap_request_for E command args transform timeout (S n) last_exception sends w
  = match attempt E command args transform timeout w with
    | (w, SendRaised e) => (w, S sends, Raise e)
    | (w, GetReturned v) => (w, S sends, Return (ReplyValue v))
    | (w, GetRaised e) =>
        if is_disconnected e then (w, S sends, Raise e)
        else if is_command_error e then (w, S sends, Raise e)
        else wrap_request_for E command args transform timeout n
               (Some e) (S sends) w
    end.
Proof. reflexivity. Qed.

Lemma wrap_request_for_unanswered n : forall (w : World) (h : nat) last_exception sends,
  writable w h ->
  pending_below_seq (api w) ->
  exists w' e,
    wrap_request_for E command args transform timeout (S n) last_exception sends w
    = (w', (sends + S n)%nat, Raise e)
    /\ seq (api w') = (seq (api w) + S n)%nat
    /\ pending_below_seq (api w')
    /\ (forall pid, is_Some (cmd_promises (api w) !! pid) ->
                    is_Some (cmd_promises (api w') !! pid))
    /\ forall k, (k < S n)%nat -> is_Some (cmd_promises (api w') !! (seq (api w) + k)%nat).
Proof.
  induction n as [|n IH]; intros w h last_exception sends Hw Hinv;
    destruct (attempt_unanswered w h Hw) as (w1 & e & Hatt & Hdis & Hcmd & Hapi & Hw1);
    rewrite wrap_request_for_step, Hatt, Hdis, Hcmd.
  all: assert (Hinv1 : pending_below_seq (api w1)).
  all: try (rewrite Hapi; intros pid p; unfold registered;
            cbn [set_seq set_cmd_promises cmd_promises seq];
            destruct (decide (pid = seq (api w))) as [->|Hne];
            [intros _; lia
            | rewrite lookup_insert_ne by congruence; intros Hp; apply Hinv in Hp; lia]).
  all: assert (Hkeep : forall pid, is_Some (cmd_promises (api w) !! pid) ->
                                   is_Some (cmd_promises (api w1) !! pid)).
  all: try (intros pid [p Hp]; rewrite Hapi; unfold registered;
            cbn [set_seq set_cmd_promises cmd_promises];
            rewrite lookup_insert_ne; [eauto | apply Hinv in Hp; lia]).
  all: assert (Hnew : is_Some (cmd_promises (api w1) !! seq (api w))).
  all: try (rewrite Hapi; unfold registered;
            cbn [set_seq set_cmd_promises cmd_promises];
            rewrite lookup_insert_eq; eauto).
  all: assert (Hseq1 : seq (api w1) = S (seq (api w))) by (now rewrite Hapi).
  - exists w1, e. cbn [wrap_request_for default].
    replace (sends + 1)%nat with (S sends) by lia.
    split; [reflexivity|]. split; [lia|]. split; [exact Hinv1|].
    split; [exact Hkeep|].
    intros k Hk. replace (seq (api w) + k)%nat with (seq (api w)) by lia. exact Hnew.
  - destruct (IH w1 h (Some e) (S sends) Hw1 Hinv1)
      as (w' & e' & Hloop & Hseq' & Hinv' & Hkeep' & Hnew').
    exists w', e'. rewrite Hloop.
    replace (sends + S (S n))%nat with (S sends + S n)%nat by lia.
    split; [reflexivity|]. split; [lia|]. split; [exact Hinv'|].
    split; [intros pid Hp; apply Hkeep', Hkeep, Hp|].
    intros k Hk. destruct k as [|k].
    + rewrite Nat.add_0_r. apply Hkeep', Hnew.
    + replace (seq (api w) + S k)%nat with (seq (api w1) + k)%nat by lia.
      apply Hnew'. lia.
Qed.

(** X22.  Attempts that are never answered stay in the pending table: when
    every wait ends without a reply, a synchronous [wrap_request] with a
    budget of [n >= 1] on a session that can write makes [n] sends, uses up
    [n] sequence numbers and leaves all [n] entries registered next to the
    ones that were pending before; nothing removes an entry when its wait is
    given up. *)
Theorem wrap_request_leaves_entries (n : nat) (w : World) (h : nat) :
  writable w h ->
  pending_below_seq (api w) ->
  (1 <= n)%nat ->
  exists w' e,
    wrap_request E command args None transform (Z.of_nat n) timeout w
    = (w', n, Raise e)
    /\ seq (api w') = (seq (api w) + n)%nat
    /\ (forall pid, is_Some (cmd_promises (api w) !! pid) ->
                    is_Some (cmd_promises (api w') !! pid))
    /\ forall k, (k < n)%nat -> is_Some (cmd_promises (api w') !! (seq (api w) + k)%nat).
Proof.
  intros Hw Hinv Hn. unfold wrap_request.
  destruct (Z.geb_spec (Z.of_nat n) 1) as [_|]; [|lia]. cbn [negb].
  rewrite Nat2Z.id. destruct n as [|n]; [lia|].
  destruct (wrap_request_for_unanswered n w h None 0%nat Hw Hinv)
    as (w' & e & Hloop & Hseq & _ & Hkeep & Hnew).
  exists w', e. rewrite Hloop. repeat split; assumption.
Qed.

End Leak.

Lemma silent_env_never_answers : never_answers silent_env.
Proof.
  intros p timeout w. eexists. split; [reflexivity | split; reflexivity].
Defined.

Lemma busy_world_writable : writable busy_world 0%nat.
Proof.
  split; [reflexivity | split; [discriminate|]].
  exists healthy_socket. split; reflexivity.
Defined.

(** The theorem at work: three unanswered attempts on the sample session. *)
Lemma wrap_request_leaves_entries_witness :
  exists w' e,
    wrap_request silent_env "sp/echo" None None None (Z.of_nat 3) 10 busy_world
    = (w', 3%nat, Raise e)
    /\ seq (api w') = (seq (api busy_world) + 3)%nat
    /\ (forall pid, is_Some (cmd_promises (api busy_world) !! pid) ->
                    is_Some (cmd_promises (api w') !! pid))
    /\ forall k, (k < 3)%nat ->
                 is_Some (cmd_promises (api w') !! (seq (api busy_world) + k)%nat).
Proof.
  apply (wrap_request_leaves_entries silent_env "sp/echo" None None 10
           silent_env_never_answers 3 busy_world 0%nat
           busy_world_writable busy_world_below_seq).
  lia.
Defined.

(* ===================================================================== *)
(** ** Inbound dispatch *)
(* ===================================================================== *)

Section Inbound.

Variable E : Env.
Variable work_callback : nat.

(** Settling the promise that [send_command] just made. *)
Lemma settle_fresh (st : list Promise) (callback : option nat) (o : Settlement)
    (log : list (nat * json)) :
  o <> Pending ->
  settle (length (st ++ [fresh_cell callback])) (length st) o
    (st ++ [fresh_cell callback]) log
  = (st ++ [mkPromise o [] []],
     log ++ match o with
            | Fulfilled v => called_back callback v
            | _ => []
            end).
Proof.
  intros Ho. rewrite length_app. cbn [length]. rewrite Nat.add_1_r.
  cbn [settle]. rewrite list_lookup_middle by reflexivity.
  assert (Hins : forall c, <[length st := c]> (st ++ [fresh_cell callback]) = st ++ [c]).
  { intros c. replace (length st) with (length st + 0)%nat at 1 by lia.
    now rewrite insert_app_r. }
  unfold fresh_cell at 1 2 3. cbn [p_state p_callbacks p_errbacks].
  destruct o as [|v|r]; [contradiction| |].
  - rewrite Hins. destruct callback as [f|]; cbn [fold_left fst snd called_back];
      [reflexivity | now rewrite app_nil_r].
  - rewrite Hins. cbn [fold_left]. now rewrite app_nil_r.
Qed.

Lemma pid_of_nat (pid : nat) : pid_of (JNum (Z.of_nat pid)) = Return (Some pid).
Proof.
  cbn [pid_of]. destruct (Z.leb_spec 0 (Z.of_nat pid)); [|lia]. now rewrite Nat2Z.id.
Qed.

(** The world after a write that succeeded. *)
Lemma send_command_online_eq name args callback (w : World) (h : nat) (s : Socket) :
  ws (api w) = Some h ->
  state (api w) <> DISCONNECTED ->
  sockets w !! h = Some s ->
  sock_fault s = None ->
  send_command name args callback w
  = (mkWorld (registered (length (store w)) (api w))
       (store w ++ [fresh_cell callback])
       (<[h := mkSocket (sock_url s) None
                 (sock_sent s ++ [mkMsg name (pretty (seq (api w))) (default [] args)])
                 (sock_closed s)]> (sockets w))
       (calls w),
     Return (length (store w))).
Proof.
  intros Hws Hst Hsock Hfault.
  rewrite (send_command_prefix name args callback w h Hws Hst). cbn zeta.
  unfold ws_send. cbn [sockets]. now rewrite Hsock, Hfault.
Qed.

(** X23.  A reply finds its command.  After a [send_command] that was
    written, the frame [{"id": seq, "result": r}] with the sequence number
    the command went out with fulfils the very promise [send_command]
    returned with [r], runs the callback given to [send_command] once with
    [r], and takes the entry out of the pending table, which is then what it
    was before the command; the counter keeps its advance. *)
Theorem send_command_then_reply name args callback (w : World) (h : nat)
    (result : json) :
  writable w h ->
  pending_below_seq (api w) ->
  exists w1 w2 p,
    send_command name args callback w = (w1, Return p)
    /\ recv_packet E work_callback (result_frame (seq (api w)) result) w1
       = (w2, Return tt)
    /\ state_of (store w2) p = Some (Fulfilled result)
    /\ calls w2 = calls w ++ called_back callback result
    /\ cmd_promises (api w2) = cmd_promises (api w)
    /\ seq (api w2) = S (seq (api w)).
Proof.
  intros (Hws & Hst & s & Hsock & Hfault) Hinv.
  eexists _, _, _. split; [now apply (send_command_online_eq _ _ _ w h s)|].
  unfold recv_packet, result_frame. cbn [pk_error pk_message pk_id pk_result].
  rewrite pid_of_nat. unfold registered at 1.
  cbn [api set_seq set_cmd_promises cmd_promises].
  rewrite lookup_insert_eq.
  unfold settle_promise, pop_promise. cbn [with_api api store sockets calls].
  rewrite settle_fresh by discriminate.
  split; [reflexivity|]. cbn [store calls api].
  split; [apply state_of_last|]. split; [reflexivity|].
  unfold registered. cbn [set_seq set_cmd_promises cmd_promises seq].
  split; [|reflexivity].
  rewrite delete_insert_eq. apply delete_id.
  destruct (cmd_promises (api w) !! seq (api w)) as [p|] eqn:Hp; [|reflexivity].
  apply Hinv in Hp. lia.
Qed.

(** A reply nobody waits for is dropped.  A frame without ["error"]
    and ["message"] whose id is a string or [null], or a number that is not
    a key of the pending table, changes nothing and raises nothing; in
    particular an id sent back as the string it went out as ([str(seq)])
    settles nothing, even when its digits name a pending command. *)
Lemma recv_packet_unmatched (j : json) (result : option json) (w : World) :
  pid_of j = Return None
  \/ (exists pid, pid_of j = Return (Some pid) /\ cmd_promises (api w) !! pid = None) ->
  recv_packet E work_callback (mkPacket None None (Some j) result) w = (w, Return tt).
Proof.
  unfold recv_packet. cbn [pk_error pk_message pk_id pk_result].
  intros [-> | (pid & -> & ->)]; reflexivity.
Qed.

(** X24.  An error frame rejects its command.  After a [send_command] that
    was written, the frame [{"error": [major, minor], "id": seq}] rejects the
    promise [send_command] returned with a [SpotifyCommandError] that
    carries the two codes and their text, takes the entry out of the pending
    table and does not run the callback. *)
Theorem send_command_then_error name args callback (w : World) (h : nat)
    (major minor : Z) :
  writable w h ->
  pending_below_seq (api w) ->
  exists w1 w2 p,
    send_command name args callback w = (w1, Return p)
    /\ handle_error (error_frame major minor (seq (api w))) w1 = (w2, Return tt)
    /\ recv_packet E work_callback (error_frame major minor (seq (api w))) w1
       = (w2, Return tt)
    /\ state_of (store w2) p
       = Some (Rejected (SpotifyCommandError major minor (error_str major minor)))
    /\ calls w2 = calls w
    /\ cmd_promises (api w2) = cmd_promises (api w).
Proof.
  intros (Hws & Hst & s & Hsock & Hfault) Hinv.
  eexists _, _, _. split; [now apply (send_command_online_eq _ _ _ w h s)|].
  assert (Hhandle : forall w2,
            handle_error (error_frame major minor (seq (api w)))
              (mkWorld (registered (length (store w)) (api w))
                 (store w ++ [fresh_cell callback])
                 (<[h := mkSocket (sock_url s) None
                           (sock_sent s
                            ++ [mkMsg name (pretty (seq (api w))) (default [] args)])
                           (sock_closed s)]> (sockets w))
                 (calls w)) = w2 ->
            recv_packet E work_callback (error_frame major minor (seq (api w)))
              (mkWorld (registered (length (store w)) (api w))
                 (store w ++ [fresh_cell callback])
                 (<[h := mkSocket (sock_url s) None
                           (sock_sent s
                            ++ [mkMsg name (pretty (seq (api w))) (default [] args)])
                           (sock_closed s)]> (sockets w))
                 (calls w)) = w2) by (intros w2 <-; reflexivity).
  unfold handle_error at 1. unfold error_frame at 1 2.
  cbn [pk_error pk_id]. rewrite pid_of_nat. unfold registered at 1.
  cbn [api set_seq set_cmd_promises cmd_promises].
  rewrite lookup_insert_eq.
  unfold settle_promise, pop_promise. cbn [with_api api store sockets calls].
  rewrite settle_fresh by discriminate.
  split; [reflexivity|].
  split.
  { apply Hhandle. unfold handle_error, error_frame.
    cbn [pk_error pk_id]. rewrite pid_of_nat. unfold registered at 1.
    cbn [api set_seq set_cmd_promises cmd_promises].
    rewrite lookup_insert_eq.
    unfold settle_promise, pop_promise. cbn [with_api api store sockets calls].
    now rewrite settle_fresh by discriminate. }
  cbn [store calls api].
  split; [apply state_of_last|]. split; [now rewrite app_nil_r|].
  unfold registered. cbn [set_seq set_cmd_promises cmd_promises seq].
  rewrite delete_insert_eq. apply delete_id.
  destruct (cmd_promises (api w) !! seq (api w)) as [p|] eqn:Hp; [|reflexivity].
  apply Hinv in Hp. lia.
Qed.

End Inbound.

(** The theorems at work on the sample session with two commands in flight. *)
Lemma send_command_then_reply_witness :
  exists w1 w2 p,
    send_command "sp/echo" None (Some 7%nat) busy_world = (w1, Return p)
    /\ recv_packet silent_env 0%nat
         (result_frame (seq (api busy_world)) (JArr [JStr "ok"])) w1
       = (w2, Return tt)
    /\ state_of (store w2) p = Some (Fulfilled (JArr [JStr "ok"]))
    /\ calls w2 = calls busy_world ++ called_back (Some 7%nat) (JArr [JStr "ok"])
    /\ cmd_promises (api w2) = cmd_promises (api busy_world)
    /\ seq (api w2) = S (seq (api busy_world)).
Proof.
  apply (send_command_then_reply silent_env 0%nat "sp/echo" None (Some 7%nat)
           busy_world 0%nat (JArr [JStr "ok"]) busy_world_writable
           busy_world_below_seq).
Defined.

Lemma recv_packet_unmatched_witness :
  recv_packet silent_env 0%nat
    (mkPacket None None (Some (JStr "0")) (Some (JArr []))) busy_world
  = (busy_world, Return tt).
Proof.
  apply (recv_packet_unmatched silent_env 0%nat (JStr "0") (Some (JArr []))
           busy_world).
  left. reflexivity.
Defined.

Lemma send_command_then_error_witness :
  exists w1 w2 p,
    send_command "sp/echo" None (Some 7%nat) busy_world = (w1, Return p)
    /\ handle_error (error_frame 8 8 (seq (api busy_world))) w1 = (w2, Return tt)
    /\ recv_packet silent_env 0%nat (error_frame 8 8 (seq (api busy_world))) w1
       = (w2, Return tt)
    /\ state_of (store w2) p
       = Some (Rejected (SpotifyCommandError 8 8 (error_str 8 8)))
    /\ calls w2 = calls busy_world
    /\ cmd_promises (api w2) = cmd_promises (api busy_world).
Proof.
  apply (send_command_then_error silent_env 0%nat "sp/echo" None (Some 7%nat)
           busy_world 0%nat 8 8 busy_world_writable busy_world_below_seq).
Defined.

(** The texts of two error frames (lines 1159-1186). *)
Example error_str_samples :
  error_str 8 8 = "Rate request error - rate limited"
  /\ error_str 12 0 = "Track error"
  /\ error_str 99 408 = "unknown major (99) - timeout".
Proof. repeat split. Qed.

Section Ping.

Lemma lxor_byte a b : 0 <= a < 256 -> 0 <= b < 256 -> 0 <= Z.lxor a b < 256.
Proof.
  intros Ha Hb.
  assert (Hlog : forall x, 0 <= x < 256 -> Z.log2 x < 8).
  { intros x Hx. destruct (Z.eq_dec x 0) as [->|Hx0]; [cbn; lia|].
    apply (proj1 (Z.log2_lt_pow2 x 8 ltac:(lia))). change (2 ^ 8) with 256. lia. }
  assert (Hnonneg : 0 <= Z.lxor a b) by (apply Z.lxor_nonneg; lia).
  split; [exact Hnonneg|].
  destruct (Z.eq_dec (Z.lxor a b) 0) as [->|Hne]; [lia|].
  change 256 with (2 ^ 8).
  apply (proj2 (Z.log2_lt_pow2 (Z.lxor a b) 8 ltac:(lia))).
  pose proof (Z.log2_lxor a b ltac:(lia) ltac:(lia)) as Hmax.
  pose proof (Hlog a Ha). pose proof (Hlog b Hb). lia.
Qed.

End Ping.

Section PingReply.

Lemma key_entries_ok : forallb key_entry_ok ping_key = true.
Proof. vm_compute. reflexivity. Qed.

Lemma getitem_byte (input : list Z) (idx : nat) :
  (idx < length input)%nat -> bytes_only input ->
  exists val, getitem input idx = Return val /\ 0 <= val < 256.
Proof.
  intros Hidx Hbytes. unfold getitem.
  destruct (nth_error input idx) as [val|] eqn:Hval.
  - exists val. split; [reflexivity|].
    unfold bytes_only in Hbytes. rewrite List.Forall_forall in Hbytes.
    apply Hbytes. eapply nth_error_In; eauto.
  - apply nth_error_None in Hval. lia.
Qed.

Lemma ping_output_ok (key : list PingKey) (input : list Z) :
  forallb key_entry_ok key = true ->
  (18 <= length input)%nat ->
  bytes_only input ->
  exists out,
    ping_output key input = Return out
    /\ length out = length key
    /\ bytes_only out.
Proof.
  intros Hkey Hlen Hbytes. induction key as [|k key IH].
  - exists []. repeat split. constructor.
  - cbn [forallb] in Hkey. apply andb_true_iff in Hkey as [Hk Hrest].
    destruct (IH Hrest) as (outs & Houts & Hlen' & Hbytes').
    assert (Hone : exists o,
               match k with
               | KeyXor idx xor =>
                   bind (getitem input idx) (fun val => Return (Z.lxor val xor))
               | KeyMap idx arr =>
                   bind (getitem input idx) (fun val => getitem_z arr val)
               end = Return o /\ 0 <= o < 256).
    { destruct k as [idx xor | idx arr]; cbn [key_entry_ok] in Hk.
      - apply andb_true_iff in Hk as [Hk Hhi]. apply andb_true_iff in Hk as [Hidx Hlo].
        apply Nat.ltb_lt in Hidx. apply Z.leb_le in Hlo. apply Z.ltb_lt in Hhi.
        destruct (getitem_byte input idx ltac:(lia) Hbytes) as (val & -> & Hval).
        cbn [bind]. eexists. split; [reflexivity|]. apply lxor_byte; lia.
      - apply andb_true_iff in Hk as [Hk Harr]. apply andb_true_iff in Hk as [Hidx Hsize].
        apply Nat.ltb_lt in Hidx. apply Nat.eqb_eq in Hsize.
        destruct (getitem_byte input idx ltac:(lia) Hbytes) as (val & -> & Hval).
        cbn [bind]. unfold getitem_z. rewrite Hsize.
        destruct (Z.leb_spec 0 val); [|lia].
        destruct (Z.ltb_spec val (Z.of_nat 256)); [|lia]. cbn [andb].
        destruct (nth_error arr (Z.to_nat val)) as [o|] eqn:Ho.
        + exists o. split; [reflexivity|].
          rewrite forallb_forall in Harr.
          specialize (Harr o (nth_error_In _ _ Ho)).
          apply andb_true_iff in Harr as [Hlo Hhi].
          apply Z.leb_le in Hlo. apply Z.ltb_lt in Hhi. lia.
        + apply nth_error_None in Ho. lia. }
    destruct Hone as (o & Ho & Hbyte).
    exists (o :: outs). cbn [ping_output]. rewrite Ho, Houts. cbn [bind].
    split; [reflexivity|]. split; [cbn; lia | now constructor].
Qed.

(** X25.  The pong is well formed.  For a ping of at least 18 numbers that
    are all bytes, the loop over the key never leaves a table or the ping:
    it raises nothing and yields exactly ten numbers, all bytes again. *)
Theorem ping_output_bytes (input : list Z) :
  (18 <= length input)%nat ->
  bytes_only input ->
  exists out,
    ping_output ping_key input = Return out
    /\ length out = 10%nat
    /\ bytes_only out.
Proof.
  intros Hlen Hbytes.
  destruct (ping_output_ok ping_key input key_entries_ok Hlen Hbytes)
    as (out & Hout & Hsize & Hbyte).
  exists out. split; [exact Hout|]. split; [exact Hsize | exact Hbyte].
Qed.

(** A ping in the wire format and its pong. *)
Example pong_of_sample :
  pong_of "0 1 2 3 4 5 6 7 8 9 10 11 12 13 14 15 16 17 18 19"
  = Return "154 66 188 1 184 206 120 229 9 55".
Proof. vm_compute. reflexivity. Qed.

(** A ping with too few numbers finds no entry at index 8. *)
Example pong_of_short : pong_of "0 1 2 3 4 5 6 7" = Raise IndexError.
Proof. vm_compute. reflexivity. Qed.

End PingReply.

Lemma ping_output_bytes_witness :
  exists out,
    ping_output ping_key [0; 1; 2; 3; 4; 5; 6; 7; 8; 9; 10; 11; 12; 13; 14; 15; 16; 255]
    = Return out
    /\ length out = 10%nat
    /\ bytes_only out.
Proof.
  apply (ping_output_bytes
           [0; 1; 2; 3; 4; 5; 6; 7; 8; 9; 10; 11; 12; 13; 14; 15; 16; 255]).
  - cbn. lia.
  - unfold bytes_only. repeat constructor; lia.
Defined.

(* ===================================================================== *)
(** ** Login handshake *)
(* ===================================================================== *)

Section Magic.

Lemma b64_char_nat (n : nat) :
  (n < 64)%nat ->
  index_from 0%nat (digit_char b64alphabet (Z.of_nat n)) b64alphabet = Some n.
Proof. intros Hn. do 64 (destruct n as [|n]; [reflexivity|]). lia. Qed.

(** A character of the alphabet names its six bits. *)
Lemma b64_char_value (v : Z) (c : ascii) (n : nat) :
  0 <= v < 64 ->
  digit_char b64alphabet v = c ->
  index_from 0%nat c b64alphabet = Some n ->
  v = Z.of_nat n.
Proof.
  intros Hv <- Hidx. rewrite <- (Z2Nat.id v) in Hidx by lia.
  rewrite b64_char_nat in Hidx by lia. injection Hidx as <-. lia.
Qed.

Lemma b64_char_not_pad (v : Z) : digit_char b64alphabet v <> "="%char.
Proof.
  unfold digit_char. generalize (Z.to_nat v). intros n.
  do 64 (destruct n as [|n]; [discriminate|]). discriminate.
Qed.

Lemma ascii_of_ord (c : ascii) (x : Z) : ord c = x -> c = ascii_of_nat (Z.to_nat x).
Proof.
  unfold ord. intros <-. rewrite Nat2Z.id. symmetry. apply ascii_nat_embedding.
Qed.

(** One full group: the four characters give the three bytes. *)
Lemma b64_group (a b c : ascii) (c1 c2 c3 c4 : ascii) (n1 n2 n3 n4 : nat) :
  digit_char b64alphabet (ord a / 4) = c1 ->
  digit_char b64alphabet (ord a mod 4 * 16 + ord b / 16) = c2 ->
  digit_char b64alphabet (ord b mod 16 * 4 + ord c / 64) = c3 ->
  digit_char b64alphabet (ord c mod 64) = c4 ->
  index_from 0%nat c1 b64alphabet = Some n1 ->
  index_from 0%nat c2 b64alphabet = Some n2 ->
  index_from 0%nat c3 b64alphabet = Some n3 ->
  index_from 0%nat c4 b64alphabet = Some n4 ->
  ord a = Z.of_nat n1 * 4 + Z.of_nat n2 / 16
  /\ ord b = Z.of_nat n2 mod 16 * 16 + Z.of_nat n3 / 4
  /\ ord c = Z.of_nat n3 mod 4 * 64 + Z.of_nat n4.
Proof.
  intros H1 H2 H3 H4 I1 I2 I3 I4.
  pose proof (ord_range a) as Ha. pose proof (ord_range b) as Hb.
  pose proof (ord_range c) as Hc.
  apply (b64_char_value _ _ n1) in H1; [|Z.to_euclidean_division_equations; lia | exact I1].
  apply (b64_char_value _ _ n2) in H2; [|Z.to_euclidean_division_equations; lia | exact I2].
  apply (b64_char_value _ _ n3) in H3; [|Z.to_euclidean_division_equations; lia | exact I3].
  apply (b64_char_value _ _ n4) in H4; [|Z.to_euclidean_division_equations; lia | exact I4].
  rewrite <- H1, <- H2, <- H3, <- H4.
  repeat split; Z.to_euclidean_division_equations; lia.
Qed.

(** The test of line 452 accepts one catalogue name only. *)
Lemma magic_premium (s : string) :
  String.eqb (b64encode s) "cHJlbWl1bQ==" = String.eqb s "premium".
Proof.
  destruct (String.eqb_spec s "premium") as [->|Hne]; [reflexivity|].
  apply String.eqb_neq. intros Henc. apply Hne. clear Hne.
  destruct s as [|a1 [|a2 [|a3 s]]]; try discriminate Henc.
  cbn [b64encode] in Henc. injection Henc as G1 G2 G3 G4 Henc.
  destruct (b64_group a1 a2 a3 _ _ _ _ 28 7 9 37 G1 G2 G3 G4
              eq_refl eq_refl eq_refl eq_refl) as (E1 & E2 & E3).
  apply ascii_of_ord in E1, E2, E3. subst a1 a2 a3. clear G1 G2 G3 G4.
  destruct s as [|a4 [|a5 [|a6 s]]]; try discriminate Henc.
  cbn [b64encode] in Henc. injection Henc as G1 G2 G3 G4 Henc.
  destruct (b64_group a4 a5 a6 _ _ _ _ 27 22 37 53 G1 G2 G3 G4
              eq_refl eq_refl eq_refl eq_refl) as (E1 & E2 & E3).
  apply ascii_of_ord in E1, E2, E3. subst a4 a5 a6. clear G1 G2 G3 G4.
  destruct s as [|a7 [|a8 [|a9 s]]]; try discriminate Henc.
  - cbn [b64encode] in Henc. injection Henc as G1 G2.
    pose proof (ord_range a7) as Ha.
    apply (b64_char_value _ _ 27) in G1;
      [|Z.to_euclidean_division_equations; lia | reflexivity].
    apply (b64_char_value _ _ 16) in G2;
      [|Z.to_euclidean_division_equations; lia | reflexivity].
    assert (E7 : ord a7 = 109)
      by (Z.to_euclidean_division_equations; lia).
    apply ascii_of_ord in E7. subst a7. reflexivity.
  - cbn [b64encode] in Henc. injection Henc. intros.
    exfalso. eapply b64_char_not_pad. eassumption.
  - cbn [b64encode] in Henc. injection Henc. intros.
    exfalso. eapply b64_char_not_pad. eassumption.
Qed.

End Magic.

Section Handshake.

(** X26.  The end of the login handshake.  When the reply to [sp/user_info]
    arrives on a session that can write, in state [CONNECTING] or
    [CONNECTED], the session takes over the user's country and catalogue and
    sets the login event in every case, but it becomes [CONNECTED] (with a
    heartbeat thread running) exactly when the catalogue is the string
    ["premium"]; for every other catalogue, ["unlimited"] and ["free"]
    included, it is torn down to [DISCONNECTED] without a socket.  The login
    callback, if there is one, is told which of the two happened. *)
Theorem populate_userdata_premium_only (heartbeat_thread : bool)
    (login_callback_func : option nat) (resp : UserInfo) (w : World) (h : nat) :
  writable w h ->
  state (api w) = CONNECTING \/ state (api w) = CONNECTED ->
  exists w' hb,
    populate_userdata_callback heartbeat_thread login_callback_func resp w
    = (w', Return hb)
    /\ logged_in_marker (api w') = true
    /\ account_type (api w') = Some (ui_catalogue resp)
    /\ country (api w') = Some (ui_country resp)
    /\ is_logged_in (api w') = String.eqb (ui_catalogue resp) "premium"
    /\ (if String.eqb (ui_catalogue resp) "premium"
        then state (api w') = CONNECTED /\ hb = true
        else state (api w') = DISCONNECTED /\ ws (api w') = None
             /\ hb = heartbeat_thread)
    /\ calls w'
       = calls w ++ called_back login_callback_func
                      (JBool (String.eqb (ui_catalogue resp) "premium")).
Proof.
  intros (Hws & Hnot & s & Hsock & Hfault) Hst.
  unfold populate_userdata_callback.
  rewrite (send_command_online_eq _ _ None w h s Hws Hnot Hsock Hfault).
  rewrite magic_premium.
  destruct w as [[m hb0 ui un pw acct co se st0 ws0 sq cp] sto socks cls].
  cbn [api ws state] in Hws, Hst. subst ws0.
  unfold registered.
  cbn [with_api api store sockets calls set_userdata set_seq set_cmd_promises
       logged_in_marker heartbeat_marker userid username password account_type
       country settings state ws seq cmd_promises].
  destruct (String.eqb (ui_catalogue resp) "premium").
  - destruct login_callback_func as [f|];
      cbn [with_api api store sockets calls set_state set_logged_in_marker
           logged_in_marker heartbeat_marker userid username password account_type
           country settings state ws seq cmd_promises is_logged_in State_eqb
           called_back];
      (eexists _, _; split; [reflexivity|]);
      cbn [api calls logged_in_marker account_type country state is_logged_in
           State_eqb]; rewrite ?app_nil_r; repeat split.
  - cbn [sockets] in Hsock.
    assert (Hlt : (h < length socks)%nat) by (eapply lookup_lt_Some; eassumption).
    unfold disconnect, ws_close.
    destruct Hst as [-> | ->];
      cbv [with_api with_sockets api store sockets calls set_userdata set_seq
           set_cmd_promises set_state set_ws set_logged_in_marker set_settings
           logged_in_marker heartbeat_marker userid username password
           account_type country settings state ws seq cmd_promises
           State_eqb orb];
      rewrite (list_lookup_insert_eq socks h _ Hlt);
      destruct login_callback_func as [f|];
      (eexists _, _; split; [reflexivity|]);
      cbn [api calls logged_in_marker account_type country state ws
           is_logged_in State_eqb called_back andb];
      rewrite ?app_nil_r; repeat split.
Qed.

End Handshake.

(** The theorem at work: an "unlimited" account at the end of the handshake. *)
Lemma dialled_writable :
  writable (dialled "user" "secret" sample_settings idle_world) 0%nat.
Proof.
  split; [reflexivity | split; [discriminate|]].
  eexists. split; reflexivity.
Defined.

Lemma populate_userdata_premium_only_witness :
  exists w' hb,
    populate_userdata_callback false (Some 5%nat) (mkUserInfo "user" "SE" "unlimited")
      (dialled "user" "secret" sample_settings idle_world)
    = (w', Return hb)
    /\ logged_in_marker (api w') = true
    /\ account_type (api w') = Some "unlimited"
    /\ country (api w') = Some "SE"
    /\ is_logged_in (api w') = String.eqb "unlimited" "premium"
    /\ (if String.eqb "unlimited" "premium"
        then state (api w') = CONNECTED /\ hb = true
        else state (api w') = DISCONNECTED /\ ws (api w') = None /\ hb = false)
    /\ calls w'
       = calls (dialled "user" "secret" sample_settings idle_world)
         ++ called_back (Some 5%nat) (JBool (String.eqb "unlimited" "premium")).
Proof.
  apply (populate_userdata_premium_only false (Some 5%nat)
           (mkUserInfo "user" "SE" "unlimited")
           (dialled "user" "secret" sample_settings idle_world) 0%nat
           dialled_writable).
  left. reflexivity.
Defined.

(* ===================================================================== *)
(** ** Search *)
(* ===================================================================== *)

Section Search.

Lemma search_types_code (name : string) (c : Z) :
  search_types name = Some c -> search_code c.
Proof.
  unfold search_types, search_code.
  repeat match goal with
         | |- context [String.eqb ?a ?b] => destruct (String.eqb a b)
         end; intros [= <-]; auto.
Qed.

Lemma search_types_inj (n n' : string) (c : Z) :
  search_types n = Some c -> search_types n' = Some c -> n = n'.
Proof.
  unfold search_types. intros H H'.
  repeat match type of H with
         | context [String.eqb ?a ?b] => destruct (String.eqb_spec a b)
         end;
  repeat match type of H' with
         | context [String.eqb ?a ?b] => destruct (String.eqb_spec a b)
         end; congruence.
Qed.

Lemma lor_flag (a x c : Z) :
  0 <= a <= 15 -> search_code x -> search_code c ->
  0 <= Z.lor a x <= 15
  /\ (Z.land (Z.lor a x) c = c <-> Z.land a c = c \/ x = c).
Proof.
  intros Ha Hx Hc.
  assert (Ha' : a = 0 \/ a = 1 \/ a = 2 \/ a = 3 \/ a = 4 \/ a = 5 \/ a = 6
                \/ a = 7 \/ a = 8 \/ a = 9 \/ a = 10 \/ a = 11 \/ a = 12
                \/ a = 13 \/ a = 14 \/ a = 15) by lia.
  clear Ha.
  unfold search_code in Hx, Hc.
  repeat (destruct Ha' as [-> | Ha']); try subst a;
    destruct Hx as [-> | [-> | [-> | ->]]];
    destruct Hc as [-> | [-> | [-> | ->]]]; eval_bits; lia.
Qed.

(** [reduce(operator.or_, ...)] over search codes collects their bits. *)
Lemma reduce_flags (l : list Z) :
  Forall search_code l ->
  forall a, 0 <= a <= 15 ->
    0 <= fold_left Z.lor l a <= 15
    /\ forall c, search_code c ->
         (Z.land (fold_left Z.lor l a) c = c <-> Z.land a c = c \/ In c l).
Proof.
  induction 1 as [|x l Hx Hl IH]; intros a Ha; cbn [fold_left In].
  - split; [exact Ha | intros c _; tauto].
  - destruct (lor_flag a x x Ha Hx Hx) as [Hb _].
    destruct (IH _ Hb) as [Hr Hbits].
    split; [exact Hr|].
    intros c Hc. rewrite (Hbits c Hc).
    destruct (lor_flag a x c Ha Hx Hc) as [_ ->]. tauto.
Qed.

Lemma land_code (x c : Z) :
  search_code x -> search_code c -> (Z.land x c = c <-> x = c).
Proof.
  unfold search_code.
  intros [-> | [-> | [-> | ->]]] [-> | [-> | [-> | ->]]]; eval_bits; lia.
Qed.

Lemma search_args_eq (query : string) (query_type : QueryType)
    (max_results offset : Z) :
  search_args query query_type max_results offset
  = bind (reduce_or (omap search_types (requested query_type))) (fun mask =>
    Return [JStr query; JNum mask; JNum (Z.min max_results 50); JNum offset]).
Proof.
  unfold search_args, requested.
  replace (if max_results >? 50 then 50 else max_results)
    with (Z.min max_results 50)
    by (destruct (Z.gtb_spec max_results 50); lia).
  destruct query_type as [name|names]; [|reflexivity].
  destruct (String.eqb name "all"); reflexivity.
Qed.

(** X27.  The argument list of a search.  The number of results asked for is
    capped at 50.  The second argument is a mask between 1 and 15 in which
    the flag of a search type is set exactly when its name was asked for
    (["all"] asks for the four of them); names that are no search type are
    passed over.  When no name asked for is a search type, an empty list
    included, the call ends in the [TypeError] of [reduce] on an empty
    sequence, before anything is sent. *)
Theorem search_args_mask (query : string) (query_type : QueryType)
    (max_results offset : Z) :
  match search_args query query_type max_results offset with
  | Return args =>
      exists mask,
        args = [JStr query; JNum mask; JNum (Z.min max_results 50); JNum offset]
        /\ 1 <= mask <= 15
        /\ forall name c, search_types name = Some c ->
             (Z.land mask c = c <-> In name (requested query_type))
  | Raise e =>
      e = OtherError "TypeError"
      /\ forall name, In name (requested query_type) -> search_types name = None
  end.
Proof.
  rewrite search_args_eq.
  assert (Hcodes : forall c, c ∈ omap search_types (requested query_type)
                   <-> exists n, In n (requested query_type)
                                 /\ search_types n = Some c).
  { intros c. rewrite list_elem_of_omap.
    split; intros (n & Hn & Hc); exists n; split; try exact Hc;
      now apply list_elem_of_In. }
  destruct (omap search_types (requested query_type)) as [|c0 rest]
    eqn:Hlist; cbn [reduce_or bind].
  - split; [reflexivity|].
    intros name Hname. destruct (search_types name) as [c|] eqn:Hc; [|reflexivity].
    assert (Hin : c ∈ @nil Z) by (apply Hcodes; eauto).
    now apply elem_of_nil in Hin.
  - assert (Hall : Forall search_code (c0 :: rest)).
    { apply List.Forall_forall. intros c Hc.
      apply list_elem_of_In, Hcodes in Hc. destruct Hc as (n & _ & Hc).
      now apply search_types_code with n. }
    inversion Hall as [|? ? Hc0 Hrest]; subst.
    assert (Ha : 0 <= c0 <= 15) by (unfold search_code in Hc0; lia).
    destruct (reduce_flags rest Hrest c0 Ha) as [Hr Hbits].
    exists (fold_left Z.lor rest c0).
    split; [reflexivity|].
    split.
    + split; [|lia].
      assert (Hset : Z.land (fold_left Z.lor rest c0) c0 = c0).
      { apply (Hbits c0 Hc0). left. now apply land_code. }
      destruct (Z.eq_dec (fold_left Z.lor rest c0) 0) as [Hz|Hz]; [|lia].
      rewrite Hz, Z.land_0_l in Hset. unfold search_code in Hc0. lia.
    + intros name c Hc.
      assert (Hcode : search_code c) by now apply search_types_code with name.
      rewrite (Hbits c Hcode), (land_code c0 c Hc0 Hcode).
      change (c0 = c \/ In c rest) with (In c (c0 :: rest)).
      rewrite <- list_elem_of_In, Hcodes.
      split.
      * intros (n & Hn & Hc'). now rewrite (search_types_inj name n c Hc Hc').
      * intros Hn. eauto.
Qed.

(** The default search and a search with an unknown type. *)
Example search_args_all :
  search_args "abba" (OneType "all") 100 0
  = Return [JStr "abba"; JNum 15; JNum 50; JNum 0].
Proof. reflexivity. Qed.

Example search_args_unknown :
  search_args "abba" (OneType "shows") 10 0 = Raise (OtherError "TypeError").
Proof. reflexivity. Qed.

End Search.

(* ===================================================================== *)
(** ** Track requests *)
(* ===================================================================== *)

Section TrackUri.

Lemma is_track_available_for_outside (self : Session) (code : Z) region rules :
  account_type_map (account_type self) = Return code ->
  Forall (fun r => ~ In code (catalogue r)) rules ->
  forall A F, is_track_available_for self region A F rules = Return false.
Proof.
  intros Hmap. induction 1 as [|r rules Hr _ IH]; intros A F;
    cbn [is_track_available_for]; [reflexivity|].
  destruct (eval_restriction self region A F r) as [[[A' F'] allowed] forbidden].
  rewrite Hmap. cbn [bind].
  assert (Hno : existsb (Z.eqb code) (catalogue r) = false).
  { apply not_true_is_false. intros Hex.
    apply existsb_exists in Hex. destruct Hex as (x & Hx & Heq).
    apply Z.eqb_eq in Heq. subst x. now apply Hr. }
  rewrite Hno, andb_false_r. apply IH.
Qed.

Lemma find_nothing {A} (ok : A -> bool) (l : list A) :
  Forall (fun x => ok x = false) l -> find ok l = None.
Proof.
  induction 1 as [|x l Hx _ IH]; cbn [find]; [reflexivity|].
  now rewrite Hx.
Qed.

(** X28.  A track nobody may play is not asked for.  On a session whose
    account type the catalogue map knows, when neither the track nor any of
    its alternatives has a rule for the account's catalogue (a candidate
    without any rule is such a one), [track_uri] sends nothing and creates
    no promise: it tells the callback [False] and returns nothing, or
    returns [False] when there is no callback. *)
Theorem track_uri_no_catalogue (E : Env) (track : Track) (callback : option nat)
    (prefix : string) (w : World) (code : Z) :
  account_type_map (account_type (api w)) = Return code ->
  Forall (outside_catalogue code) (track :: alternative track) ->
  track_uri E track callback prefix w
  = (mkWorld (api w) (store w) (sockets w)
       (calls w ++ called_back callback (JBool false)),
     0%nat,
     Return (match callback with Some _ => AnswerNone | None => AnswerFalse end)).
Proof.
  intros Hmap Hout. unfold track_uri.
  rewrite (recurse_alternatives_find (api w) code track None Hmap).
  rewrite find_nothing.
  - destruct callback as [f|]; cbn [called_back]; [reflexivity|].
    destruct w. cbn [api store sockets calls]. now rewrite app_nil_r.
  - eapply List.Forall_impl; [|exact Hout].
    intros c Hc. unfold check_passes, is_track_available.
    now rewrite (is_track_available_for_outside _ code _ _ Hmap Hc).
Qed.

Lemma is_track_available_unmapped (self : Session) (c : Track) region (e : Exn) :
  account_type_map (account_type self) = Raise e ->
  is_track_available self c region
  = match restriction c with [] => Return false | _ :: _ => Raise e end.
Proof.
  intros Hmap. unfold is_track_available.
  destruct (restriction c) as [|r rules]; cbn [is_track_available_for];
    [reflexivity|].
  destruct (eval_restriction self region [] [] r) as [[[A' F'] allowed] forbidden].
  now rewrite Hmap.
Qed.

Lemma recurse_alternatives_for_unmapped (self : Session) region (e : Exn)
    (alts : list Track) :
  account_type_map (account_type self) = Raise e ->
  Exists (fun c => restriction c <> []) alts ->
  recurse_alternatives_for self region alts = Raise e.
Proof.
  intros Hmap. induction alts as [|c alts IH]; intros Hex;
    [inversion Hex|].
  cbn [recurse_alternatives_for].
  rewrite (is_track_available_unmapped self c region e Hmap).
  destruct (restriction c) as [|r rules] eqn:Hr; cbn [bind]; [|reflexivity].
  apply IH. inversion Hex as [? ? Hc|? ? Hrest]; subst; [|exact Hrest].
  now rewrite Hr in Hc.
Qed.

(** X29.  The resolver before the login is over.  On a session whose account
    type is none of ["premium"], ["unlimited"] and ["free"] (one that has no
    account type yet, for one), [track_uri] for a track that has a rule, or
    an alternative with a rule, ends in [KeyError]: nothing is sent and the
    callback is not told. *)
Theorem track_uri_unmapped (E : Env) (track : Track) (callback : option nat)
    (prefix : string) (w : World) :
  account_type_map (account_type (api w)) = Raise KeyError ->
  Exists (fun c => restriction c <> []) (track :: alternative track) ->
  track_uri E track callback prefix w = (w, 0%nat, Raise KeyError).
Proof.
  intros Hmap Hex. unfold track_uri, recurse_alternatives.
  rewrite (is_track_available_unmapped (api w) track _ KeyError Hmap).
  destruct (restriction track) as [|r rules] eqn:Hr; cbn [bind]; [|reflexivity].
  rewrite (recurse_alternatives_for_unmapped (api w) _ KeyError _ Hmap);
    [reflexivity|].
  inversion Hex as [? ? Hc|? ? Hrest]; subst; [|exact Hrest].
  now rewrite Hr in Hc.
Qed.

End TrackUri.

(** The theorem at work: a premium account and a track for the free
    catalogue. *)
Lemma track_uri_no_catalogue_witness :
  track_uri silent_env track_free_only (Some 7%nat) "mp3160" busy_world
  = (mkWorld (api busy_world) (store busy_world) (sockets busy_world)
       (calls busy_world ++ called_back (Some 7%nat) (JBool false)),
     0%nat, Return AnswerNone).
Proof.
  apply (track_uri_no_catalogue silent_env track_free_only (Some 7%nat) "mp3160"
           busy_world 1).
  - reflexivity.
  - repeat constructor; cbn; lia.
Defined.

(** The theorem at work: a session that never logged in. *)
Lemma track_uri_unmapped_witness :
  track_uri silent_env track_free_only None "mp3160" offline_world
  = (offline_world, 0%nat, Raise KeyError).
Proof.
  apply (track_uri_unmapped silent_env track_free_only None "mp3160" offline_world).
  - reflexivity.
  - left. discriminate.
Defined.

(* ===================================================================== *)
(** ** Track events *)
(* ===================================================================== *)

Section TrackEvent.

Lemma track_event_number_cases (event : string) :
  track_event_number event
  = Some (if String.eqb event "pause" || String.eqb event "stop" then 4 else 3).
Proof.
  unfold track_event_number.
  destruct (String.eqb event "pause" || String.eqb event "stop"); [reflexivity|].
  assert (Hplay : truthy (Some "continue") = true) by (vm_compute; reflexivity).
  rewrite Hplay, orb_true_r. reflexivity.
Qed.

(** X30.  [send_track_event] refuses no event.  The test of line 962 is
    [event == "unpause" or "continue" or "play"], which a non-empty string
    constant makes true for every [event]: ["pause"] and ["stop"] go out as
    event number 4, and every other string, known or not, goes out as event
    number 3 through [wrap_request]; the [return False] of line 965 is never
    reached. *)
Theorem send_track_event_refuses_nothing (E : Env) (lid event : string)
    (ms_where : Z) (callback : option nat) (w : World) :
  exists ev_n,
    (ev_n = 4 /\ (event = "pause" \/ event = "stop")
     \/ ev_n = 3 /\ event <> "pause" /\ event <> "stop")
    /\ send_track_event E lid event ms_where callback w
       = match wrap_request E "sp/track_event"
                 (Some [JStr lid; JNum ev_n; JNum ms_where]) callback None 3 10 w with
         | (w', sends, Return r) => (w', sends, Return (Answered r))
         | (w', sends, Raise e) => (w', sends, Raise e)
         end
    /\ snd (send_track_event E lid event ms_where callback w) <> Return AnswerFalse.
Proof.
  unfold send_track_event. rewrite track_event_number_cases.
  exists (if String.eqb event "pause" || String.eqb event "stop" then 4 else 3).
  split; [|split; [reflexivity|]].
  - destruct (String.eqb_spec event "pause") as [->|Hp]; cbn [orb];
      [left; auto|].
    destruct (String.eqb_spec event "stop") as [->|Hs]; [left; auto | right; auto].
  - destruct (wrap_request E "sp/track_event" _ callback None 3 10 w)
      as [[w' sends] [r|e]]; cbn [snd]; discriminate.
Qed.

(** An event the method does not know goes out as event number 3. *)
Example track_event_number_unknown :
  track_event_number "rewind" = Some 3 /\ track_event_number "stop" = Some 4.
Proof. split; reflexivity. Qed.

End TrackEvent.
